(** * The consistent hashing ring of fogfish/ring

    A shallow embedding of [ring.go], [hash.go] and the option file of the
    Go package [ring], followed by the properties of the ring that are
    checked against it.

    Conventions of the embedding.
    - [uint64] values are integers in [[0, 2^64)]; every arithmetic
      operation of the source that can leave that range is followed by
      [u64].  Go's [int] is the 64-bit signed type; [int_of] is the
      conversion [int(x)] and [iwrap] the wrap-around of signed arithmetic.
    - A run-time panic of the Go program (integer division by zero, index
      out of range, [make] with a length that does not fit [int]) is the
      result [None]; exhaustion of memory is outside the model.
    - Strings are [string], digests are [list byte], the shard vector is a
      [list Hash] read with [!!] and written with [<[_:=_]>], the member
      set is a [gmap string bool].
    - The iteration order of a Go map is not specified; where the source
      ranges over a map and the order can matter ([Leave]), the order is an
      explicit argument constrained to be a permutation of the keys. *)

From Stdlib Require Import ZArith Strings.String Strings.Byte Lia.
From stdpp Require Import gmap strings list fin_maps.

Local Open Scope Z_scope.

(** ** Machine integers *)

Definition u64 (x : Z) : Z := x mod 2 ^ 64.

Definition int_of (x : Z) : Z := if decide (x < 2 ^ 63) then x else x - 2 ^ 64.

Definition iwrap (x : Z) : Z := int_of (u64 x).

(** [uint64(b)] for a byte [b]. *)
Definition byteZ (b : byte) : Z := Z.of_N (Byte.to_N b).

(** Indexing a slice with an [int]: out of range is a panic. *)
Definition at_ {A} (l : list A) (i : Z) : option A :=
  if decide (0 <= i) then l !! Z.to_nat i else None.

(** ** SHA-1, the default hasher ([crypto/sha1]) *)

Module SHA1.

Definition w32 (x : Z) : Z := x mod 2 ^ 32.

Definition rotl (n x : Z) : Z :=
  Z.lor (w32 (Z.shiftl x n)) (Z.shiftr x (32 - n)).

Definition be64 (x : Z) : list Z :=
  (fun i => Z.shiftr x (8 * i) mod 256) <$> [7; 6; 5; 4; 3; 2; 1; 0].

Definition pad (msg : list Z) : list Z :=
  let l := Z.of_nat (length msg) in
  msg ++ [128] ++ replicate (Z.to_nat ((55 - l) mod 64)) 0 ++ be64 (8 * l).

Fixpoint words (fuel : nat) (bs : list Z) : list Z :=
  match fuel, bs with
  | S fuel', b0 :: b1 :: b2 :: b3 :: rest =>
      (Z.shiftl b0 24 + Z.shiftl b1 16 + Z.shiftl b2 8 + b3) :: words fuel' rest
  | _, _ => []
  end.

(** The message schedule, most recent word first. *)
Fixpoint schedule (n : nat) (rev_w : list Z) : list Z :=
  match n with
  | O => rev_w
  | S n' =>
      let g i := default 0 (rev_w !! i) in
      let w := rotl 1 (Z.lxor (Z.lxor (g 2%nat) (g 7%nat))
                              (Z.lxor (g 13%nat) (g 15%nat))) in
      schedule n' (w :: rev_w)
  end.

Definition state : Type := Z * Z * Z * Z * Z.

Definition round (i : Z) (s : state) (w : Z) : state :=
  let '(a, b, c, d, e) := s in
  let '(f, k) :=
    if decide (i < 20) then
      (Z.lor (Z.land b c) (Z.land (Z.lxor b (2 ^ 32 - 1)) d), 1518500249)
    else if decide (i < 40) then
      (Z.lxor (Z.lxor b c) d, 1859775393)
    else if decide (i < 60) then
      (Z.lor (Z.lor (Z.land b c) (Z.land b d)) (Z.land c d), 2400959708)
    else
      (Z.lxor (Z.lxor b c) d, 3395469782) in
  (w32 (rotl 5 a + f + e + k + w), a, rotl 30 b, c, d).

Fixpoint rounds (i : Z) (s : state) (ws : list Z) : state :=
  match ws with
  | [] => s
  | w :: ws' => rounds (i + 1) (round i s w) ws'
  end.

Definition block (s : state) (ws : list Z) : state :=
  let '(h0, h1, h2, h3, h4) := s in
  let '(a, b, c, d, e) := rounds 0 s (rev (schedule 64 (rev ws))) in
  (w32 (h0 + a), w32 (h1 + b), w32 (h2 + c), w32 (h3 + d), w32 (h4 + e)).

Fixpoint blocks (fuel : nat) (s : state) (ws : list Z) : state :=
  match fuel with
  | O => s
  | S fuel' =>
      match ws with
      | [] => s
      | _ => blocks fuel' (block s (take 16 ws)) (drop 16 ws)
      end
  end.

Definition init : state :=
  (1732584193, 4023233417, 2562383102, 271733878, 3285377520).

Definition byte_of (x : Z) : byte :=
  default x00 (Byte.of_N (Z.to_N (x mod 256))).

Definition be32 (x : Z) : list byte :=
  [byte_of (Z.shiftr x 24); byte_of (Z.shiftr x 16);
   byte_of (Z.shiftr x 8); byte_of x].

Definition sum (msg : list byte) : list byte :=
  let bs := pad (byteZ <$> msg) in
  let ws := words (length bs) bs in
  let '(h0, h1, h2, h3, h4) := blocks (length ws) init ws in
  be32 h0 ++ be32 h1 ++ be32 h2 ++ be32 h3 ++ be32 h4.


End SHA1.

(** ** hash.go: shard entries *)

Record Hash := mkHash {
  hash : Z;      (* consistent hash: the canonical address of the shard *)
  addr : Z;      (* address of the token that claimed the shard *)
  rank : Z;      (* rank of that token, -1 when no token claimed it *)
  node : string  (* identifier of the owner *)
}.

Abbreviation Hashes := (list Hash).

Definition update (hashes : Hashes) (shard : Z) (addr' rank' : Z) (node' : string)
  : option Hashes :=
  h ← at_ hashes shard;
  Some (<[Z.to_nat shard :=
            {| hash := hash h; addr := addr'; rank := rank'; node := node' |}]> hashes).

Definition updateNode (hashes : Hashes) (shard : Z) (src : Hash) : option Hashes :=
  h ← at_ hashes shard;
  Some (<[Z.to_nat shard :=
            {| hash := hash h; addr := addr h; rank := rank h; node := node src |}]> hashes).

Fixpoint contains (hashes : Hashes) (nd : string) : bool :=
  match hashes with
  | [] => false
  | x :: rest => if decide (node x = nd) then true else contains rest nd
  end.

(** ** ring.go: the ring *)

Record Ring := mkRing {
  m : Z;                              (* hash space 2^m - 1 *)
  q : Z;                              (* number of shards *)
  t : Z;                              (* tokens claimed by a node *)
  hasher : list byte → list byte;     (* digest of the bytes written *)
  arc : Z;
  hashes : Hashes;
  nodes : gmap string bool
}.

Definition set_hashes (hs : Hashes) (ring : Ring) : Ring :=
  {| m := m ring; q := q ring; t := t ring; hasher := hasher ring;
     arc := arc ring; hashes := hs; nodes := nodes ring |}.

Definition set_nodes (ns : gmap string bool) (ring : Ring) : Ring :=
  {| m := m ring; q := q ring; t := t ring; hasher := hasher ring;
     arc := arc ring; hashes := hashes ring; nodes := ns |}.

Definition set_arc (a : Z) (ring : Ring) : Ring :=
  {| m := m ring; q := q ring; t := t ring; hasher := hasher ring;
     arc := a; hashes := hashes ring; nodes := nodes ring |}.

(** *** Options *)

Definition Option : Type := Ring → Ring.

Definition withM (m' : Z) : Option := λ ring,
  {| m := m'; q := q ring; t := t ring; hasher := hasher ring;
     arc := arc ring; hashes := hashes ring; nodes := nodes ring |}.

Definition WithM8 : Option := withM 8.
Definition WithM16 : Option := withM 16.
Definition WithM32 : Option := withM 32.
Definition WithM64 : Option := withM 64.

Definition WithQ (q' : Z) : Option := λ ring,
  {| m := m ring; q := q'; t := t ring; hasher := hasher ring;
     arc := arc ring; hashes := hashes ring; nodes := nodes ring |}.

Definition WithT (n : Z) : Option := λ ring,
  {| m := m ring; q := q ring; t := n; hasher := hasher ring;
     arc := arc ring; hashes := hashes ring; nodes := nodes ring |}.

Definition WithHash (f : list byte → list byte) : Option := λ ring,
  {| m := m ring; q := q ring; t := t ring; hasher := f;
     arc := arc ring; hashes := hashes ring; nodes := nodes ring |}.

Definition WithRing (r : Ring) : Option := λ ring,
  {| m := m r; q := q r; t := t r; hasher := hasher r;
     arc := arc ring; hashes := hashes ring; nodes := nodes ring |}.

Definition Options (opts : list Option) : Option := λ ring,
  foldl (λ r opt, opt r) ring opts.

Definition M64_Q8_T8 : Option :=
  Options [WithM64; WithQ 8; WithT 8; WithHash SHA1.sum].

Definition M64_Q4096_T256 : Option :=
  Options [WithM64; WithQ 4096; WithT 256; WithHash SHA1.sum].

(** *** Ring algebra *)

Definition highest (ring : Ring) : Z :=
  u64 (u64 (Z.shiftl 1 (m ring)) - 1).

Definition segment (ring : Ring) : option Z :=
  if decide (q ring = 0) then None
  else Some (u64 (highest ring / q ring + 1)).

Definition addressShard (ring : Ring) (shard : Z) : Z :=
  u64 (u64 (shard * arc ring) - 1).

(** [make(T, n)] and [make(T, 0, n)] panic when [n] does not fit [int]. *)
Definition make_ok (n : Z) : Prop := n < 2 ^ 63.

Definition addresses (ring : Ring) : option (list Z) :=
  if decide (make_ok (q ring)) then
    Some ((λ i, addressShard ring (u64 (i + 1))) <$> seqZ 0 (q ring))
  else None.

Definition ring_empty (ring : Ring) : option Ring :=
  seq ← addresses ring;
  Some (set_hashes
          ((λ a, {| hash := a; addr := 0; rank := -1; node := "" |}) <$> seq)
          (set_nodes ∅ ring)).

(** The zero value [&Ring{}]. *)
Definition zero_Ring : Ring :=
  {| m := 0; q := 0; t := 0; hasher := λ _, []; arc := 0; hashes := [];
     nodes := ∅ |}.

Definition New (opts : list Option) : option Ring :=
  let ring := Options opts (M64_Q8_T8 zero_Ring) in
  a ← segment ring;
  ring_empty (set_arc a ring).

Fixpoint addressHash_loop (n : nat) (i : Z) (digest : list byte) (a : Z)
  : option Z :=
  match n with
  | O => Some a
  | S n' =>
      b ← at_ digest i;
      addressHash_loop n' (i + 1) digest
        (Z.lor a (u64 (Z.shiftl (byteZ b) (u64 (8 * i)))))
  end.

(** The expression [(addr / ring.arc) % ring.q] of the source. *)
Definition shard_of (ring : Ring) (a : Z) : option Z :=
  if decide (arc ring = 0) then None
  else if decide (q ring = 0) then None
  else Some ((a / arc ring) mod q ring).

Definition addressHash (ring : Ring) (digest : list byte) : option (Z * Z) :=
  b0 ← at_ digest 0;
  a ← addressHash_loop (Z.to_nat (m ring / 8 - 1)) 1 digest (byteZ b0);
  shard ← shard_of ring a;
  Some (int_of shard, a).

Definition ring_hash (ring : Ring) (key : string) (digest : list byte) : list byte :=
  hasher ring (list_byte_of_string key ++ digest).

Definition address (ring : Ring) (key : string) : option (Z * Z) :=
  addressHash ring (ring_hash ring key []).

(** *** Join, repair, Leave, Handoff *)

(** The [switch] of [Join]: does the token [(rank', addr')] take the shard
    whose entry is [main]? *)
Definition claims (main : Hash) (rank' addr' : Z) : bool :=
  if decide (addr main = 0) then true
  else if decide (rank main ≠ 0 ∧ rank' = 0) then true
  else if decide (rank main = rank' ∧ addr main < addr') then true
  else if decide (rank main > rank') then true
  else false.

Fixpoint Join_tokens (n : nat) (rank' : Z) (nd : string) (digest : list byte)
    (ring : Ring) : option Ring :=
  match n with
  | O => Some ring
  | S n' =>
      let digest' := ring_hash ring nd digest in
      '(shard, a) ← addressHash ring digest';
      main ← at_ (hashes ring) shard;
      hs ← (if claims main rank' a
            then update (hashes ring) shard a rank' nd
            else Some (hashes ring));
      Join_tokens n' (rank' + 1) nd digest' (set_hashes hs ring)
  end.

Fixpoint repair_head (n : nat) (i : Z) (hs : Hashes) : option Hashes :=
  match n with
  | O => Some hs
  | S n' =>
      h ← at_ hs i;
      if decide (rank h ≠ -1) then updateNode hs 0 h
      else repair_head n' (i - 1) hs
  end.

Fixpoint repair_tail (n : nat) (i : Z) (hs : Hashes) : option Hashes :=
  match n with
  | O => Some hs
  | S n' =>
      h ← at_ hs i;
      hs' ← (if decide (rank h = -1)
             then p ← at_ hs (i - 1); updateNode hs i p
             else Some hs);
      repair_tail n' (i + 1) hs'
  end.

Definition repair (ring : Ring) : option Ring :=
  h0 ← at_ (hashes ring) 0;
  hs1 ← (if decide (rank h0 = -1)
         then repair_head (Z.to_nat (u64 (q ring - 1))) (u64 (q ring - 1))
                (hashes ring)
         else Some (hashes ring));
  hs2 ← repair_tail (Z.to_nat (int_of (q ring) - 1)) 1 hs1;
  Some (set_hashes hs2 ring).

Definition Join (ring : Ring) (nd : string) : option Ring :=
  if decide (is_Some (nodes ring !! nd)) then
    Some (set_nodes (<[nd := true]> (nodes ring)) ring)
  else
    ring1 ← Join_tokens (Z.to_nat (int_of (t ring))) 0 nd [] ring;
    ring2 ← repair ring1;
    Some (set_nodes (<[nd := true]> (nodes ring2)) ring2).

Fixpoint Join_all (order : list string) (ring : Ring) : option Ring :=
  match order with
  | [] => Some ring
  | nd :: rest => ring' ← Join ring nd; Join_all rest ring'
  end.

(** [order] is an order in which [range] may visit the keys of a map. *)
Definition range_order (ns : gmap string bool) (order : list string) : Prop :=
  order ≡ₚ (map_to_list ns).*1.

(** [Leave], with the order in which [for node := range nodes] visits the
    remaining members. *)
Definition Leave (order : list string) (ring : Ring) (nd : string) : option Ring :=
  if decide (is_Some (nodes ring !! nd)) then
    ring0 ← ring_empty ring;
    Join_all order ring0
  else Some ring.

Definition Handoff (ring : Ring) (nd : string) : Ring :=
  set_nodes (<[nd := false]> (nodes ring)) ring.

(** [ring.nodes[x]]: the zero value [false] for an absent key. *)
Definition active (ring : Ring) (nd : string) : bool :=
  default false (nodes ring !! nd).

(** *** Routing *)

Fixpoint distinctNodes_loop (k : nat) (i : Z) (ring : Ring) (n : Z)
    (fromShard : Z) (last : Z) (head : Hashes) : option (Z * Hashes) :=
  match k with
  | O => Some (last, head)
  | S k' =>
      let last' := Z.rem (iwrap (fromShard + i)) (int_of (q ring)) in
      h ← at_ (hashes ring) last';
      let head' := if contains head (node h) then head else head ++ [h] in
      if decide (Z.of_nat (length head') = int_of n) then Some (last', head')
      else distinctNodes_loop k' (i + 1) ring n fromShard last' head'
  end.

Definition distinctNodes (ring : Ring) (n : Z) (fromShard : Z)
  : option (Z * Hashes) :=
  if decide (make_ok n) then
    distinctNodes_loop (Z.to_nat (int_of (q ring))) 0 ring n fromShard 0 []
  else None.

Fixpoint primaryNodes_loop (ring : Ring) (coord : Hash) (hs : Hashes)
    (primary : Hashes) : Hashes :=
  match hs with
  | [] => primary
  | h :: rest =>
      primaryNodes_loop ring coord rest
        (if active ring (node h)
         then primary ++ [{| hash := hash coord; addr := addr h;
                             rank := rank h; node := node h |}]
         else primary)
  end.

Definition primaryNodes (ring : Ring) (n : Z) (coord : Hash) (hs : Hashes)
  : option Hashes :=
  if decide (make_ok n) then Some (primaryNodes_loop ring coord hs [])
  else None.

Fixpoint handoff_loop (k : nat) (i : Z) (ring : Ring) (coord : Hash)
    (last : Z) (primary : Hashes) (hn : Z) (handoff : Hashes) : option Hashes :=
  match k with
  | O => Some handoff
  | S k' =>
      h ← at_ (hashes ring) (Z.rem (iwrap (last + i)) (int_of (q ring)));
      let handoff' :=
        if active ring (node h) && negb (contains handoff (node h))
           && negb (contains primary (node h))
        then handoff ++ [{| hash := hash coord; addr := addr h;
                            rank := rank h; node := node h |}]
        else handoff in
      if decide (Z.of_nat (length handoff') = hn) then Some handoff'
      else handoff_loop k' (i + 1) ring coord last primary hn handoff'
  end.

Definition SuccessorOf (ring : Ring) (n : Z) (key : string)
  : option (Hashes * Hashes) :=
  '(shard, _) ← address ring key;
  coord ← at_ (hashes ring) shard;
  '(last, head) ← distinctNodes ring n shard;
  primary ← primaryNodes ring n coord head;
  if decide (Z.of_nat (length primary) = int_of n) then Some (primary, [])
  else
    let hn := iwrap (int_of n - Z.of_nat (length primary)) in
    handoff ← (if decide (make_ok n)
               then handoff_loop (Z.to_nat (int_of (q ring) - 1)) 1 ring coord
                      last primary hn []
               else None);
    Some (primary, handoff).

Definition Address (ring : Ring) (key : string) : option Z :=
  '(_, a) ← address ring key; Some a.

Definition Lookup (ring : Ring) (a : Z) : option Hash :=
  shard ← shard_of ring a;
  at_ (hashes ring) shard.

Definition LookupKey (ring : Ring) (key : string) : option Hash :=
  '(shard, _) ← address ring key;
  at_ (hashes ring) shard.

Definition min_u64 (a b : Z) : Z := if decide (a < b) then a else b.

Fixpoint predecessor_loop (k : nat) (i : Z) (ring : Ring) (n : Z) (shard : Z)
    (seq : Hashes) : option Hashes :=
  match k with
  | O => Some seq
  | S k' =>
      let q' := int_of (q ring) in
      h ← at_ (hashes ring) (Z.rem (iwrap (iwrap (q' + shard) - i)) q');
      let seq' := seq ++ [h] in
      if decide (Z.of_nat (length seq') = int_of n) then Some seq'
      else predecessor_loop k' (i + 1) ring n shard seq'
  end.

Definition predecessor (ring : Ring) (n : Z) (shard : Z) : option Hashes :=
  if decide (make_ok n) then
    predecessor_loop (Z.to_nat (int_of (q ring))) 0 ring n shard []
  else None.

Fixpoint successor_loop (k : nat) (i : Z) (ring : Ring) (n : Z) (shard : Z)
    (seq : Hashes) : option Hashes :=
  match k with
  | O => Some seq
  | S k' =>
      h ← at_ (hashes ring) (Z.rem (iwrap (shard + i)) (int_of (q ring)));
      let seq' := seq ++ [h] in
      if decide (Z.of_nat (length seq') = int_of n) then Some seq'
      else successor_loop k' (i + 1) ring n shard seq'
  end.

Definition successor (ring : Ring) (n : Z) (shard : Z) : option Hashes :=
  if decide (make_ok n) then
    successor_loop (Z.to_nat (int_of (q ring))) 0 ring n shard []
  else None.

Definition Before (ring : Ring) (n : Z) (a : Z) : option Hashes :=
  shard ← shard_of ring a;
  predecessor ring (min_u64 n (q ring)) (int_of shard).

Definition After (ring : Ring) (n : Z) (a : Z) : option Hashes :=
  shard ← shard_of ring a;
  successor ring (min_u64 n (q ring)) (int_of shard).

Definition BeforeKey (ring : Ring) (n : Z) (key : string) : option Hashes :=
  '(shard, _) ← address ring key;
  predecessor ring (min_u64 n (q ring)) shard.

Definition AfterKey (ring : Ring) (n : Z) (key : string) : option Hashes :=
  '(shard, _) ← address ring key;
  successor ring (min_u64 n (q ring)) shard.

(** *** Accessors *)

Definition Size (ring : Ring) : Z := Z.of_nat (size (nodes ring)).

Definition Has (ring : Ring) (nd : string) : bool :=
  bool_decide (is_Some (nodes ring !! nd)).

Definition Nodes (ring : Ring) : gmap string Hashes :=
  foldl (λ (acc : gmap string Hashes) h,
           <[node h := default [] (acc !! node h) ++ [h]]> acc)
        ((λ _, []) <$> nodes ring) (hashes ring).

Definition Shards (ring : Ring) : Hashes := hashes ring.

(** ** The example program of the repository, evaluated *)

Definition ringo : option Ring :=
  ring ← New [WithM64; WithQ 8; WithT 8];
  Join_all ["113.181.90.103"; "102.190.90.78"; "140.93.207.103";
            "92.106.122.149"; "18.54.73.101"]%string ring.

Definition observe (h : Hash) : Z * Z * Z * string :=
  (hash h, rank h, addr h, node h).

(** ** Histories of a ring *)

Inductive op : Type :=
| OJoin (nd : string)
| OLeave (nd : string) (order : list string)
| OHandoff (nd : string).

Definition apply (ring : Ring) (o : op) : option Ring :=
  match o with
  | OJoin nd => Join ring nd
  | OLeave nd order => Leave order ring nd
  | OHandoff nd => Some (Handoff ring nd)
  end.

(** The only constraint on a step: the order a [Leave] re-joins the
    remaining members in is an enumeration of those members. *)
Definition permitted (ring : Ring) (o : op) : Prop :=
  match o with
  | OLeave nd order => range_order (delete nd (nodes ring)) order
  | _ => True
  end.

Inductive reachable_by (P : Ring → op → Prop) (ring0 : Ring) : Ring → Prop :=
| reach_new : reachable_by P ring0 ring0
| reach_step ring o ring' :
    reachable_by P ring0 ring → P ring o → apply ring o = Some ring' →
    reachable_by P ring0 ring'.

Definition reachable : Ring → Ring → Prop := reachable_by permitted.

(** ** Basic facts *)

Definition uint64 (x : Z) : Prop := 0 <= x < 2 ^ 64.

Lemma u64_range x : uint64 (u64 x).
Proof. unfold uint64, u64. apply Z.mod_pos_bound. lia. Qed.

Lemma u64_id x : uint64 x → u64 x = x.
Proof. unfold uint64, u64. intros. apply Z.mod_small. lia. Qed.

Lemma int_of_small x : x < 2 ^ 63 → int_of x = x.
Proof. unfold int_of. intros. case_decide; lia. Qed.

Lemma iwrap_small x : 0 <= x < 2 ^ 63 → iwrap x = x.
Proof.
  intros. unfold iwrap. rewrite u64_id by (unfold uint64; lia).
  apply int_of_small. lia.
Qed.

Lemma at_Some {A} (l : list A) i x :
  at_ l i = Some x ↔ 0 <= i ∧ l !! Z.to_nat i = Some x.
Proof.
  unfold at_. destruct (decide (0 <= i)); split; try done.
  - by intros [_ ?].
  - by intros [? _].
Qed.

Lemma at_nat {A} (l : list A) (i : nat) : at_ l (Z.of_nat i) = l !! i.
Proof. unfold at_. case_decide; [by rewrite Nat2Z.id | lia]. Qed.

Lemma at_is_Some {A} (l : list A) i :
  0 <= i < Z.of_nat (length l) → is_Some (at_ l i).
Proof.
  intros. unfold at_. case_decide; [|lia].
  apply lookup_lt_is_Some_2. lia.
Qed.

Lemma at_lt {A} (l : list A) i x :
  at_ l i = Some x → 0 <= i < Z.of_nat (length l).
Proof.
  intros [? Hx]%at_Some. apply lookup_lt_Some in Hx. lia.
Qed.

Lemma update_length hs shard a r nd hs' :
  update hs shard a r nd = Some hs' → length hs' = length hs.
Proof.
  unfold update. intros. simplify_option_eq. by rewrite length_insert.
Qed.

Lemma updateNode_length hs shard src hs' :
  updateNode hs shard src = Some hs' → length hs' = length hs.
Proof.
  unfold updateNode. intros. simplify_option_eq. by rewrite length_insert.
Qed.

Lemma update_hash hs shard a r nd hs' :
  update hs shard a r nd = Some hs' → hash <$> hs' = hash <$> hs.
Proof.
  unfold update. intros. simplify_option_eq.
  rewrite list_fmap_insert. simpl. apply list_insert_id.
  rewrite list_lookup_fmap.
  match goal with H : at_ _ _ = Some _ |- _ => apply at_Some in H as [_ ->] end.
  done.
Qed.

Lemma updateNode_hash hs shard src hs' :
  updateNode hs shard src = Some hs' → hash <$> hs' = hash <$> hs.
Proof.
  unfold updateNode. intros. simplify_option_eq.
  rewrite list_fmap_insert. simpl. apply list_insert_id.
  rewrite list_lookup_fmap.
  match goal with H : at_ _ _ = Some _ |- _ => apply at_Some in H as [_ ->] end.
  done.
Qed.

Lemma updateNode_rank hs shard src hs' :
  updateNode hs shard src = Some hs' → rank <$> hs' = rank <$> hs.
Proof.
  unfold updateNode. intros. simplify_option_eq.
  rewrite list_fmap_insert. simpl. apply list_insert_id.
  rewrite list_lookup_fmap.
  match goal with H : at_ _ _ = Some _ |- _ => apply at_Some in H as [_ ->] end.
  done.
Qed.

Lemma updateNode_addr hs shard src hs' :
  updateNode hs shard src = Some hs' → addr <$> hs' = addr <$> hs.
Proof.
  unfold updateNode. intros. simplify_option_eq.
  rewrite list_fmap_insert. simpl. apply list_insert_id.
  rewrite list_lookup_fmap.
  match goal with H : at_ _ _ = Some _ |- _ => apply at_Some in H as [_ ->] end.
  done.
Qed.

(** The configuration of a ring: what no operation changes. *)
Definition same_config (r1 r2 : Ring) : Prop :=
  m r1 = m r2 ∧ q r1 = q r2 ∧ t r1 = t r2 ∧ hasher r1 = hasher r2 ∧
  arc r1 = arc r2.

Global Instance same_config_equiv : Equivalence same_config.
Proof.
  split.
  - by intros ?.
  - intros ?? (?&?&?&?&?). by repeat split.
  - intros ??? (?&?&?&?&?) (?&?&?&?&?). repeat split; congruence.
Qed.


(** What [Join_tokens] and [repair] leave alone: the configuration, the
    member set and the canonical address of every shard. *)
Definition frame (r1 r2 : Ring) : Prop :=
  same_config r1 r2 ∧ nodes r1 = nodes r2 ∧
  hash <$> hashes r1 = hash <$> hashes r2.

Global Instance frame_preorder : PreOrder frame.
Proof.
  split.
  - by intros ?.
  - intros ??? (?&?&?) (?&?&?). repeat split; try congruence.
    all: etrans; [apply H|apply H2].
Qed.

Lemma frame_length r1 r2 : frame r1 r2 → length (hashes r1) = length (hashes r2).
Proof.
  intros (_&_&H). apply (f_equal length) in H. by rewrite !length_fmap in H.
Qed.

Lemma frame_set_hashes ring hs :
  hash <$> hs = hash <$> hashes ring → frame ring (set_hashes hs ring).
Proof. intros H. by repeat split. Qed.

Lemma Join_tokens_frame n rk nd d ring ring' :
  Join_tokens n rk nd d ring = Some ring' → frame ring ring'.
Proof.
  revert rk d ring. induction n as [|n IH]; intros rk d ring H; simpl in H.
  - by simplify_eq.
  - destruct (addressHash ring _) as [[shard a]|]; [simpl in H|done].
    destruct (at_ (hashes ring) shard) as [main|]; [simpl in H|done].
    destruct (claims main rk a).
    + destruct (update _ _ _ _ _) as [hs|] eqn:Hu; [simpl in H|done].
      etrans; [|by eapply IH].
      apply frame_set_hashes. by eapply update_hash.
    + simpl in H. etrans; [|by eapply IH]. by apply frame_set_hashes.
Qed.

Lemma repair_head_hash n i hs hs' :
  repair_head n i hs = Some hs' → hash <$> hs' = hash <$> hs.
Proof.
  revert i. induction n as [|n IH]; intros i H; simpl in H.
  - by simplify_eq.
  - destruct (at_ hs i) as [h|]; [simpl in H|done].
    destruct (decide (rank h ≠ -1)); [by eapply updateNode_hash|by eapply IH].
Qed.

Lemma repair_tail_hash n i hs hs' :
  repair_tail n i hs = Some hs' → hash <$> hs' = hash <$> hs.
Proof.
  revert i hs. induction n as [|n IH]; intros i hs H; simpl in H.
  - by simplify_eq.
  - destruct (at_ hs i) as [h|]; [simpl in H|done].
    destruct (decide (rank h = -1)).
    + destruct (at_ hs (i - 1)) as [p|]; [simpl in H|done].
      destruct (updateNode hs i p) as [hs1|] eqn:Hu; [simpl in H|done].
      rewrite (IH _ _ H). by eapply updateNode_hash.
    + simpl in H. by eapply IH.
Qed.

Lemma repair_frame ring ring' : repair ring = Some ring' → frame ring ring'.
Proof.
  unfold repair. intros H.
  destruct (at_ (hashes ring) 0) as [h0|]; [simpl in H|done].
  destruct (decide (rank h0 = -1)).
  - destruct (repair_head _ _ _) as [hs1|] eqn:H1; [simpl in H|done].
    destruct (repair_tail _ _ _) as [hs2|] eqn:H2; [simpl in H|done].
    simplify_eq. apply frame_set_hashes.
    rewrite (repair_tail_hash _ _ _ _ H2). by eapply repair_head_hash.
  - simpl in H.
    destruct (repair_tail _ _ _) as [hs2|] eqn:H2; [simpl in H|done].
    simplify_eq. apply frame_set_hashes. by eapply repair_tail_hash.
Qed.

(** The shape of a ring built by [New] and kept by every operation. *)
Record wf (ring : Ring) : Prop := {
  wf_q : 0 < q ring < 2 ^ 63;
  wf_length : Z.of_nat (length (hashes ring)) = q ring;
  wf_hash : ∀ (i : nat) h, hashes ring !! i = Some h →
            hash h = addressShard ring (u64 (Z.of_nat i + 1))
}.

Lemma wf_frame r1 r2 : frame r1 r2 → wf r1 → wf r2.
Proof.
  intros Hf [Hq Hl Hh]. pose proof (frame_length _ _ Hf) as Hlen.
  destruct Hf as ((?&Hq'&?&?&Ha)&?&Hhash).
  split.
  - by rewrite <-Hq'.
  - by rewrite <-Hlen, <-Hq'.
  - intros i h Hi.
    assert ((hash <$> hashes r1) !! i = Some (hash h)) as Hi'.
    { by rewrite Hhash, list_lookup_fmap, Hi. }
    rewrite list_lookup_fmap in Hi'.
    destruct (hashes r1 !! i) as [h1|] eqn:E; [|done]. simpl in Hi'.
    simplify_eq. rewrite <-Hi'. rewrite (Hh _ _ E).
    unfold addressShard. by rewrite Ha.
Qed.

Lemma wf_set_nodes ns ring : wf ring → wf (set_nodes ns ring).
Proof. by intros [???]. Qed.

Lemma ring_empty_Some ring :
  0 <= q ring < 2 ^ 63 →
  ring_empty ring =
    Some (set_hashes
            ((λ i, {| hash := addressShard ring (u64 (i + 1)); addr := 0;
                      rank := -1; node := "" |}) <$> seqZ 0 (q ring))
            (set_nodes ∅ ring)).
Proof.
  intros Hq. unfold ring_empty, addresses, make_ok.
  destruct (decide (q ring < 2 ^ 63)); [|lia]. simpl.
  by rewrite <-list_fmap_compose.
Qed.

Lemma ring_empty_wf ring ring' :
  0 < q ring → ring_empty ring = Some ring' →
  wf ring' ∧ same_config ring ring' ∧ nodes ring' = ∅ ∧
  Forall (λ h, rank h = -1 ∧ node h = ""%string ∧ addr h = 0) (hashes ring').
Proof.
  intros Hq H.
  assert (q ring < 2 ^ 63) as Hlt.
  { unfold ring_empty, addresses, make_ok in H.
    destruct (decide (q ring < 2 ^ 63)); [done|by simpl in H]. }
  rewrite ring_empty_Some in H by lia. simplify_eq. repeat split; simpl; try lia.
  - rewrite length_fmap, length_seqZ. lia.
  - intros i h Hi. rewrite list_lookup_fmap in Hi.
    destruct (seqZ 0 (q ring) !! i) as [j|] eqn:E; [|done].
    apply lookup_seqZ in E as [-> ?]. simpl in Hi. by simplify_eq.
  - apply Forall_fmap, Forall_forall. by intros.
Qed.


Lemma Join_frame ring nd ring' :
  Join ring nd = Some ring' →
  same_config ring ring' ∧ nodes ring' = <[nd := true]> (nodes ring) ∧
  hash <$> hashes ring = hash <$> hashes ring'.
Proof.
  unfold Join. intros H. destruct (decide (is_Some (nodes ring !! nd))).
  - by simplify_eq.
  - destruct (Join_tokens _ _ _ _ _) as [r1|] eqn:H1; [simpl in H|done].
    destruct (repair r1) as [r2|] eqn:H2; [simpl in H|done]. simplify_eq.
    apply Join_tokens_frame in H1. apply repair_frame in H2.
    destruct (transitivity H1 H2) as (?&Hn&?). simpl. by rewrite <-Hn.
Qed.

Lemma Join_wf ring nd ring' : Join ring nd = Some ring' → wf ring → wf ring'.
Proof.
  intros H Hwf. apply Join_frame in H as (Hc&_&Hh).
  eapply (wf_frame (set_nodes (nodes ring') ring)).
  - by split; [|split].
  - by apply wf_set_nodes.
Qed.

Lemma Join_all_frame order ring ring' :
  Join_all order ring = Some ring' →
  same_config ring ring' ∧
  nodes ring' = foldl (λ ns nd, <[nd := true]> ns) (nodes ring) order ∧
  hash <$> hashes ring = hash <$> hashes ring'.
Proof.
  revert ring. induction order as [|nd order IH]; intros ring H; simpl in H.
  - by simplify_eq.
  - destruct (Join ring nd) as [r1|] eqn:H1; [simpl in H|done].
    apply Join_frame in H1 as (Hc1&Hn1&Hh1).
    apply IH in H as (Hc&Hn&Hh). simpl. rewrite <-Hn1.
    split; [by etrans|split; [done|congruence]].
Qed.

Lemma Join_all_wf order ring ring' :
  Join_all order ring = Some ring' → wf ring → wf ring'.
Proof.
  revert ring. induction order as [|nd order IH]; intros ring H Hwf; simpl in H.
  - by simplify_eq.
  - destruct (Join ring nd) as [r1|] eqn:H1; [simpl in H|done].
    eapply IH; [done|]. by eapply Join_wf.
Qed.

Lemma Leave_wf order ring nd ring' :
  Leave order ring nd = Some ring' → wf ring → wf ring'.
Proof.
  unfold Leave. intros H Hwf. destruct (decide (is_Some (nodes ring !! nd))).
  - destruct (ring_empty ring) as [r0|] eqn:H0; [simpl in H|done].
    apply ring_empty_wf in H0 as (?&_); [|by destruct Hwf; lia].
    by eapply Join_all_wf.
  - by simplify_eq.
Qed.

Lemma Leave_config order ring nd ring' :
  Leave order ring nd = Some ring' → wf ring → same_config ring ring'.
Proof.
  unfold Leave. intros H Hwf. destruct (decide (is_Some (nodes ring !! nd))).
  - destruct (ring_empty ring) as [r0|] eqn:H0; [simpl in H|done].
    apply ring_empty_wf in H0 as (_&?&_); [|by destruct Hwf; lia].
    apply Join_all_frame in H as (?&_). by etrans.
  - by simplify_eq.
Qed.

Lemma apply_wf ring o ring' : apply ring o = Some ring' → wf ring → wf ring'.
Proof.
  destruct o; simpl; intros H Hwf.
  - by eapply Join_wf.
  - by eapply Leave_wf.
  - simplify_eq. by apply wf_set_nodes.
Qed.

Lemma apply_config ring o ring' :
  apply ring o = Some ring' → wf ring → same_config ring ring'.
Proof.
  destruct o; simpl; intros H Hwf.
  - by apply Join_frame in H as (?&_).
  - by eapply Leave_config.
  - by simplify_eq.
Qed.

Lemma New_wf opts ring :
  New opts = Some ring → 0 <= q ring → wf ring ∧ nodes ring = ∅.
Proof.
  unfold New. intros H Hq.
  destruct (segment _) as [a|] eqn:Hs; [simpl in H|done].
  unfold segment in Hs. case_decide as Hq0; [done|].
  pose proof H as H'. unfold ring_empty in H'.
  destruct (addresses _) as [seq|]; [simpl in H'|done]. simplify_eq.
  simpl in Hq. apply ring_empty_wf in H as (?&?&?&?); [done|simpl; lia].
Qed.

Lemma reachable_wf P ring0 ring :
  reachable_by P ring0 ring → wf ring0 → wf ring ∧ same_config ring0 ring.
Proof.
  induction 1 as [|r o r' _ IH _ Ha]; intros Hwf; [done|].
  destruct (IH Hwf) as [Hw Hc]. split; [by eapply apply_wf|].
  etrans; [done|]. by eapply apply_config.
Qed.

(** ** Members after a sequence of joins *)

Lemma foldl_insert_true_lookup (order : list string) (ns : gmap string bool) y :
  foldl (λ ns nd, <[nd := true]> ns) ns order !! y =
  if decide (y ∈ order) then Some true else ns !! y.
Proof.
  revert ns. induction order as [|nd order IH]; intros ns; simpl.
  - destruct (decide (y ∈ [])) as [H|]; [by apply elem_of_nil in H|done].
  - rewrite IH. destruct (decide (y ∈ order)) as [Hin|Hin].
    + rewrite decide_True; [done|by right].
    + destruct (decide (y = nd)) as [->|Hne].
      * rewrite lookup_insert_eq. rewrite decide_True; [done|by left].
      * rewrite lookup_insert_ne by done. rewrite decide_False; [done|].
        by intros [?|?]%elem_of_cons.
Qed.

Lemma range_order_elem_of (ns : gmap string bool) order y :
  range_order ns order → y ∈ order ↔ is_Some (ns !! y).
Proof.
  unfold range_order. intros ->. rewrite list_elem_of_fmap. split.
  - intros ([k v]&->&Hin). apply elem_of_map_to_list in Hin. by eexists.
  - intros [v Hv]. exists (y, v). split; [done|]. by apply elem_of_map_to_list.
Qed.

Lemma Leave_nodes order ring x ring' :
  is_Some (nodes ring !! x) → range_order (delete x (nodes ring)) order →
  Leave order ring x = Some ring' →
  ∀ y, nodes ring' !! y =
       if decide (y ≠ x ∧ is_Some (nodes ring !! y)) then Some true else None.
Proof.
  intros Hx Ho H y. unfold Leave in H. rewrite decide_True in H by done.
  destruct (ring_empty ring) as [r0|] eqn:H0; [simpl in H|done].
  assert (nodes r0 = ∅) as Hn0.
  { unfold ring_empty in H0. destruct (addresses ring); simpl in H0; by simplify_eq. }
  apply Join_all_frame in H as (_&->&_). rewrite Hn0.
  rewrite foldl_insert_true_lookup, lookup_empty.
  assert (y ∈ order ↔ y ≠ x ∧ is_Some (nodes ring !! y)) as Hiff.
  { rewrite (range_order_elem_of _ _ _ Ho). rewrite lookup_delete.
    destruct (decide (x = y)) as [->|];
      [|split; [intros ?; split; [congruence|done]|by intros [_ ?]]].
    split; [by intros [? ?]|by intros [? _]]. }
  destruct (decide (y ∈ order)), (decide (y ≠ x ∧ _)); tauto.
Qed.

(** ** [Nodes] *)

Lemma Nodes_fold_lookup (hs : Hashes) (acc : gmap string Hashes) k :
  foldl (λ (acc : gmap string Hashes) h,
           <[node h := default [] (acc !! node h) ++ [h]]> acc) acc hs !! k =
  match acc !! k, filter (λ h, node h = k) hs with
  | None, [] => None
  | o, l => Some (default [] o ++ l)
  end.
Proof.
  revert acc. induction hs as [|h hs IH]; intros acc; simpl.
  - destruct (acc !! k); simpl; [by rewrite app_nil_r|done].
  - rewrite IH. rewrite filter_cons.
    destruct (decide (node h = k)) as [->|Hne].
    + rewrite lookup_insert_eq. simpl.
      destruct (acc !! k); simpl; by rewrite <-?app_assoc.
    + by rewrite lookup_insert_ne.
Qed.

Lemma Nodes_lookup ring k :
  Nodes ring !! k =
  match nodes ring !! k, filter (λ h, node h = k) (hashes ring) with
  | None, [] => None
  | _, l => Some l
  end.
Proof.
  unfold Nodes. rewrite Nodes_fold_lookup, lookup_fmap.
  by destruct (nodes ring !! k).
Qed.

(** A ring without members has shards without owner. *)
Definition unowned (ring : Ring) : Prop :=
  nodes ring = ∅ → Forall (λ h, node h = ""%string) (hashes ring).

Lemma insert_nonempty (ns : gmap string bool) k v : <[k := v]> ns ≠ ∅.
Proof. apply insert_non_empty. Qed.

Lemma apply_unowned ring o ring' :
  0 < q ring → apply ring o = Some ring' → unowned ring → unowned ring'.
Proof.
  intros Hq H Hu. destruct o as [nd|nd order|nd]; simpl in H.
  - apply Join_frame in H as (_&Hn&_). intros He. rewrite Hn in He.
    by apply insert_nonempty in He.
  - unfold Leave in H. destruct (decide (is_Some (nodes ring !! nd))); [|by simplify_eq].
    destruct (ring_empty ring) as [r0|] eqn:Hr0; [simpl in H|done].
    apply ring_empty_wf in Hr0 as (_&_&Hn0&Hall); [|done].
    destruct order as [|nd' order]; simpl in H.
    + simplify_eq. intros _. eapply Forall_impl; [done|]. by intros ? (?&?&?).
    + destruct (Join r0 nd') as [r1|] eqn:H1; [simpl in H|done].
      apply Join_frame in H1 as (_&Hn1&_).
      apply Join_all_frame in H as (_&Hn&_). intros He.
      assert (nodes ring' !! nd' = Some true) as Hl.
      { rewrite Hn, foldl_insert_true_lookup, Hn1, lookup_insert_eq.
        by case_decide. }
      by rewrite He, lookup_empty in Hl.
  - simplify_eq. intros He. simpl in He. by apply insert_nonempty in He.
Qed.

Lemma reachable_unowned ring0 ring :
  wf ring0 → unowned ring0 → reachable ring0 ring → unowned ring.
Proof.
  intros Hwf Hu. induction 1 as [|r o r' Hr IH _ Ha]; [done|].
  eapply apply_unowned; [|done|done].
  destruct (reachable_wf _ _ _ Hr Hwf) as [[] _]. lia.
Qed.

(** ** Absence of panics *)

(** Every digest has the [m/8] bytes [addressHash] reads, and at least the
    first one. *)
Definition hasher_ok (ring : Ring) : Prop :=
  ∀ x, 1 <= Z.of_nat (length (hasher ring x)) ∧
       m ring / 8 <= Z.of_nat (length (hasher ring x)).

Lemma repair_head_total (n : nat) hs :
  (n < length hs)%nat → is_Some (repair_head n (Z.of_nat n) hs).
Proof.
  induction n as [|n IH]; intros Hn; simpl; [done|].
  destruct (at_is_Some hs (Z.of_nat (S n))) as [h Hh]; [lia|].
  rewrite Hh. simpl. destruct (decide (rank h ≠ -1)).
  - unfold updateNode. destruct (at_is_Some hs 0) as [h0 ->]; [lia|]. done.
  - replace (Z.of_nat (S n) - 1) with (Z.of_nat n) by lia. apply IH. lia.
Qed.

Lemma repair_tail_total (n : nat) (i : Z) hs :
  1 <= i → i + Z.of_nat n <= Z.of_nat (length hs) →
  is_Some (repair_tail n i hs).
Proof.
  revert i hs. induction n as [|n IH]; intros i hs Hi Hn; simpl; [done|].
  destruct (at_is_Some hs i) as [h Hh]; [lia|]. rewrite Hh. simpl.
  destruct (decide (rank h = -1)).
  - destruct (at_is_Some hs (i - 1)) as [p ->]; [lia|]. simpl.
    unfold updateNode. rewrite Hh. simpl. apply IH; [lia|].
    rewrite length_insert. lia.
  - simpl. apply IH; lia.
Qed.

Lemma repair_total ring : wf ring → is_Some (repair ring).
Proof.
  intros [Hq Hl _]. unfold repair.
  destruct (at_is_Some (hashes ring) 0) as [h0 ->]; [lia|]. simpl.
  rewrite (int_of_small (q ring)) by lia.
  rewrite u64_id by (unfold uint64; lia).
  assert (∀ hs1, length hs1 = length (hashes ring) →
            is_Some (hs2 ← repair_tail (Z.to_nat (q ring - 1)) 1 hs1;
                     Some (set_hashes hs2 ring))) as Htail.
  { intros hs1 Hlen.
    destruct (repair_tail_total (Z.to_nat (q ring - 1)) 1 hs1) as [hs2 ->];
      [lia|lia|done]. }
  destruct (decide (rank h0 = -1)).
  - destruct (repair_head_total (Z.to_nat (q ring - 1)) (hashes ring))
      as [hs1 H1]; [lia|].
    rewrite Z2Nat.id in H1 by lia. rewrite H1. simpl. apply Htail.
    apply repair_head_hash in H1. apply (f_equal length) in H1.
    by rewrite !length_fmap in H1.
  - simpl. by apply Htail.
Qed.

Lemma addressHash_loop_total (n : nat) (i : Z) digest a :
  0 <= i → i + Z.of_nat n <= Z.of_nat (length digest) →
  is_Some (addressHash_loop n i digest a).
Proof.
  revert i a. induction n as [|n IH]; intros i a Hi Hn; simpl; [done|].
  destruct (at_is_Some digest i) as [b ->]; [lia|]. simpl. apply IH; lia.
Qed.

Lemma shard_of_Some ring a :
  arc ring ≠ 0 → q ring ≠ 0 →
  shard_of ring a = Some ((a / arc ring) mod q ring).
Proof.
  intros. unfold shard_of. by rewrite !decide_False.
Qed.

Lemma addressHash_total ring digest :
  0 < q ring < 2 ^ 63 → arc ring ≠ 0 →
  1 <= Z.of_nat (length digest) → m ring / 8 <= Z.of_nat (length digest) →
  ∃ shard a, addressHash ring digest = Some (shard, a) ∧ 0 <= shard < q ring.
Proof.
  intros Hq Ha H1 Hm. unfold addressHash.
  destruct (at_is_Some digest 0) as [b0 ->]; [lia|]. simpl.
  destruct (addressHash_loop_total (Z.to_nat (m ring / 8 - 1)) 1 digest
              (byteZ b0)) as [a ->]; [lia|lia|]. simpl.
  rewrite shard_of_Some by lia. simpl.
  pose proof (Z.mod_pos_bound (a / arc ring) (q ring)).
  rewrite int_of_small by lia.
  eexists _, _. split; [done|lia].
Qed.

Lemma Join_tokens_total n rk nd digest ring :
  0 < q ring < 2 ^ 63 → Z.of_nat (length (hashes ring)) = q ring →
  arc ring ≠ 0 → hasher_ok ring → is_Some (Join_tokens n rk nd digest ring).
Proof.
  revert rk digest ring.
  induction n as [|n IH]; intros rk digest ring Hq Hl Ha Hh; simpl; [done|].
  destruct (Hh (list_byte_of_string nd ++ digest)) as [H1 Hm].
  destruct (addressHash_total ring (ring_hash ring nd digest))
    as (shard&a&->&Hs); [done..|]. simpl.
  destruct (at_is_Some (hashes ring) shard) as [main Hmain]; [lia|].
  rewrite Hmain. simpl. destruct (claims main rk a).
  - unfold update. rewrite Hmain. simpl. apply IH; simpl; try done.
    by rewrite length_insert.
  - simpl. by apply IH.
Qed.

Lemma Join_total ring nd :
  wf ring → arc ring ≠ 0 → hasher_ok ring → is_Some (Join ring nd).
Proof.
  intros Hwf Ha Hh. unfold Join.
  destruct (decide (is_Some (nodes ring !! nd))); [done|].
  destruct (Join_tokens_total (Z.to_nat (int_of (t ring))) 0 nd [] ring)
    as [r1 H1]; [by destruct Hwf..|done|done|].
  rewrite H1. simpl. apply Join_tokens_frame in H1.
  destruct (repair_total r1) as [r2 ->]; [by eapply wf_frame|done].
Qed.

Lemma Join_all_total order ring :
  wf ring → arc ring ≠ 0 → hasher_ok ring → is_Some (Join_all order ring).
Proof.
  revert ring. induction order as [|nd order IH]; intros ring Hwf Ha Hh;
    simpl; [done|].
  destruct (Join_total ring nd) as [r1 H1]; [done..|]. rewrite H1. simpl.
  pose proof (Join_wf _ _ _ H1 Hwf).
  apply Join_frame in H1 as ((?&?&?&Hhs&Harc)&_&_).
  apply IH; [done|congruence|]. unfold hasher_ok. by rewrite <-Hhs, <-H0.
Qed.

Lemma Leave_total order ring nd :
  wf ring → arc ring ≠ 0 → hasher_ok ring → is_Some (Leave order ring nd).
Proof.
  intros Hwf Ha Hh. unfold Leave.
  destruct (decide (is_Some (nodes ring !! nd))); [|done].
  rewrite ring_empty_Some by (destruct Hwf; lia). simpl.
  destruct (ring_empty ring) as [r0|] eqn:H0.
  2:{ rewrite ring_empty_Some in H0 by (destruct Hwf; lia). done. }
  pose proof H0 as H0'. rewrite ring_empty_Some in H0' by (destruct Hwf; lia).
  injection H0' as <-.
  apply ring_empty_wf in H0 as (?&?&_); [|destruct Hwf; lia].
  by apply Join_all_total.
Qed.

(** ** Concrete rings used by the examples *)

(** The ring of the example program after its five joins. *)
Definition ringo_ring : Ring := default zero_Ring ringo.

Definition the_key : string := "One ring to rule them all".

(** The ring [New()] of the default options. *)
Definition fresh_ring : Ring := default zero_Ring (New []).

Lemma default_Some {A} (d : A) (x : option A) :
  is_Some x → x = Some (default d x).
Proof. by intros [y ->]. Qed.

(** An operation returns, shown by evaluating it: only a projection of the
    result is computed, never the hasher inside the ring. *)
Ltac runs := apply (proj1 (fmap_is_Some q _)); vm_compute; eexists; reflexivity.

Lemma New_default : New [] = Some fresh_ring.
Proof. apply default_Some. runs. Qed.

Lemma ringo_eq : ringo = Some ringo_ring.
Proof. apply default_Some. runs. Qed.

Lemma filter_all {A} (P : A → Prop) `{∀ x, Decision (P x)} (l : list A) :
  Forall P l → filter P l = l.
Proof.
  induction 1 as [|x l Hx _ IH]; [done|].
  by rewrite filter_cons, decide_True, IH.
Qed.

Lemma filter_none {A} (P : A → Prop) `{∀ x, Decision (P x)} (l : list A) :
  Forall (λ x, ¬ P x) l → filter P l = [].
Proof.
  induction 1 as [|x l Hx _ IH]; [done|].
  by rewrite filter_cons, decide_False, IH.
Qed.

(** C9. After [Leave(x)] completes on a ring where [x] was a member, the
    member set is the old one without [x] and every remaining member is
    active, whatever its flag was before and whatever order the rebuild
    visits the members in; and the call does complete on a well-formed ring
    whose hasher yields enough bytes. *)
Theorem Leave_reactivates_members order ring x :
  is_Some (nodes ring !! x) →
  range_order (delete x (nodes ring)) order →
  (∀ ring', Leave order ring x = Some ring' →
     ∀ y, nodes ring' !! y =
          if decide (y ≠ x ∧ is_Some (nodes ring !! y)) then Some true
          else None) ∧
  (wf ring → arc ring ≠ 0 → hasher_ok ring → is_Some (Leave order ring x)).
Proof.
  intros Hx Ho. split.
  - intros ring' H. by eapply Leave_nodes.
  - apply Leave_total.
Qed.

Lemma Leave_reactivates_members_witness :
  let ring := Handoff ringo_ring "92.106.122.149" in
  let order := ["113.181.90.103"; "102.190.90.78"; "140.93.207.103";
                "92.106.122.149"]%string in
  nodes ring !! "92.106.122.149"%string = Some false ∧
  ∃ ring', Leave order ring "18.54.73.101" = Some ring' ∧
           nodes ring' !! "92.106.122.149"%string = Some true ∧
           nodes ring' !! "18.54.73.101"%string = None.
Proof.
  intros ring order. split; [vm_compute; reflexivity|].
  assert (is_Some (nodes ring !! "18.54.73.101"%string)) as Hx
    by (vm_compute; eexists; reflexivity).
  assert (range_order (delete "18.54.73.101"%string (nodes ring)) order) as Ho
    by (unfold range_order; vm_compute; solve_Permutation).
  destruct (Leave_reactivates_members order ring "18.54.73.101" Hx Ho)
    as [Hpost _].
  assert (is_Some (Leave order ring "18.54.73.101")) as [ring' HL] by runs.
  exists ring'. split; [done|].
  pose proof (Hpost ring' HL "92.106.122.149"%string) as H1.
  pose proof (Hpost ring' HL "18.54.73.101"%string) as H2.
  clear Hpost.
  split; (etrans; [eassumption|]); vm_compute; reflexivity.
Defined.

(** C10. On a ring with no members (a ring built by [New] and brought by
    any history to an empty member set) [Nodes()] is the map with the single
    key [""] bound to the list of all [q] shard entries.  More generally the
    node of every shard entry is a key of the map, member or not. *)
Theorem Nodes_of_ring_without_members opts ring0 ring :
  New opts = Some ring0 → uint64 (q ring0) → reachable ring0 ring →
  nodes ring = ∅ →
  Nodes ring = {[ ""%string := Shards ring ]} ∧
  Z.of_nat (length (Shards ring)) = q ring ∧ 0 < q ring ∧
  ∀ (r : Ring) h, h ∈ hashes r → nodes r !! node h = None →
    Nodes r !! node h = Some (filter (λ h', node h' = node h) (hashes r)) ∧
    h ∈ filter (λ h', node h' = node h) (hashes r).
Proof.
  intros HN Hq Hr He.
  destruct (New_wf _ _ HN) as [Hwf0 Hn0]; [by destruct Hq|].
  destruct (reachable_wf _ _ _ Hr Hwf0) as [Hwf _].
  assert (unowned ring0) as Hu0.
  { intros _. unfold New in HN.
    destruct (segment _) as [a|]; [simpl in HN|done].
    unfold ring_empty in HN. destruct (addresses _) as [seq|];
      simpl in HN; [|done].
    simplify_eq. simpl. apply Forall_fmap, Forall_forall. by intros. }
  pose proof (reachable_unowned _ _ Hwf0 Hu0 Hr He) as Hall.
  destruct Hwf as [Hq' Hl _]. unfold Shards. repeat split; try done; try lia.
  - apply map_eq. intros k. rewrite Nodes_lookup, He, lookup_empty.
    destruct (decide (k = ""%string)) as [->|Hne].
    + rewrite lookup_singleton_eq, filter_all by done.
      destruct (hashes ring); [simpl in Hl; lia|done].
    + rewrite lookup_singleton_ne by done. rewrite filter_none; [done|].
      eapply Forall_impl; [done|]. simpl. intros ? ->. done.
  - rewrite Nodes_lookup. destruct (nodes r !! node h); [done|].
    assert (h ∈ filter (λ h', node h' = node h) (hashes r)) as Hin
      by (by apply list_elem_of_filter).
    destruct (filter _ _); [by apply elem_of_nil in Hin|done].
  - by apply list_elem_of_filter.
Qed.

Lemma Nodes_of_ring_without_members_witness :
  ∃ ring,
    Leave [] (Handoff fresh_ring "a") "a" = Some ring ∧
    Nodes ring = {[ ""%string := Shards ring ]} ∧
    length (Shards ring) = 8%nat.
Proof.
  assert (is_Some (Leave [] (Handoff fresh_ring "a") "a")) as [ring HL]
    by runs.
  exists ring. split; [done|].
  assert (q fresh_ring = 8) as Hq8 by (vm_compute; reflexivity).
  assert (uint64 (q fresh_ring)) as Hq by (unfold uint64; lia).
  assert (reachable fresh_ring ring) as Hr.
  { eapply (reach_step _ _ (Handoff fresh_ring "a") (OLeave "a" [])).
    - eapply (reach_step _ _ fresh_ring (OHandoff "a")); [constructor|done|done].
    - unfold permitted, range_order. vm_compute. reflexivity.
    - done. }
  assert (nodes ring = ∅) as He.
  { apply map_eq. intros y. rewrite lookup_empty.
    assert (is_Some (nodes (Handoff fresh_ring "a") !! "a"%string)) as Hx
      by (vm_compute; eexists; reflexivity).
    assert (range_order (delete "a"%string (nodes (Handoff fresh_ring "a"))) [])
      as Ho by (unfold range_order; vm_compute; reflexivity).
    rewrite (Leave_nodes _ _ _ _ Hx Ho HL). case_decide as Hy; [|done].
    destruct Hy as [Hne [v Hv]]. simpl in Hv.
    rewrite lookup_insert_ne in Hv by done. by vm_compute in Hv. }
  destruct (Nodes_of_ring_without_members [] fresh_ring ring New_default Hq Hr He)
    as (HNodes&Hlen&_).
  split; [done|].
  destruct (reachable_wf _ _ _ Hr) as [_ (_&Hq'&_)]; [|lia].
  apply (New_wf []); [apply New_default|by destruct Hq].
Defined.

(** ** Lookup *)

Lemma Lookup_in_shard ring (i a : Z) :
  wf ring → 0 < arc ring → 0 <= i < q ring →
  i * arc ring <= a < (i + 1) * arc ring →
  Lookup ring a = hashes ring !! Z.to_nat i ∧ is_Some (Lookup ring a).
Proof.
  intros [Hq Hl _] Ha Hi Hin. unfold Lookup.
  rewrite shard_of_Some by lia. simpl.
  assert (a / arc ring = i) as -> by (symmetry; apply (Z.div_unique _ _ _ (a - i * arc ring)); lia).
  rewrite Z.mod_small by lia. unfold at_. rewrite decide_True by lia.
  split; [done|]. apply lookup_lt_is_Some_2. lia.
Qed.

(** The address one past the top of shard [i], computed in [uint64], falls
    in the next shard (shard [0] after the last one) as long as there are
    no more shards than addresses in a shard. *)
Lemma Lookup_wrap ring (i : Z) :
  wf ring → 0 < arc ring → q ring <= arc ring →
  (arc ring - 1) * q ring < 2 ^ 64 → 0 <= i < q ring →
  Lookup ring (u64 ((i + 1) * arc ring)) =
    hashes ring !! Z.to_nat ((i + 1) mod q ring).
Proof.
  intros Hwf Ha Hqa Hb Hi. pose proof Hwf as [Hq Hl _].
  destruct (decide (i + 1 < q ring)) as [Hlt|Hge].
  - rewrite (Z.mod_small (i + 1)) by lia.
    rewrite u64_id by (unfold uint64; nia).
    apply Lookup_in_shard; [done|done|lia|lia].
  - assert (i + 1 = q ring) as -> by lia. rewrite Z.mod_same by lia.
    destruct (decide (q ring * arc ring < 2 ^ 64)) as [Hs|Hs].
    + rewrite u64_id by (unfold uint64; nia).
      unfold Lookup. rewrite shard_of_Some by lia. simpl.
      rewrite Z.div_mul by lia. rewrite Z.mod_same by lia. apply at_nat with (i := 0%nat).
    + assert (u64 (q ring * arc ring) = q ring * arc ring - 2 ^ 64) as ->.
      { unfold u64. symmetry. apply (Z.mod_unique _ _ 1); nia. }
      apply (Lookup_in_shard ring 0); [done|done|lia|nia].
Qed.

(** ** After and Before *)

Lemma successor_loop_spec ring n shard (k : nat) (i : Z) (seq : Hashes) :
  wf ring → q ring <= 2 ^ 62 → 0 <= shard < q ring → 0 <= n < 2 ^ 63 →
  0 <= i → i + Z.of_nat k = q ring → Z.of_nat (length seq) = i →
  (n <= 0 ∨ i < n) →
  let e := if decide (i < n <= q ring) then n else q ring in
  ∃ l, successor_loop k i ring n shard seq = Some (seq ++ l) ∧
       Z.of_nat (length l) = e - i ∧
       ∀ j : nat, Z.of_nat j < e - i →
         l !! j = hashes ring !! Z.to_nat ((shard + i + Z.of_nat j) mod q ring).
Proof.
  intros Hwf Hq62 Hs Hn. pose proof Hwf as [Hq Hl _].
  revert i seq. induction k as [|k IH]; intros i seq Hi Hk Hlen Hinv; cbv zeta.
  - exists []. simpl. rewrite app_nil_r.
    rewrite decide_False by lia. split; [done|]. split; [simpl; lia|].
    intros j Hj. lia.
  - simpl. rewrite (int_of_small (q ring)) by lia.
    rewrite iwrap_small by lia. rewrite Z.rem_mod_nonneg by lia.
    pose proof (Z.mod_pos_bound (shard + i) (q ring)) as Hm.
    destruct (at_is_Some (hashes ring) ((shard + i) mod q ring)) as [h Hh];
      [lia|].
    rewrite Hh. simpl. rewrite length_app. simpl.
    rewrite (int_of_small n) by lia.
    apply at_Some in Hh as [_ Hh].
    destruct (decide (Z.of_nat (length seq + 1) = n)) as [He|He].
    + exists [h]. rewrite decide_True by lia.
      split; [done|]. split; [simpl; lia|].
      intros j Hj. assert (j = 0%nat) as -> by lia.
      by rewrite Z.add_0_r.
    + destruct (IH (i + 1) (seq ++ [h])) as (l&Hl'&Hlen'&Hlook);
        [lia|lia|rewrite length_app; cbn [length]; lia|clear -Hinv He Hlen; lia|].
      exists (h :: l). rewrite Hl'. rewrite <-app_assoc. simpl.
      split; [done|].
      assert ((if decide (i + 1 < n <= q ring) then n else q ring) =
              (if decide (i < n <= q ring) then n else q ring)) as Ee.
      { destruct (decide (i < n <= q ring)), (decide (i + 1 < n <= q ring)); lia. }
      rewrite Ee in Hlen', Hlook.
      split; [simpl; lia|].
      intros [|j] Hj; simpl.
      * by rewrite Z.add_0_r.
      * rewrite Hlook by lia. do 3 f_equal. lia.
Qed.

Lemma predecessor_loop_spec ring n shard (k : nat) (i : Z) (seq : Hashes) :
  wf ring → q ring <= 2 ^ 62 → 0 <= shard < q ring → 0 <= n < 2 ^ 63 →
  0 <= i → i + Z.of_nat k = q ring → Z.of_nat (length seq) = i →
  (n <= 0 ∨ i < n) →
  let e := if decide (i < n <= q ring) then n else q ring in
  ∃ l, predecessor_loop k i ring n shard seq = Some (seq ++ l) ∧
       Z.of_nat (length l) = e - i ∧
       ∀ j : nat, Z.of_nat j < e - i →
         l !! j = hashes ring !! Z.to_nat ((shard - i - Z.of_nat j) mod q ring).
Proof.
  intros Hwf Hq62 Hs Hn. pose proof Hwf as [Hq Hl _].
  revert i seq. induction k as [|k IH]; intros i seq Hi Hk Hlen Hinv; cbv zeta.
  - exists []. simpl. rewrite app_nil_r.
    rewrite decide_False by lia. split; [done|]. split; [simpl; lia|].
    intros j Hj. lia.
  - simpl. rewrite (int_of_small (q ring)) by lia.
    rewrite (iwrap_small (q ring + shard)) by lia.
    rewrite iwrap_small by lia. rewrite Z.rem_mod_nonneg by lia.
    assert ((q ring + shard - i) mod q ring = (shard - i) mod q ring) as ->.
    { replace (q ring + shard - i) with (shard - i + 1 * q ring) by lia.
      apply Z.mod_add. lia. }
    pose proof (Z.mod_pos_bound (shard - i) (q ring)) as Hm.
    destruct (at_is_Some (hashes ring) ((shard - i) mod q ring)) as [h Hh];
      [lia|].
    rewrite Hh. simpl. rewrite length_app. simpl.
    rewrite (int_of_small n) by lia.
    apply at_Some in Hh as [_ Hh].
    destruct (decide (Z.of_nat (length seq + 1) = n)) as [He|He].
    + exists [h]. rewrite decide_True by lia.
      split; [done|]. split; [simpl; lia|].
      intros j Hj. assert (j = 0%nat) as -> by lia.
      by rewrite Z.sub_0_r.
    + destruct (IH (i + 1) (seq ++ [h])) as (l&Hl'&Hlen'&Hlook);
        [lia|lia|rewrite length_app; cbn [length]; lia|clear -Hinv He Hlen; lia|].
      exists (h :: l). rewrite Hl'. rewrite <-app_assoc. simpl.
      split; [done|].
      assert ((if decide (i + 1 < n <= q ring) then n else q ring) =
              (if decide (i < n <= q ring) then n else q ring)) as Ee.
      { destruct (decide (i < n <= q ring)), (decide (i + 1 < n <= q ring)); lia. }
      rewrite Ee in Hlen', Hlook.
      split; [simpl; lia|].
      intros [|j] Hj; simpl.
      * by rewrite Z.sub_0_r.
      * rewrite Hlook by lia. do 3 f_equal. lia.
Qed.

(** [After] and [Before] return the raw shard sequence from the shard of the
    address onward (resp. backward); the number of entries is [min(n, q)]
    for [n >= 1] and [q] for [n = 0]. *)
Lemma After_Before_spec ring n a :
  wf ring → 0 < arc ring → q ring <= 2 ^ 62 → 0 <= n → 0 <= a →
  let s := (a / arc ring) mod q ring in
  let cnt := if decide (n = 0) then q ring else Z.min n (q ring) in
  ∃ la lb,
    After ring n a = Some la ∧ Before ring n a = Some lb ∧
    Z.of_nat (length la) = cnt ∧ Z.of_nat (length lb) = cnt ∧
    ∀ j : nat, Z.of_nat j < cnt →
      la !! j = hashes ring !! Z.to_nat ((s + Z.of_nat j) mod q ring) ∧
      lb !! j = hashes ring !! Z.to_nat ((s - Z.of_nat j) mod q ring).
Proof.
  intros Hwf Ha Hq62 Hn Hap s cnt. pose proof Hwf as [Hq Hl _].
  unfold After, Before. rewrite shard_of_Some by lia. simpl. fold s.
  pose proof (Z.mod_pos_bound (a / arc ring) (q ring)) as Hs. fold s in Hs.
  rewrite (int_of_small s) by lia.
  set (n' := min_u64 n (q ring)).
  assert (n' = Z.min n (q ring)) as En.
  { unfold n', min_u64. case_decide; lia. }
  unfold successor, predecessor, make_ok.
  rewrite !decide_True by lia. rewrite (int_of_small (q ring)) by lia.
  destruct (successor_loop_spec ring n' s (Z.to_nat (q ring)) 0 [])
    as (la&Hla&Hlena&Hlooka); [done|done|lia|lia|lia|lia|done|lia|].
  destruct (predecessor_loop_spec ring n' s (Z.to_nat (q ring)) 0 [])
    as (lb&Hlb&Hlenb&Hlookb); [done|done|lia|lia|lia|lia|done|lia|].
  assert ((if decide (0 < n' <= q ring) then n' else q ring) = cnt) as Ee.
  { subst cnt. destruct (decide (0 < n' <= q ring)), (decide (n = 0)); lia. }
  rewrite Ee in Hlena, Hlenb, Hlooka, Hlookb.
  exists la, lb. rewrite Hla, Hlb. simpl.
  repeat split; try lia.
  - rewrite Hlooka by lia. do 3 f_equal. lia.
  - rewrite Hlookb by lia. do 3 f_equal. lia.
Qed.

(** ** Repair against its declarative rule *)

Definition with_node (h : Hash) (nd : string) : Hash :=
  {| hash := hash h; addr := addr h; rank := rank h; node := nd |}.

Fixpoint first_claimed (hs : Hashes) : option Hash :=
  match hs with
  | [] => None
  | h :: rest => if decide (rank h ≠ -1) then Some h else first_claimed rest
  end.

(** The rule in the words of the specification: the nearest claimed shard
    met when walking from shard [i] against the clock, [i-1], [i-2], ...,
    [0], then wrapping to [q-1], ..., [i+1]. *)
Definition nearest_claimed (hs : Hashes) (i : nat) : option Hash :=
  first_claimed (rev (take i hs) ++ rev (drop (S i) hs)).

(** Each unclaimed shard takes the owner of its nearest clockwise-preceding
    claimed shard; nothing else changes. *)
Definition repair_rule (hs : Hashes) : Hashes :=
  imap (λ i h,
          if decide (rank h = -1) then
            match nearest_claimed hs i with
            | Some c => with_node h (node c)
            | None => h
            end
          else h) hs.

Lemma elem_of_rev_iff {A} (x : A) (l : list A) : x ∈ rev l ↔ x ∈ l.
Proof. rewrite !list_elem_of_In. symmetry. apply in_rev. Qed.

Lemma elem_of_take_drop {A} (x : A) (n : nat) (l : list A) :
  x ∈ take n l ∨ x ∈ drop n l → x ∈ l.
Proof. intros H. rewrite <-(take_drop n l). by apply elem_of_app. Qed.

Lemma first_claimed_app l1 l2 :
  first_claimed (l1 ++ l2) =
  match first_claimed l1 with Some c => Some c | None => first_claimed l2 end.
Proof.
  induction l1 as [|h l1 IH]; simpl; [done|]. by destruct (decide (rank h ≠ -1)).
Qed.

Lemma first_claimed_None l :
  first_claimed l = None ↔ Forall (λ h, rank h = -1) l.
Proof.
  induction l as [|h l IH]; simpl; [done|].
  destruct (decide (rank h ≠ -1)) as [Hc|Hc].
  - split; [done|]. intros Hall. by apply Forall_cons in Hall as [? _].
  - rewrite IH. split; [intros ?; constructor; [lia|done]|].
    intros Hall. by apply Forall_cons in Hall as [_ ?].
Qed.

Lemma first_claimed_Some l c :
  first_claimed l = Some c → c ∈ l ∧ rank c ≠ -1.
Proof.
  induction l as [|h l IH]; simpl; [done|].
  destruct (decide (rank h ≠ -1)).
  - intros [= ->]. split; [by left|done].
  - intros [? ?]%IH. split; [by right|done].
Qed.

Lemma repair_rule_length hs : length (repair_rule hs) = length hs.
Proof. unfold repair_rule. by rewrite length_imap. Qed.

Lemma repair_rule_lookup hs (i : nat) h :
  hs !! i = Some h →
  repair_rule hs !! i =
    Some (if decide (rank h = -1) then
            match nearest_claimed hs i with
            | Some c => with_node h (node c)
            | None => h
            end
          else h).
Proof. intros Hi. unfold repair_rule. by rewrite list_lookup_imap, Hi. Qed.

Lemma repair_head_spec (n : nat) hs :
  (n < length hs)%nat →
  repair_head n (Z.of_nat n) hs =
  match first_claimed (rev (take n (drop 1 hs))) with
  | Some c => updateNode hs 0 c
  | None => Some hs
  end.
Proof.
  induction n as [|n IH]; intros Hn; [done|].
  cbn [repair_head]. rewrite at_nat.
  destruct (lookup_lt_is_Some_2 hs (S n)) as [h Hh]; [lia|].
  rewrite Hh. simpl mbind.
  rewrite (take_S_r _ _ h) by (by rewrite lookup_drop).
  rewrite rev_app_distr. simpl rev. simpl app. cbn [first_claimed].
  destruct (decide (rank h ≠ -1)); [done|].
  replace (Z.of_nat (S n) - 1) with (Z.of_nat n) by lia. apply IH. lia.
Qed.

(** The first step of [repair] puts shard 0 in its final state. *)
Lemma repair_head_rule ring h0 :
  0 < q ring < 2 ^ 63 → Z.of_nat (length (hashes ring)) = q ring →
  hashes ring !! 0%nat = Some h0 →
  (if decide (rank h0 = -1)
   then repair_head (Z.to_nat (u64 (q ring - 1))) (u64 (q ring - 1))
          (hashes ring)
   else Some (hashes ring)) =
  Some (take 1 (repair_rule (hashes ring)) ++ drop 1 (hashes ring)).
Proof.
  intros Hq Hl H0.
  assert (take 1 (repair_rule (hashes ring)) =
          [if decide (rank h0 = -1) then
             match first_claimed (rev (drop 1 (hashes ring))) with
             | Some c => with_node h0 (node c)
             | None => h0
             end
           else h0]) as ->.
  { pose proof (repair_rule_lookup _ _ _ H0) as HR.
    destruct (repair_rule (hashes ring)) as [|r R]; [done|].
    simpl in HR. injection HR as ->. reflexivity. }
  assert (hashes ring = h0 :: drop 1 (hashes ring)) as Ehs.
  { destruct (hashes ring); [done|]. simpl in H0. by simplify_eq. }
  destruct (decide (rank h0 = -1)); [|f_equal; exact Ehs].
  rewrite u64_id by (unfold uint64; lia).
  pose proof (repair_head_spec (Z.to_nat (q ring - 1)) (hashes ring)) as Hs.
  rewrite Z2Nat.id in Hs by lia. rewrite Hs by lia. clear Hs.
  rewrite take_ge by (rewrite length_drop; lia).
  destruct (first_claimed _) as [c|]; [|f_equal; exact Ehs].
  unfold updateNode. rewrite (at_nat _ 0%nat), H0. simpl mbind.
  f_equal. rewrite Ehs at 1. reflexivity.
Qed.

Lemma first_claimed_snoc_unclaimed l h :
  rank h = -1 → first_claimed (l ++ [h]) = first_claimed l.
Proof.
  intros Hh. rewrite first_claimed_app. simpl.
  rewrite decide_False by lia. by destruct (first_claimed l).
Qed.

(** An unclaimed shard after the first one has, under the rule, the owner
    that the rule gives its predecessor. *)
Lemma repair_rule_step hs (i : nat) h r :
  Exists (λ h, rank h ≠ -1) hs →
  hs !! S i = Some h → rank h = -1 → repair_rule hs !! i = Some r →
  repair_rule hs !! S i = Some (with_node h (node r)).
Proof.
  intros Hex Hh Hu Hr.
  destruct (lookup_lt_is_Some_2 hs i) as [p Hp]; [apply lookup_lt_Some in Hh; lia|].
  rewrite (repair_rule_lookup _ _ _ Hp) in Hr. injection Hr as <-.
  rewrite (repair_rule_lookup _ _ _ Hh). rewrite decide_True by done.
  unfold nearest_claimed.
  rewrite (take_S_r _ _ p) by done. rewrite rev_app_distr. simpl rev. simpl app.
  cbn [first_claimed].
  destruct (decide (rank p ≠ -1)) as [Hpc|Hpu].
  { rewrite decide_False by done. done. }
  rewrite decide_True by lia.
  rewrite (drop_S _ h (S i)) by done. simpl rev.
  rewrite app_assoc, first_claimed_snoc_unclaimed by done.
  destruct (first_claimed _) as [c|] eqn:Hc; [done|].
  exfalso. apply first_claimed_None in Hc.
  apply Forall_app in Hc as [Hc1 Hc2].
  apply Forall_rev in Hc1, Hc2.
  apply Exists_exists in Hex as (x&Hx&Hxc).
  rewrite !rev_involutive in *.
  rewrite <-(take_drop i hs) in Hx. apply elem_of_app in Hx as [Hx|Hx].
  { rewrite Forall_forall in Hc1. by apply Hc1 in Hx. }
  rewrite (drop_S _ p i) in Hx by done.
  apply elem_of_cons in Hx as [->|Hx]; [lia|].
  rewrite (drop_S _ h (S i)) in Hx by done.
  apply elem_of_cons in Hx as [->|Hx]; [lia|].
  rewrite Forall_forall in Hc2. by apply Hc2 in Hx.
Qed.

Lemma repair_tail_rule (n i : nat) hs :
  Exists (λ h, rank h ≠ -1) hs →
  (1 <= i)%nat → (i + n = length hs)%nat →
  repair_tail n (Z.of_nat i) (take i (repair_rule hs) ++ drop i hs) =
  Some (repair_rule hs).
Proof.
  intros Hex. revert i. induction n as [|n IH]; intros i Hi Hn.
  - simpl. rewrite drop_ge by lia. rewrite take_ge by (rewrite repair_rule_length; lia).
    by rewrite app_nil_r.
  - cbn [repair_tail]. set (R := repair_rule hs).
    assert (length R = length hs) as HlenR by apply repair_rule_length.
    assert (length (take i R) = i) as Hlt by (rewrite length_take; lia).
    destruct (lookup_lt_is_Some_2 hs i) as [h Hh]; [lia|].
    destruct (lookup_lt_is_Some_2 R (i - 1)) as [r Hr]; [lia|].
    rewrite at_nat. rewrite lookup_app_r by lia. rewrite Hlt, lookup_drop.
    replace (i + (i - i))%nat with i by lia. rewrite Hh. simpl mbind.
    assert (∀ x, R !! i = Some x →
              <[i := x]> (take i R ++ drop i hs) =
              take (S i) R ++ drop (S i) hs) as Hins.
    { intros x Hx. rewrite (take_S_r _ _ x) by done.
      rewrite (drop_S _ h i) by done.
      rewrite insert_app_r_alt by lia. rewrite Hlt.
      replace (i - i)%nat with 0%nat by lia. simpl.
      by rewrite <-app_assoc. }
    replace (Z.of_nat i + 1) with (Z.of_nat (S i)) by lia.
    destruct (decide (rank h = -1)) as [Hu|Hc].
    + replace (Z.of_nat i - 1) with (Z.of_nat (i - 1)) by lia.
      rewrite at_nat. rewrite lookup_app_l by lia.
      rewrite lookup_take_lt by lia. rewrite Hr. simpl mbind.
      unfold updateNode. rewrite at_nat.
      rewrite lookup_app_r by lia. rewrite Hlt, lookup_drop.
      replace (i + (i - i))%nat with i by lia. rewrite Hh. simpl mbind.
      rewrite Nat2Z.id.
      assert (R !! i = Some (with_node h (node r))) as HRi.
      { destruct i as [|i]; [lia|]. apply repair_rule_step; try done.
        by replace (S i - 1)%nat with i in Hr by lia. }
      fold (with_node h (node r)). rewrite (Hins _ HRi). apply IH; lia.
    + simpl mbind.
      assert (R !! i = Some h) as HRi.
      { unfold R. rewrite (repair_rule_lookup _ _ _ Hh).
        by rewrite decide_False. }
      rewrite <-(list_insert_id (take i R ++ drop i hs) i h).
      2:{ rewrite lookup_app_r by lia. rewrite Hlt, lookup_drop.
          by replace (i + (i - i))%nat with i by lia. }
      rewrite (Hins _ HRi). apply IH; lia.
Qed.

(** [repair] against the declarative rule, entry by entry. *)
Lemma repair_rule_correct ring :
  0 < q ring < 2 ^ 63 → Z.of_nat (length (hashes ring)) = q ring →
  Exists (λ h, rank h ≠ -1) (hashes ring) →
  ∃ ring',
    repair ring = Some ring' ∧
    hashes ring' = repair_rule (hashes ring) ∧
    same_config ring ring' ∧ nodes ring' = nodes ring ∧
    ∀ (i : nat) h, hashes ring !! i = Some h →
      ∃ h', hashes ring' !! i = Some h' ∧
            hash h' = hash h ∧ addr h' = addr h ∧ rank h' = rank h ∧
            (rank h ≠ -1 → node h' = node h) ∧
            (rank h = -1 →
             ∃ c, nearest_claimed (hashes ring) i = Some c ∧
                  rank c ≠ -1 ∧ c ∈ hashes ring ∧ node h' = node c).
Proof.
  intros Hq Hl Hex.
  destruct (lookup_lt_is_Some_2 (hashes ring) 0) as [h0 H0]; [lia|].
  exists (set_hashes (repair_rule (hashes ring)) ring).
  split; [|split; [done|split; [done|split; [done|]]]].
  - unfold repair. rewrite (at_nat _ 0%nat), H0. simpl mbind.
    rewrite (repair_head_rule ring h0) by done. simpl mbind.
    rewrite (int_of_small (q ring)) by lia.
    pose proof (repair_tail_rule (Z.to_nat (q ring - 1)) 1 (hashes ring) Hex)
      as Ht.
    change (Z.of_nat 1) with 1 in Ht. rewrite Ht by lia. done.
  - intros i h Hi. simpl. rewrite (repair_rule_lookup _ _ _ Hi).
    eexists. split; [done|].
    destruct (decide (rank h = -1)) as [Hu|Hc].
    + destruct (nearest_claimed (hashes ring) i) as [c|] eqn:Hn.
      * simpl. repeat split; try done.
        intros _. exists c. apply first_claimed_Some in Hn as [Hin Hc].
        repeat split; try done.
        apply elem_of_app in Hin as [Hin|Hin]; rewrite elem_of_rev_iff in Hin.
        -- apply (elem_of_take_drop _ i). by left.
        -- apply (elem_of_take_drop _ (S i)). by right.
      * exfalso. apply first_claimed_None in Hn.
        apply Forall_app in Hn as [Hc1 Hc2]. apply Forall_rev in Hc1, Hc2.
        rewrite !rev_involutive in *.
        apply Exists_exists in Hex as (x&Hx&Hxc).
        rewrite <-(take_drop i (hashes ring)) in Hx.
        apply elem_of_app in Hx as [Hx|Hx].
        { rewrite Forall_forall in Hc1. by apply Hc1 in Hx. }
        rewrite (drop_S _ h i) in Hx by done.
        apply elem_of_cons in Hx as [->|Hx]; [lia|].
        rewrite Forall_forall in Hc2. by apply Hc2 in Hx.
    + repeat split; try done.
Qed.

(** C5. Provided at least one shard is token-claimed, the two steps of
    [repair] compute the declarative rule: a shard with [rank = -1] receives
    the node of its nearest clockwise-preceding claimed shard (wrapping past
    index 0), a claimed shard is left as it is, and only the [node] field of
    any shard changes, so that [rank = -1] stays as a marker. *)
Theorem repair_refines_rule ring :
  0 < q ring < 2 ^ 63 → Z.of_nat (length (hashes ring)) = q ring →
  Exists (λ h, rank h ≠ -1) (hashes ring) →
  ∃ ring',
    repair ring = Some ring' ∧
    hashes ring' = repair_rule (hashes ring) ∧
    same_config ring ring' ∧ nodes ring' = nodes ring ∧
    ∀ (i : nat) h, hashes ring !! i = Some h →
      ∃ h', hashes ring' !! i = Some h' ∧
            hash h' = hash h ∧ addr h' = addr h ∧ rank h' = rank h ∧
            (rank h ≠ -1 → node h' = node h) ∧
            (rank h = -1 →
             ∃ c, nearest_claimed (hashes ring) i = Some c ∧
                  rank c ≠ -1 ∧ c ∈ hashes ring ∧ node h' = node c).
Proof.
  intros Hq Hl Hex.
  destruct (lookup_lt_is_Some_2 (hashes ring) 0) as [h0 H0]; [lia|].
  exists (set_hashes (repair_rule (hashes ring)) ring).
  split; [|split; [done|split; [done|split; [done|]]]].
  - unfold repair. rewrite (at_nat _ 0%nat), H0. simpl mbind.
    rewrite (repair_head_rule ring h0) by done. simpl mbind.
    rewrite (int_of_small (q ring)) by lia.
    pose proof (repair_tail_rule (Z.to_nat (q ring - 1)) 1 (hashes ring) Hex)
      as Ht.
    change (Z.of_nat 1) with 1 in Ht. rewrite Ht by lia. done.
  - intros i h Hi. simpl. rewrite (repair_rule_lookup _ _ _ Hi).
    eexists. split; [done|].
    destruct (decide (rank h = -1)) as [Hu|Hc].
    + destruct (nearest_claimed (hashes ring) i) as [c|] eqn:Hn.
      * simpl. repeat split; try done.
        intros _. exists c. apply first_claimed_Some in Hn as [Hin Hc].
        repeat split; try done.
        apply elem_of_app in Hin as [Hin|Hin]; rewrite elem_of_rev_iff in Hin.
        -- apply (elem_of_take_drop _ i). by left.
        -- apply (elem_of_take_drop _ (S i)). by right.
      * exfalso. apply first_claimed_None in Hn.
        apply Forall_app in Hn as [Hc1 Hc2]. apply Forall_rev in Hc1, Hc2.
        rewrite !rev_involutive in *.
        apply Exists_exists in Hex as (x&Hx&Hxc).
        rewrite <-(take_drop i (hashes ring)) in Hx.
        apply elem_of_app in Hx as [Hx|Hx].
        { rewrite Forall_forall in Hc1. by apply Hc1 in Hx. }
        rewrite (drop_S _ h i) in Hx by done.
        apply elem_of_cons in Hx as [->|Hx]; [lia|].
        rewrite Forall_forall in Hc2. by apply Hc2 in Hx.
    + repeat split; try done.
Qed.

(** A ring of four shards of which the second and the last are claimed. *)
Definition patchy_ring : Ring :=
  {| m := 8; q := 4; t := 1; hasher := λ _, []; arc := 64;
     hashes := [ {| hash := 63; addr := 0; rank := -1; node := "" |};
                 {| hash := 127; addr := 70; rank := 0; node := "a" |};
                 {| hash := 191; addr := 0; rank := -1; node := "" |};
                 {| hash := 255; addr := 200; rank := 1; node := "b" |} ];
     nodes := ∅ |}.

Lemma repair_refines_rule_witness :
  ∃ ring', repair patchy_ring = Some ring' ∧
           node <$> hashes ring' = ["b"; "a"; "a"; "b"]%string ∧
           rank <$> hashes ring' = [-1; 0; -1; 1].
Proof.
  destruct (repair_refines_rule patchy_ring) as (ring'&Hr&Hh&_).
  - simpl. lia.
  - reflexivity.
  - apply Exists_cons_tl, Exists_cons_hd. simpl. lia.
  - exists ring'. split; [done|]. rewrite Hh. split; reflexivity.
Defined.

(** ** The single-shard ring and the empty request *)

(** [New(WithQ(1))]: one shard over the default 64-bit address space. *)
Definition single_shard_ring : Ring := default zero_Ring (New [WithQ 1]).

Lemma New_single_shard : New [WithQ 1] = Some single_shard_ring.
Proof. apply default_Some. runs. Qed.

(** C7. On the ring [New(WithQ(1))] the shard width overflows:
    [highest()/q + 1] is [2^64], which [uint64] wraps to [arc = 0].  The ring
    is built, its one shard is in [Shards()], and [Lookup] then divides by
    zero at every address, where it should return that shard. *)
Theorem Lookup_single_shard_panics :
  New [WithQ 1] = Some single_shard_ring ∧
  m single_shard_ring = 64 ∧ q single_shard_ring = 1 ∧
  highest single_shard_ring = 2 ^ 64 - 1 ∧ arc single_shard_ring = 0 ∧
  length (Shards single_shard_ring) = 1%nat ∧
  ∀ a, Lookup single_shard_ring a = None.
Proof.
  split; [apply New_single_shard|].
  assert (arc single_shard_ring = 0) as Ha by (vm_compute; reflexivity).
  do 5 (split; [vm_compute; reflexivity|]).
  intros a. unfold Lookup, shard_of. rewrite decide_True; done.
Qed.

(** C8. With [n = 0] the loops of [successor] and [predecessor] never meet
    their exit test: [After(0, addr)] and [Before(0, addr)] return all [q]
    shard entries of the default ring, not [min(0, q) = 0] of them. *)
Theorem After_Before_zero_return_every_shard :
  q fresh_ring = 8 ∧ min_u64 0 (q fresh_ring) = 0 ∧
  length <$> After fresh_ring 0 0 = Some 8%nat ∧
  length <$> Before fresh_ring 0 0 = Some 8%nat ∧
  After fresh_ring 0 0 = Some (Shards fresh_ring) ∧
  length <$> After fresh_ring 3 0 = Some 3%nat.
Proof. repeat split; vm_compute; reflexivity. Qed.

(** ** SuccessorOf *)

(** An emitted entry: the coordinator's canonical address with the address,
    rank and node of a shard entry of the ring. *)
Definition taken_from (ring : Ring) (coord : Hash) (e : Hash) : Prop :=
  hash e = hash coord ∧
  ∃ s, s ∈ hashes ring ∧ addr e = addr s ∧ rank e = rank s ∧ node e = node s.

Lemma contains_false hs nd : contains hs nd = false ↔ nd ∉ node <$> hs.
Proof.
  induction hs as [|h hs IH]; simpl.
  - split; [intros _ H; by apply elem_of_nil in H|done].
  - destruct (decide (node h = nd)) as [<-|Hne].
    + split; [done|]. intros H. exfalso. apply H. by left.
    + rewrite IH. split.
      * intros H [?|?]%elem_of_cons; [congruence|done].
      * intros H ?. apply H. by right.
Qed.


Lemma distinctNodes_loop_last k i ring n s last head last' head' :
  0 < q ring < 2 ^ 63 → 0 <= last < q ring →
  distinctNodes_loop k i ring n s last head = Some (last', head') →
  0 <= last' < q ring.
Proof.
  intros Hq. revert i last head.
  induction k as [|k IH]; intros i last head Hl H;
    simpl in H; [by simplify_eq|].
  destruct (at_ (hashes ring) _) as [h|] eqn:Hh; [simpl in H|done].
  apply at_Some in Hh as [Hge _].
  rewrite (int_of_small (q ring)) in * by lia.
  pose proof (Z.rem_bound_pos_pos (iwrap (s + i)) (q ring)) as Hb.
  assert (0 <= Z.rem (iwrap (s + i)) (q ring) < q ring) as Hlast.
  { split; [done|]. destruct Hq as [Hq0 _].
    destruct (decide (0 <= iwrap (s + i))) as [Hpos|Hneg];
      [by apply Hb|].
    assert (iwrap (s + i) <= 0) as Hle by (clear -Hneg; lia).
    pose proof (Z.rem_bound_pos_neg (iwrap (s + i)) (q ring) Hq0 Hle) as Hn.
    clear -Hn Hq0 Hge. lia. }
  destruct (decide (_ = _)); [by simplify_eq|]. by eapply IH.
Qed.


(** What the loop of [SuccessorOf] guarantees of the handoff list. *)
Definition handoff_ok (ring : Ring) (coord : Hash) (primary handoff : Hashes)
  : Prop :=
  Forall (λ e, taken_from ring coord e ∧
               nodes ring !! node e = Some true ∧
               node e ∉ node <$> primary) handoff ∧
  NoDup (node <$> handoff).

Lemma active_true ring nd : active ring nd = true ↔ nodes ring !! nd = Some true.
Proof.
  unfold active. destruct (nodes ring !! nd) as [[]|]; simpl; split; congruence.
Qed.

Lemma handoff_loop_ok k i ring coord last primary hn handoff handoff' :
  handoff_loop k i ring coord last primary hn handoff = Some handoff' →
  handoff_ok ring coord primary handoff →
  handoff_ok ring coord primary handoff'.
Proof.
  revert i handoff. induction k as [|k IH]; intros i handoff H Hok;
    simpl in H; [by simplify_eq|].
  destruct (at_ (hashes ring) _) as [h|] eqn:Hh; [simpl in H|done].
  apply at_Some in Hh as [_ Hh]. apply list_elem_of_lookup_2 in Hh.
  set (e := {| hash := hash coord; addr := addr h; rank := rank h;
               node := node h |}) in *.
  assert (handoff_ok ring coord primary
            (if active ring (node h) && negb (contains handoff (node h))
                && negb (contains primary (node h))
             then handoff ++ [e] else handoff)) as Hok'.
  { destruct (active ring (node h)) eqn:Ha; [|done].
    destruct (contains handoff (node h)) eqn:Hc1; [done|].
    destruct (contains primary (node h)) eqn:Hc2; [done|]. simpl.
    apply active_true in Ha. apply contains_false in Hc1, Hc2.
    destruct Hok as [Hall Hnd]. split.
    - apply Forall_app. split; [done|]. constructor; [|done].
      repeat split; try done. by exists h.
    - rewrite fmap_app. apply NoDup_app. split; [done|]. split.
      + intros x Hx [->|Hnil]%elem_of_cons; [done|by apply elem_of_nil in Hnil].
      + apply NoDup_singleton. }
  destruct (decide (_ = _)); [by simplify_eq|]. by eapply IH.
Qed.

Lemma handoff_loop_length k i ring coord last primary hn handoff handoff' :
  handoff_loop k i ring coord last primary hn handoff = Some handoff' →
  0 < hn → Z.of_nat (length handoff) < hn →
  Z.of_nat (length handoff') <= hn.
Proof.
  intros H Hhn. revert i handoff H. induction k as [|k IH]; intros i handoff H Hlen;
    simpl in H; [simplify_eq; lia|].
  destruct (at_ (hashes ring) _) as [h|] eqn:Hh; [simpl in H|done].
  destruct (decide (_ = _)) as [He|He]; [simplify_eq; lia|].
  eapply IH; [done|].
  destruct (_ && _ && _); [|lia].
  rewrite length_app in *. cbn [length] in *. lia.
Qed.





(** The parts of a call of [SuccessorOf] that returns. *)
Lemma SuccessorOf_inv ring n key primary handoff :
  SuccessorOf ring n key = Some (primary, handoff) →
  ∃ shard a coord last head,
    address ring key = Some (shard, a) ∧
    at_ (hashes ring) shard = Some coord ∧
    distinctNodes_loop (Z.to_nat (int_of (q ring))) 0 ring n shard 0 [] =
      Some (last, head) ∧
    make_ok n ∧
    primary = primaryNodes_loop ring coord head [] ∧
    (Z.of_nat (length primary) = int_of n ∧ handoff = [] ∨
     Z.of_nat (length primary) ≠ int_of n ∧
     handoff_loop (Z.to_nat (int_of (q ring) - 1)) 1 ring coord last primary
       (iwrap (int_of n - Z.of_nat (length primary))) [] = Some handoff).
Proof.
  unfold SuccessorOf. intros H.
  destruct (address ring key) as [[shard a]|]; [simpl in H|done].
  destruct (at_ (hashes ring) shard) as [coord|] eqn:Hc; [simpl in H|done].
  unfold distinctNodes, primaryNodes in H.
  destruct (decide (make_ok n)) as [Hn|]; [|done].
  destruct (distinctNodes_loop _ _ _ _ _ _ _) as [[last head]|] eqn:Hd;
    [simpl in H|done].
  exists shard, a, coord, last, head.
  destruct (decide (_ = _)) as [He|He].
  - simplify_eq. repeat split; try done. by left.
  - destruct (handoff_loop _ _ _ _ _ _ _ _) as [ho|] eqn:Hho;
      [simpl in H|done].
    simplify_eq. repeat split; try done. by right.
Qed.



(** ** The handoff list *)

(** The handoff walk in the words of the specification: a shard entry is
    eligible when its node is a current member, active or not (and is
    neither in the handoff list nor in the primary list).  It differs from
    [handoff_loop] in the membership test only. *)
Fixpoint handoff_loop_as_specified (k : nat) (i : Z) (ring : Ring)
    (coord : Hash) (last : Z) (primary : Hashes) (hn : Z) (handoff : Hashes)
  : option Hashes :=
  match k with
  | O => Some handoff
  | S k' =>
      h ← at_ (hashes ring) (Z.rem (iwrap (last + i)) (int_of (q ring)));
      let handoff' :=
        if bool_decide (is_Some (nodes ring !! node h))
           && negb (contains handoff (node h))
           && negb (contains primary (node h))
        then handoff ++ [{| hash := hash coord; addr := addr h;
                            rank := rank h; node := node h |}]
        else handoff in
      if decide (Z.of_nat (length handoff') = hn) then Some handoff'
      else handoff_loop_as_specified k' (i + 1) ring coord last primary hn
             handoff'
  end.

(** The ring of the example program after [Handoff("18.54.73.101")]. *)
Definition ringo_handoff : Ring := Handoff ringo_ring "18.54.73.101".

Definition no_Hash : Hash := {| hash := 0; addr := 0; rank := 0; node := "" |}.

(** C2, as stated, fails on the example program: after
    [Handoff("18.54.73.101")] the key of the example has two primary
    replicas out of three, the walk from shard [last + 1 = 2] meets the
    inactive member [18.54.73.101] at shard 3, which the stated rule would
    take, and [SuccessorOf] returns [102.190.90.78] (shard 5) instead. *)
Lemma handoff_skips_inactive_member :
  ∃ coord head primary handoff specified,
    address ringo_handoff the_key = Some (7, 17448918276746506400) ∧
    hashes ringo_handoff !! 7%nat = Some coord ∧
    distinctNodes ringo_handoff 3 7 = Some (1, head) ∧
    primaryNodes ringo_handoff 3 coord head = Some primary ∧
    SuccessorOf ringo_handoff 3 the_key = Some (primary, handoff) ∧
    handoff_loop_as_specified 7 1 ringo_handoff coord 1 primary 1 [] =
      Some specified ∧
    node <$> primary = ["140.93.207.103"; "113.181.90.103"]%string ∧
    node <$> handoff = ["102.190.90.78"]%string ∧
    node <$> specified = ["18.54.73.101"]%string ∧
    nodes ringo_handoff !! "18.54.73.101"%string = Some false.
Proof.
  set (coord := default no_Hash (hashes ringo_handoff !! 7%nat)).
  set (head := default [] (snd <$> distinctNodes ringo_handoff 3 7)).
  set (primary := default [] (primaryNodes ringo_handoff 3 coord head)).
  exists coord, head, primary,
    (default [] (snd <$> SuccessorOf ringo_handoff 3 the_key)),
    (default [] (handoff_loop_as_specified 7 1 ringo_handoff coord 1
                   primary 1 [])).
  do 9 (split; [vm_compute; reflexivity|]). vm_compute. reflexivity.
Qed.

(** C2, amended. When [SuccessorOf] returns, every entry of the handoff
    list is taken from a shard entry whose node is an active member (its
    flag is [true]: a member in handoff mode is never put in the handoff
    list), is not in the primary list and occurs once; and when fewer than
    [n] primary replicas were found the handoff list has at most
    [n - |primary|] entries. *)
Theorem handoff_entries_are_active ring n key primary handoff :
  SuccessorOf ring n key = Some (primary, handoff) →
  Forall (λ e, nodes ring !! node e = Some true ∧
               (node e ∉ node <$> primary) ∧
               ∃ s, s ∈ hashes ring ∧ node e = node s ∧ addr e = addr s ∧
                    rank e = rank s) handoff ∧
  NoDup (node <$> handoff) ∧
  (∀ e, e ∈ handoff → nodes ring !! node e ≠ Some false) ∧
  (0 <= n → Z.of_nat (length primary) < n →
   Z.of_nat (length handoff) <= n - Z.of_nat (length primary)).
Proof.
  intros H.
  apply SuccessorOf_inv in H
    as (shard&a&coord&last&head&Ha&Hc&Hd&Hn&Hp&Hho).
  assert (handoff_ok ring coord primary handoff) as [Hall Hnd].
  { destruct Hho as [[_ ->]|[_ Hho]].
    - split; [done|constructor].
    - eapply handoff_loop_ok; [done|]. split; [done|constructor]. }
  assert (Forall (λ e, nodes ring !! node e = Some true ∧
               (node e ∉ node <$> primary) ∧
               ∃ s, s ∈ hashes ring ∧ node e = node s ∧ addr e = addr s ∧
                    rank e = rank s) handoff) as Hall'.
  { eapply Forall_impl; [done|]. intros e ((_&s&?&?&?&?)&?&?).
    repeat split; try done. by exists s. }
  split; [done|]. split; [done|]. split.
  - intros e He. rewrite Forall_forall in Hall'.
    destruct (Hall' e He) as [-> _]. done.
  - intros Hn0 Hlt. unfold make_ok in Hn.
    destruct Hho as [[_ ->]|[_ Hho]]; [simpl; lia|].
    rewrite (int_of_small n) in Hho by done.
    rewrite iwrap_small in Hho by lia.
    eapply handoff_loop_length in Hho; [done|lia|simpl; lia].
Qed.

Lemma handoff_entries_are_active_witness :
  ∃ primary handoff,
    SuccessorOf ringo_handoff 3 the_key = Some (primary, handoff) ∧
    node <$> handoff = ["102.190.90.78"]%string ∧
    Forall (λ e, nodes ringo_handoff !! node e = Some true) handoff.
Proof.
  assert (is_Some (SuccessorOf ringo_handoff 3 the_key))
    as [[primary handoff] HS] by (vm_compute; eexists; reflexivity).
  exists primary, handoff. split; [done|].
  destruct (handoff_entries_are_active ringo_handoff 3 the_key primary
              handoff HS) as (Hall&_).
  split.
  - assert (snd <$> SuccessorOf ringo_handoff 3 the_key =
            Some [ {| hash := 18446744073709551615;
                      addr := 11682749574816173237; rank := 0;
                      node := "102.190.90.78" |} ]) as Hv
      by (vm_compute; reflexivity).
    rewrite HS in Hv. simpl in Hv. by injection Hv as ->.
  - eapply Forall_impl; [exact Hall|]. by intros e [? _].
Defined.

(** ** Ownership of the shards *)

Definition claimed (h : Hash) : Prop := rank h ≠ -1.

Lemma Exists_claimed_insert (hs : Hashes) (i : nat) (x : Hash) :
  claimed x → Exists claimed hs → Exists claimed (<[i := x]> hs).
Proof.
  intros Hx Hex. apply Exists_exists in Hex as (c&Hc&Hcc).
  apply list_elem_of_lookup in Hc as [j Hj].
  apply Exists_exists. destruct (decide (i = j)) as [->|Hne].
  - exists x. split; [|done]. apply list_elem_of_lookup. exists j.
    apply list_lookup_insert_eq. by eapply lookup_lt_Some.
  - exists c. split; [|done]. apply list_elem_of_lookup. exists j.
    by rewrite list_lookup_insert_ne.
Qed.

(** The tokens of a join leave claimed what was claimed, and give every
    shard they claim to the joining node. *)
Lemma Join_tokens_claimed n rk nd d ring ring' (P : string → Prop) :
  0 <= rk → Join_tokens n rk nd d ring = Some ring' → P nd →
  Forall (λ h, claimed h → P (node h)) (hashes ring) →
  Forall (λ h, claimed h → P (node h)) (hashes ring') ∧
  (Exists claimed (hashes ring) → Exists claimed (hashes ring')).
Proof.
  intros Hrk H Hnd. revert rk d ring Hrk H.
  induction n as [|n IH]; intros rk d ring Hrk H Hall; simpl in H.
  - by simplify_eq.
  - destruct (addressHash ring _) as [[shard a]|]; [simpl in H|done].
    destruct (at_ (hashes ring) shard) as [main|] eqn:Hm; [simpl in H|done].
    destruct (claims main rk a).
    + unfold update in H. rewrite Hm in H. simpl in H.
      apply IH in H as [H1 H2]; [|lia|].
      * split; [done|]. intros Hex. apply H2. simpl.
        apply Exists_claimed_insert; [|done]. unfold claimed. simpl. lia.
      * simpl. apply Forall_insert; [done|]. by intros _.
    + simpl in H. by apply IH in H; [|lia|].
Qed.

(** After the first token of a join, the shard it fell in is claimed: by
    the token, or by the rank-0 token that kept it. *)
Lemma Join_tokens_Exists_claimed n nd ring ring' :
  Join_tokens (S n) 0 nd [] ring = Some ring' →
  Exists claimed (hashes ring').
Proof.
  intros H. simpl in H.
  destruct (addressHash ring _) as [[shard a]|]; [simpl in H|done].
  destruct (at_ (hashes ring) shard) as [main|] eqn:Hm; [simpl in H|done].
  pose proof Hm as Hm'. apply at_Some in Hm' as [Hge Hl].
  destruct (claims main 0 a) eqn:Hc.
  - unfold update in H. rewrite Hm in H. simpl in H.
    eapply (Join_tokens_claimed _ _ _ _ _ _ (λ _, True)) in H
      as [_ H]; [| lia | done |].
    + apply H. simpl. apply Exists_exists. eexists. split.
      * apply list_elem_of_lookup. exists (Z.to_nat shard).
        apply list_lookup_insert_eq. by eapply lookup_lt_Some.
      * unfold claimed. simpl. lia.
    + apply Forall_forall. by intros.
  - simpl in H.
    eapply (Join_tokens_claimed _ _ _ _ _ _ (λ _, True)) in H
      as [_ H]; [| lia | done |].
    + apply H. simpl. apply Exists_exists. exists main. split.
      * by eapply list_elem_of_lookup_2.
      * unfold claims in Hc. unfold claimed.
        destruct (decide (addr main = 0)); [done|].
        destruct (decide (rank main ≠ 0 ∧ 0 = 0)) as [|Hn]; [done|].
        assert (rank main = 0) as -> by lia. lia.
    + apply Forall_forall. by intros.
Qed.

(** After [repair] on a ring with a claimed shard, the owner of every shard
    is the owner of a claimed shard. *)
Lemma repair_owner ring ring' :
  wf ring → Exists claimed (hashes ring) → repair ring = Some ring' →
  Forall (λ h', ∃ c, c ∈ hashes ring ∧ claimed c ∧ node h' = node c)
    (hashes ring') ∧
  Forall (λ h', claimed h' → h' ∈ hashes ring) (hashes ring').
Proof.
  intros [Hq Hl _] Hex H.
  destruct (repair_rule_correct ring Hq Hl Hex) as (r&Hr&Hh&_&_&Hlook).
  rewrite H in Hr. injection Hr as <-.
  assert (length (hashes ring') = length (hashes ring)) as Hlen.
  { rewrite Hh. apply repair_rule_length. }
  split; apply Forall_forall; intros h' Hin;
    apply list_elem_of_lookup in Hin as [i Hi];
    (destruct (lookup_lt_is_Some_2 (hashes ring) i) as [h Hhi];
       [apply lookup_lt_Some in Hi; lia|]);
    destruct (Hlook i h Hhi) as (h2&Hi2&_&_&Hrk&Hc&Hu);
    rewrite Hi in Hi2; injection Hi2 as <-.
  - destruct (decide (rank h = -1)) as [Hun|Hcl].
    + destruct (Hu Hun) as (c&_&?&?&?). by exists c.
    + exists h. split; [by eapply list_elem_of_lookup_2|].
      split; [done|]. by apply Hc.
  - intros Hcl. unfold claimed in Hcl. rewrite Hrk in Hcl.
    assert (h' = h) as ->.
    { destruct h', h. simpl in *. destruct (Hlook i _ Hhi) as (h3&Hi3&E1&E2&E3&E4&_).
      rewrite Hi in Hi3. injection Hi3 as <-. simpl in *.
      rewrite E1, E2, E3, (E4 Hcl). done. }
    by eapply list_elem_of_lookup_2.
Qed.

(** A step of a proper history: identifiers that join are not empty and
    [Handoff] is applied to members only. *)
Definition proper (ring : Ring) (o : op) : Prop :=
  permitted ring o ∧
  match o with
  | OJoin nd => nd ≠ ""%string
  | OHandoff nd => is_Some (nodes ring !! nd)
  | OLeave _ _ => True
  end.

Record owned (ring : Ring) : Prop := {
  owned_nonempty : nodes ring !! ""%string = None;
  owned_claimed :
    Forall (λ h, claimed h → is_Some (nodes ring !! node h)) (hashes ring);
  owned_all :
    nodes ring ≠ ∅ → Forall (λ h, is_Some (nodes ring !! node h)) (hashes ring)
}.

Lemma owned_flag ring nd b :
  is_Some (nodes ring !! nd) → owned ring →
  owned (set_nodes (<[nd := b]> (nodes ring)) ring).
Proof.
  intros Hnd [H1 H2 H3].
  assert (∀ x, is_Some (nodes ring !! x) →
               is_Some (<[nd := b]> (nodes ring) !! x)) as Hmono.
  { intros x Hx. destruct (decide (nd = x)) as [->|Hne].
    - rewrite lookup_insert_eq. by eexists.
    - by rewrite lookup_insert_ne. }
  split; simpl.
  - rewrite lookup_insert_ne; [done|]. intros ->. rewrite H1 in Hnd.
    by destruct Hnd.
  - eapply Forall_impl; [done|]. simpl. intros h Hh Hc. by apply Hmono, Hh.
  - intros _. assert (nodes ring ≠ ∅) as Hne.
    { intros He. rewrite He, lookup_empty in Hnd. by destruct Hnd. }
    eapply Forall_impl; [by apply H3|]. simpl. intros h Hh. by apply Hmono.
Qed.

Lemma Join_owned ring nd ring' :
  wf ring → 0 < t ring < 2 ^ 63 → nd ≠ ""%string →
  Join ring nd = Some ring' → owned ring → owned ring'.
Proof.
  intros Hwf Ht Hnd H Hown. unfold Join in H.
  destruct (decide (is_Some (nodes ring !! nd))) as [Hin|Hout].
  { simplify_eq. by apply owned_flag. }
  destruct (Join_tokens _ _ _ _ _) as [r1|] eqn:H1; [simpl in H|done].
  destruct (repair r1) as [r2|] eqn:H2; [simpl in H|done]. simplify_eq.
  pose proof (Join_tokens_frame _ _ _ _ _ _ H1) as Hf1.
  pose proof (repair_frame _ _ H2) as Hf2.
  assert (wf r1) as Hwf1 by (by eapply wf_frame).
  assert (nodes r2 = nodes ring) as Hn2.
  { destruct Hf1 as (_&->&_). by destruct Hf2 as (_&->&_). }
  set (P := λ x : string, is_Some (<[nd := true]> (nodes ring) !! x)).
  assert (∀ x, is_Some (nodes ring !! x) → P x) as Hmono.
  { intros x Hx. unfold P. destruct (decide (nd = x)) as [->|Hne].
    - rewrite lookup_insert_eq. by eexists.
    - by rewrite lookup_insert_ne. }
  assert (P nd) as HPnd by (unfold P; rewrite lookup_insert_eq; by eexists).
  assert (Exists claimed (hashes r1)) as Hex.
  { rewrite (int_of_small (t ring)) in H1 by lia.
    destruct (Z.to_nat (t ring)) as [|n] eqn:En; [lia|].
    by eapply Join_tokens_Exists_claimed. }
  destruct (Join_tokens_claimed _ _ _ _ _ _ P (Z.le_refl 0) H1 HPnd)
    as [Hcl1 _].
  { destruct Hown as [_ Hc _]. eapply Forall_impl; [done|]. simpl.
    intros h Hh Hc'. by apply Hmono, Hh. }
  destruct (repair_owner _ _ Hwf1 Hex H2) as [Hall2 Hcl2].
  rewrite Forall_forall in Hcl1.
  split; simpl; rewrite Hn2.
  - rewrite lookup_insert_ne by done. by destruct Hown.
  - rewrite Forall_forall in Hcl2. apply Forall_forall. intros h Hh Hc.
    apply (Hcl1 h); [by apply Hcl2|done].
  - intros _. eapply Forall_impl; [exact Hall2|]. simpl.
    intros h (c&Hc&Hcc&->). by apply (Hcl1 c).
Qed.

Lemma Join_all_owned order ring ring' :
  wf ring → 0 < t ring < 2 ^ 63 → Forall (λ nd, nd ≠ ""%string) order →
  Join_all order ring = Some ring' → owned ring → owned ring'.
Proof.
  revert ring. induction order as [|nd order IH];
    intros ring Hwf Ht Hall H Hown; simpl in H; [by simplify_eq|].
  apply Forall_cons in Hall as [Hnd Hall].
  destruct (Join ring nd) as [r1|] eqn:H1; [simpl in H|done].
  eapply (IH r1); try done.
  - by eapply Join_wf.
  - apply Join_frame in H1 as ((_&_&<-&_)&_). done.
  - by eapply Join_owned.
Qed.

Lemma apply_owned ring o ring' :
  wf ring → 0 < t ring < 2 ^ 63 → proper ring o →
  apply ring o = Some ring' → owned ring → owned ring'.
Proof.
  intros Hwf Ht [Hperm Hprop] H Hown. destruct o as [nd|nd order|nd];
    simpl in *.
  - by eapply Join_owned.
  - unfold Leave in H.
    destruct (decide (is_Some (nodes ring !! nd))); [|by simplify_eq].
    destruct (ring_empty ring) as [r0|] eqn:H0; [simpl in H|done].
    apply ring_empty_wf in H0 as (Hwf0&(_&_&Ht0&_)&Hn0&Hall0);
      [|by destruct Hwf; lia].
    eapply (Join_all_owned order r0); try done.
    + by rewrite <-Ht0.
    + apply Forall_forall. intros x Hx ->.
      apply (range_order_elem_of _ _ _ Hperm) in Hx.
      destruct Hown as [He _ _]. destruct Hx as [v Hv].
      apply lookup_delete_Some in Hv as [_ Hv]. congruence.
    + split.
      * by rewrite Hn0, lookup_empty.
      * eapply Forall_impl; [done|]. simpl. intros h (Hr&_) Hc. done.
      * done.
  - simplify_eq. by apply owned_flag.
Qed.

Lemma reachable_owned ring0 ring :
  wf ring0 → 0 < t ring0 < 2 ^ 63 → owned ring0 →
  reachable_by proper ring0 ring → owned ring.
Proof.
  intros Hwf Ht Hown. induction 1 as [|r o r' Hr IH Hp Ha]; [done|].
  destruct (reachable_wf _ _ _ Hr Hwf) as [Hwfr (_&_&Htr&_)].
  eapply apply_owned; try done. by rewrite <-Htr.
Qed.

Lemma New_fresh opts ring :
  New opts = Some ring → 0 <= q ring →
  Forall (λ h, rank h = -1 ∧ node h = ""%string ∧ addr h = 0) (hashes ring).
Proof.
  unfold New. intros H Hq.
  destruct (segment _) as [a|] eqn:Hs; [simpl in H|done].
  unfold segment in Hs. case_decide as Hq0; [done|].
  pose proof H as H'. unfold ring_empty in H'.
  destruct (addresses _) as [seq|]; [simpl in H'|done]. simplify_eq.
  simpl in Hq. apply ring_empty_wf in H as (?&?&?&?); [done|simpl; lia].
Qed.

(** The default ring after [Join("a")] and [Join("b")]. *)
Definition ringo_pair : Ring :=
  default zero_Ring (Join_all ["a"; "b"]%string fresh_ring).

(** C4, as stated, fails: [Handoff] records an identifier that never
    joined, and [Join] of a recorded identifier only sets its flag.  After
    [Handoff("x")] and [Join("x")] on a new ring, [x] is an active member
    and the eight shards have the empty node. *)
Lemma joined_member_without_shards :
  ∃ ring,
    Join (Handoff fresh_ring "x") "x" = Some ring ∧
    nodes ring !! "x"%string = Some true ∧ Has ring "x" = true ∧
    length (Shards ring) = 8%nat ∧
    Forall (λ h, node h = ""%string) (Shards ring).
Proof.
  exists (set_nodes (<["x"%string := true]> (nodes (Handoff fresh_ring "x")))
            (Handoff fresh_ring "x")).
  split.
  - unfold Join. rewrite decide_True; [done|].
    vm_compute. eexists. reflexivity.
  - split; [vm_compute; reflexivity|]. split; [vm_compute; reflexivity|].
    split; [vm_compute; reflexivity|].
    apply Forall_forall. intros h Hh. revert h Hh. apply Forall_forall.
    vm_compute. repeat constructor.
Qed.

(** C4, amended. On a ring built by [New] with [0 < t], after any history
    of [Join], [Leave] and [Handoff] in which every identifier that joins is
    non-empty and [Handoff] is applied to current members only: if the
    member set is not empty, each of the [q] shard entries has a non-empty
    node that belongs to the member set. *)
Theorem shards_owned_by_members opts ring0 ring :
  New opts = Some ring0 → uint64 (q ring0) → 0 < t ring0 < 2 ^ 63 →
  reachable_by proper ring0 ring → nodes ring ≠ ∅ →
  Z.of_nat (length (Shards ring)) = q ring ∧
  Forall (λ h, node h ≠ ""%string ∧ is_Some (nodes ring !! node h))
    (Shards ring).
Proof.
  intros HN Hq Ht Hr Hne.
  destruct (New_wf _ _ HN) as [Hwf0 Hn0]; [by destruct Hq|].
  assert (owned ring0) as Hown0.
  { split.
    - by rewrite Hn0, lookup_empty.
    - eapply Forall_impl; [by eapply New_fresh; [|destruct Hq]|].
      simpl. by intros h (?&_) ?.
    - done. }
  destruct (reachable_wf _ _ _ Hr Hwf0) as [[_ Hl _] _].
  destruct (reachable_owned _ _ Hwf0 Ht Hown0 Hr) as [He _ Hall].
  split; [done|]. eapply Forall_impl; [by apply Hall|]. simpl.
  intros h Hh. split; [|done]. intros E. rewrite E, He in Hh. by destruct Hh.
Qed.

Lemma shards_owned_by_members_witness :
  ∃ ring,
    Leave ["b"]%string (Handoff ringo_pair "b") "a" = Some ring ∧
    nodes ring ≠ ∅ ∧
    Forall (λ h, node h ≠ ""%string ∧ is_Some (nodes ring !! node h))
      (Shards ring).
Proof.
  assert (is_Some (Leave ["b"]%string (Handoff ringo_pair "b") "a"))
    as [ring HL] by runs.
  exists ring. split; [done|].
  assert (is_Some (Join fresh_ring "a")) as [r1 H1] by runs.
  assert (Join r1 "b" = Some ringo_pair) as H2.
  { assert (Join_all ["a"; "b"]%string fresh_ring = Some ringo_pair) as HJ
      by (apply default_Some; runs).
    simpl in HJ. rewrite H1 in HJ. simpl in HJ.
    destruct (Join r1 "b") as [r2|]; simpl in HJ; [exact HJ|done]. }
  assert (nodes ringo_pair !! "b"%string = Some true) as Hb
    by (vm_compute; reflexivity).
  assert (reachable_by proper fresh_ring ring) as Hr.
  { eapply (reach_step _ _ (Handoff ringo_pair "b") (OLeave "a" ["b"%string]));
      [|split; [unfold permitted, range_order; vm_compute; reflexivity
               |exact I]
       |exact HL].
    eapply (reach_step _ _ ringo_pair (OHandoff "b"));
      [|split; [exact I|exists true; exact Hb]|reflexivity].
    eapply (reach_step _ _ r1 (OJoin "b"));
      [|split; [exact I|discriminate]|exact H2].
    eapply (reach_step _ _ fresh_ring (OJoin "a"));
      [|split; [exact I|discriminate]|exact H1].
    constructor. }
  assert (nodes ring ≠ ∅) as Hne.
  { assert (is_Some (nodes (Handoff ringo_pair "b") !! "a"%string)) as Hx
      by (vm_compute; eexists; reflexivity).
    assert (range_order (delete "a"%string (nodes (Handoff ringo_pair "b")))
              ["b"%string]) as Ho
      by (unfold range_order; vm_compute; reflexivity).
    pose proof (Leave_nodes _ _ _ _ Hx Ho HL "b"%string) as Hv.
    intros He. rewrite He, lookup_empty in Hv. revert Hv.
    vm_compute. discriminate. }
  split; [done|].
  assert (q fresh_ring = 8) as Hq8 by (vm_compute; reflexivity).
  assert (t fresh_ring = 8) as Ht8 by (vm_compute; reflexivity).
  apply (shards_owned_by_members [] fresh_ring ring New_default);
    [unfold uint64; lia|lia|exact Hr|exact Hne].
Defined.

(** ** Construction and the steady state *)

(** The configuration [New] starts from: the defaults, then the options. *)
Definition config (opts : list Option) : Ring :=
  Options opts (M64_Q8_T8 zero_Ring).


Lemma New_config opts ring :
  New opts = Some ring →
  m ring = m (config opts) ∧ q ring = q (config opts) ∧
  t ring = t (config opts) ∧ hasher ring = hasher (config opts) ∧
  arc ring = u64 (highest (config opts) / q (config opts) + 1).
Proof.
  unfold New. fold (config opts). unfold segment. intros H.
  destruct (decide (q (config opts) = 0)); [done|]. simpl in H.
  unfold ring_empty in H. destruct (addresses _); simpl in H; [|done].
  by simplify_eq.
Qed.





(** A short hasher: SHA-1 truncated to four bytes. *)
Definition sha1_32 (data : list byte) : list byte := take 4 (SHA1.sum data).

(** C3, as stated, fails: [New] does not validate its configuration.
    A ring with [t = 0], a ring with [m = 24] and a ring whose hasher
    yields four bytes for [m = 64] are all built; the last one panics in
    [Join], past construction. *)
Lemma New_accepts_invalid_configurations :
  (∃ ring, New [WithT 0] = Some ring ∧ t ring = 0) ∧
  (∃ ring, New [withM 24] = Some ring ∧ m ring = 24) ∧
  (∃ ring, New [WithHash sha1_32] = Some ring ∧ m ring = 64 ∧
           length (hasher ring []) = 4%nat ∧ Join ring "a" = None).
Proof.
  split; [|split].
  - exists (default zero_Ring (New [WithT 0])).
    split; [apply default_Some; runs|vm_compute; reflexivity].
  - exists (default zero_Ring (New [withM 24])).
    split; [apply default_Some; runs|vm_compute; reflexivity].
  - exists (default zero_Ring (New [WithHash sha1_32])).
    split; [apply default_Some; runs|].
    do 2 (split; [vm_compute; reflexivity|]). vm_compute. reflexivity.
Qed.



(** * Further properties of the ring *)

(** ** Shard addressing *)

(** The shard vector of a ring built by [New] has [q] entries at every point
    of its history, and entry [i] keeps the canonical address
    [(i+1) * arc - 1] it received from [empty] (computed in [uint64]; the
    plain integer when [(i+1) * arc] does not exceed [2^64]): neither
    [update] nor [updateNode] writes the [hash] field. *)
Theorem shard_addresses_fixed opts ring0 ring :
  New opts = Some ring0 → uint64 (q (config opts)) → reachable ring0 ring →
  Z.of_nat (length (Shards ring)) = q ring0 ∧
  ∀ (i : nat) h, Shards ring !! i = Some h →
    hash h = u64 (u64 ((Z.of_nat i + 1) * arc ring0) - 1) ∧
    (0 < arc ring0 → (Z.of_nat i + 1) * arc ring0 <= 2 ^ 64 →
     hash h = (Z.of_nat i + 1) * arc ring0 - 1).
Proof.
  intros HN Hq Hr.
  destruct (New_config _ _ HN) as (_&Hq0&_).
  destruct (New_wf _ _ HN) as [Hwf0 _]; [rewrite Hq0; by destruct Hq|].
  destruct (reachable_wf _ _ _ Hr Hwf0) as [[Hqr Hl Hh] (_&Eq&_&_&Ea)].
  unfold Shards. split; [lia|]. intros i h Hi.
  pose proof (lookup_lt_Some _ _ _ Hi) as Hlt.
  assert (hash h = u64 (u64 ((Z.of_nat i + 1) * arc ring0) - 1)) as E.
  { rewrite (Hh _ _ Hi). unfold addressShard.
    rewrite (u64_id (Z.of_nat i + 1)) by (unfold uint64; lia).
    by rewrite Ea. }
  split; [done|]. intros Ha Hle. rewrite E.
  destruct (decide ((Z.of_nat i + 1) * arc ring0 = 2 ^ 64)) as [->|Hne].
  - reflexivity.
  - rewrite (u64_id ((Z.of_nat i + 1) * arc ring0)) by (unfold uint64; nia).
    apply u64_id. unfold uint64. nia.
Qed.

Lemma shard_addresses_fixed_witness :
  ∃ h, Shards (Handoff fresh_ring "a") !! 7%nat = Some h ∧
       hash h = 2 ^ 64 - 1.
Proof.
  assert (q (config []) = 8) as Hq8 by reflexivity.
  assert (uint64 (q (config []))) as Hq by (rewrite Hq8; unfold uint64; lia).
  assert (reachable fresh_ring (Handoff fresh_ring "a")) as Hr.
  { eapply (reach_step _ _ fresh_ring (OHandoff "a"));
      [constructor|exact I|reflexivity]. }
  destruct (shard_addresses_fixed [] fresh_ring _ New_default Hq Hr)
    as [Hlen Hhash].
  assert (arc fresh_ring = 2 ^ 61) as Ha by (vm_compute; reflexivity).
  destruct (lookup_lt_is_Some_2 (Shards (Handoff fresh_ring "a")) 7)
    as [h Hh].
  { assert (q fresh_ring = 8) as E by (vm_compute; reflexivity). lia. }
  exists h. split; [exact Hh|].
  destruct (Hhash 7%nat h Hh) as [_ Hplain].
  rewrite Hplain; rewrite Ha; [reflexivity|lia|].
  vm_compute. discriminate.
Defined.

(** ** Lookup *)

(** The shard width of a ring built by [New]: [H / q + 1] for the highest
    address [H], which is below [2^63] for [m <= 63] and [2^64 - 1] from
    [m = 64] on. *)
Lemma New_arc opts ring :
  New opts = Some ring → uint64 (q (config opts)) → uint64 (m (config opts)) →
  arc ring ≠ 0 →
  ∃ H, 0 <= H ∧ (H < 2 ^ 63 ∨ H = 2 ^ 64 - 1) ∧
       arc ring = H / q ring + 1 ∧ 0 < q ring < 2 ^ 63.
Proof.
  intros HN Hq Hm Ha.
  destruct (New_config _ _ HN) as (Em&Eq&_&_&Earc).
  destruct (New_wf _ _ HN) as [[Hqr _ _] _]; [rewrite Eq; by destruct Hq|].
  exists (highest (config opts)). rewrite <-Eq in Earc.
  assert (0 <= highest (config opts) ∧
          (highest (config opts) < 2 ^ 63 ∨
           highest (config opts) = 2 ^ 64 - 1)) as [HH0 HH].
  { unfold highest. rewrite Z.shiftl_1_l. destruct Hm as [Hm0 _].
    destruct (decide (m (config opts) <= 63)) as [Hm63|Hm64].
    - assert (2 ^ m (config opts) <= 2 ^ 63) as Hp
        by (apply Z.pow_le_mono_r; lia).
      assert (0 < 2 ^ m (config opts)) as Hp0
        by (apply Z.pow_pos_nonneg; lia).
      rewrite (u64_id (2 ^ m (config opts))) by (unfold uint64; lia).
      rewrite u64_id by (unfold uint64; lia). lia.
    - assert (u64 (2 ^ m (config opts)) = 0) as ->.
      { unfold u64.
        replace (m (config opts)) with (64 + (m (config opts) - 64)) by lia.
        rewrite Z.pow_add_r by lia. rewrite Z.mul_comm. apply Z.mod_mul. lia. }
      split; [by vm_compute|right; reflexivity]. }
  split; [done|]. split; [done|]. split; [|done].
  assert (0 <= highest (config opts) / q ring) as Hdiv
    by (apply Z.div_pos; lia).
  assert (highest (config opts) / q ring <= highest (config opts)) as Hdiv'.
  { apply Z.div_le_upper_bound; [lia|]. nia. }
  destruct (decide (highest (config opts) / q ring + 1 = 2 ^ 64)) as [E|E].
  - exfalso. apply Ha. rewrite Earc, E. reflexivity.
  - rewrite Earc. apply u64_id. unfold uint64. lia.
Qed.

Lemma Lookup_next ring (H i : Z) :
  wf ring → 0 <= H → H < 2 ^ 63 ∨ H = 2 ^ 64 - 1 →
  arc ring = H / q ring + 1 → q ring <= 2 ^ 32 → 0 <= i < q ring →
  Lookup ring (u64 ((i + 1) * arc ring)) =
    hashes ring !! Z.to_nat ((i + 1) mod q ring).
Proof.
  intros Hwf HH0 HH Earc Hq32 Hi. pose proof Hwf as [Hq Hl _].
  assert (0 <= H / q ring) as Hdiv by (apply Z.div_pos; lia).
  assert (0 < arc ring) as Hpos by lia.
  pose proof (Z.mul_div_le H (q ring)) as Hmd.
  destruct HH as [Hsmall|Hbig].
  - assert (q ring * arc ring < 2 ^ 64) as Hnw by nia.
    destruct (decide (i + 1 < q ring)) as [Hlt|Hge].
    + rewrite (Z.mod_small (i + 1)) by lia.
      rewrite u64_id by (unfold uint64; nia).
      apply Lookup_in_shard; [done|done|lia|lia].
    + assert (i + 1 = q ring) as -> by lia. rewrite Z.mod_same by lia.
      rewrite u64_id by (unfold uint64; nia).
      unfold Lookup. rewrite shard_of_Some by lia. simpl.
      rewrite Z.div_mul by lia. rewrite Z.mod_same by lia.
      apply at_nat with (i := 0%nat).
  - apply Lookup_wrap; try done; [|nia].
    assert (2 ^ 32 - 1 <= H / q ring); [|lia].
    apply Z.div_le_lower_bound; [lia|]. nia.
Qed.

(** [Lookup] on a ring built by [New] whose shard width is not zero and
    that has at most [2^32] shards: every address of the arc
    [[i * arc, (i+1) * arc - 1]] yields shard [i], and the address one past
    the arc (in [uint64]) yields the next shard, shard 0 after the last. *)
Theorem Lookup_consistency opts ring0 ring (i a : Z) :
  New opts = Some ring0 → uint64 (q (config opts)) →
  uint64 (m (config opts)) → reachable ring0 ring →
  arc ring0 ≠ 0 → q ring0 <= 2 ^ 32 →
  0 <= i < q ring → i * arc ring <= a < (i + 1) * arc ring →
  Lookup ring a = Shards ring !! Z.to_nat i ∧
  is_Some (Lookup ring a) ∧
  Lookup ring (u64 ((i + 1) * arc ring)) =
    Shards ring !! Z.to_nat ((i + 1) mod q ring).
Proof.
  intros HN Hq Hm Hr Ha Hq32 Hi Hin.
  destruct (New_arc _ _ HN Hq Hm Ha) as (H&HH0&HH&Earc&Hq0).
  destruct (New_config _ _ HN) as (_&Eq&_).
  destruct (New_wf _ _ HN) as [Hwf0 _]; [rewrite Eq; by destruct Hq|].
  destruct (reachable_wf _ _ _ Hr Hwf0) as [Hwf (_&Eq'&_&_&Ea')].
  rewrite Eq', Ea' in *.
  assert (0 <= H / q ring) as Hdiv by (apply Z.div_pos; lia).
  destruct (Lookup_in_shard ring i a) as [HL HS]; [done|lia|done|done|].
  split; [done|]. split; [done|]. by apply (Lookup_next ring H).
Qed.

Lemma Lookup_consistency_witness :
  Lookup fresh_ring (2 ^ 63 + 5) = Shards fresh_ring !! 4%nat ∧
  Lookup fresh_ring 0 = Shards fresh_ring !! 0%nat.
Proof.
  assert (q (config []) = 8) as Hq8 by reflexivity.
  assert (m (config []) = 64) as Hm64 by reflexivity.
  assert (uint64 (q (config []))) as Hq by (rewrite Hq8; unfold uint64; lia).
  assert (uint64 (m (config []))) as Hm by (rewrite Hm64; unfold uint64; lia).
  assert (arc fresh_ring = 2 ^ 61) as Ha by (vm_compute; reflexivity).
  assert (q fresh_ring = 8) as Hq' by (vm_compute; reflexivity).
  assert (reachable fresh_ring fresh_ring) as Hr by constructor.
  split.
  - destruct (Lookup_consistency [] fresh_ring fresh_ring 4 (2 ^ 63 + 5)
                New_default Hq Hm Hr) as (HL&_); [lia|lia|lia|lia|exact HL].
  - destruct (Lookup_consistency [] fresh_ring fresh_ring 7 (2 ^ 64 - 1)
                New_default Hq Hm Hr) as (_&_&HL); [lia|lia|lia|lia|].
    rewrite Ha, Hq' in HL. exact HL.
Defined.

(** ** After and Before *)

(** On a ring built by [New] whose shard width is not zero, [After(n, a)]
    and [Before(n, a)] return the raw shard sequence that starts at the
    shard [s] of the address and walks forward (resp. backward) modulo [q]:
    [min(n, q)] entries for [n >= 1], and all [q] entries for [n = 0].
    Entries owned by the same node are not filtered. *)
Theorem After_Before_sequence opts ring0 ring (n a : Z) :
  New opts = Some ring0 → uint64 (q (config opts)) → reachable ring0 ring →
  arc ring0 ≠ 0 → q ring0 <= 2 ^ 62 → 0 <= n → 0 <= a →
  let s := (a / arc ring) mod q ring in
  let cnt := if decide (n = 0) then q ring else Z.min n (q ring) in
  ∃ la lb,
    After ring n a = Some la ∧ Before ring n a = Some lb ∧
    Z.of_nat (length la) = cnt ∧ Z.of_nat (length lb) = cnt ∧
    ∀ j : nat, Z.of_nat j < cnt →
      la !! j = Shards ring !! Z.to_nat ((s + Z.of_nat j) mod q ring) ∧
      lb !! j = Shards ring !! Z.to_nat ((s - Z.of_nat j) mod q ring).
Proof.
  intros HN Hq Hr Ha Hq62 Hn Hap.
  destruct (New_config _ _ HN) as (_&Eq&_&_&Earc).
  destruct (New_wf _ _ HN) as [Hwf0 _]; [rewrite Eq; by destruct Hq|].
  destruct (reachable_wf _ _ _ Hr Hwf0) as [Hwf (_&Eq'&_&_&Ea')].
  apply After_Before_spec; try done; [|lia].
  rewrite <-Ea'.
  pose proof (u64_range (highest (config opts) / q (config opts) + 1)) as Hu.
  unfold uint64 in Hu. lia.
Qed.

Lemma After_Before_sequence_witness :
  ∃ la lb,
    After fresh_ring 3 (2 ^ 64 - 1) = Some la ∧
    Before fresh_ring 3 0 = Some lb ∧
    la !! 1%nat = Shards fresh_ring !! 0%nat ∧
    lb !! 1%nat = Shards fresh_ring !! 7%nat.
Proof.
  assert (q (config []) = 8) as Hq8 by reflexivity.
  assert (uint64 (q (config []))) as Hq by (rewrite Hq8; unfold uint64; lia).
  assert (arc fresh_ring = 2 ^ 61) as Ha by (vm_compute; reflexivity).
  assert (q fresh_ring = 8) as Hq' by (vm_compute; reflexivity).
  assert (reachable fresh_ring fresh_ring) as Hr by constructor.
  destruct (After_Before_sequence [] fresh_ring fresh_ring 3 (2 ^ 64 - 1)
              New_default Hq Hr) as (la&lb0&HA&_&_&_&Hla);
    [lia|lia|lia|lia|].
  destruct (After_Before_sequence [] fresh_ring fresh_ring 3 0
              New_default Hq Hr) as (la0&lb&_&HB&_&_&Hlb);
    [lia|lia|lia|lia|].
  exists la, lb. split; [exact HA|]. split; [exact HB|].
  rewrite Ha, Hq' in Hla, Hlb.
  destruct (Hla 1%nat) as [E1 _]; [by vm_compute|].
  destruct (Hlb 1%nat) as [_ E2]; [by vm_compute|].
  split; [exact E1|exact E2].
Defined.

(** ** Nodes *)

(** [Nodes()] groups the shard vector by owner: the list under a key is the
    sub-sequence of [Shards()] whose node is that key, in index order; every
    member is a key (with an empty list when it owns no shard), and so is
    the node of every shard entry; no other key exists. *)
Theorem Nodes_groups_shards ring :
  (∀ k l, Nodes ring !! k = Some l →
          l = filter (λ h, node h = k) (Shards ring) ∧
          (is_Some (nodes ring !! k) ∨ ∃ h, h ∈ Shards ring ∧ node h = k)) ∧
  (∀ k, is_Some (nodes ring !! k) → is_Some (Nodes ring !! k)) ∧
  (∀ h, h ∈ Shards ring → ∃ l, Nodes ring !! node h = Some l ∧ h ∈ l).
Proof.
  unfold Shards. split; [|split].
  - intros k l Hk. rewrite Nodes_lookup in Hk.
    destruct (nodes ring !! k) as [b|] eqn:Hn.
    + simplify_eq. split; [done|]. left. by eexists.
    + destruct (filter _ _) as [|h l'] eqn:Hf; [done|]. simplify_eq.
      split; [done|]. right. exists h.
      assert (h ∈ filter (λ h, node h = k) (hashes ring)) as Hin
        by (rewrite Hf; by left).
      by apply list_elem_of_filter in Hin as [? ?].
  - intros k [b Hb]. rewrite Nodes_lookup, Hb. by eexists.
  - intros h Hh.
    assert (h ∈ filter (λ h', node h' = node h) (hashes ring)) as Hin
      by (by apply list_elem_of_filter).
    rewrite Nodes_lookup. destruct (nodes ring !! node h).
    + by eexists.
    + destruct (filter _ _) as [|h' l'] eqn:Hf.
      * by apply elem_of_nil in Hin.
      * by eexists.
Qed.

(** ** Membership *)

(** A small ring for examples: four shards over an 8-bit address space, two
    tokens per node, and a hasher that returns its input reversed. *)
Definition toy_ring : Ring :=
  default zero_Ring (New [WithM8; WithQ 4; WithT 2; WithHash (λ d, rev d)]).

Lemma New_toy :
  New [WithM8; WithQ 4; WithT 2; WithHash (λ d, rev d)] = Some toy_ring.
Proof. apply default_Some. runs. Qed.

(** The toy ring after [Join("a")] and [Join("k")]. *)
Definition toy_pair : Ring :=
  default zero_Ring (Join_all ["a"; "k"]%string toy_ring).

Lemma Join_toy_pair : Join_all ["a"; "k"]%string toy_ring = Some toy_pair.
Proof. apply default_Some. runs. Qed.

Lemma set_nodes_id ring : set_nodes (nodes ring) ring = ring.
Proof. by destruct ring. Qed.

(** After [Join(x)] the node [x] is an active member, whatever it was
    before; the flag of every other member is untouched, and the member
    count grows by one exactly when [x] was not a member. *)
Theorem Join_membership ring x ring' :
  Join ring x = Some ring' →
  Has ring' x = true ∧ nodes ring' !! x = Some true ∧
  (∀ y, y ≠ x → nodes ring' !! y = nodes ring !! y) ∧
  Size ring' = if Has ring x then Size ring else Size ring + 1.
Proof.
  intros H. apply Join_frame in H as (_&Hn&_). unfold Has, Size. rewrite Hn.
  split; [|split; [|split]].
  - rewrite bool_decide_eq_true. rewrite lookup_insert_eq. by eexists.
  - apply lookup_insert_eq.
  - intros y Hy. by rewrite lookup_insert_ne.
  - destruct (nodes ring !! x) as [b|] eqn:Hx.
    + rewrite bool_decide_true by (by eexists).
      by rewrite map_size_insert, Hx.
    + rewrite bool_decide_false by (by intros [? ?]).
      rewrite map_size_insert, Hx. lia.
Qed.

Lemma Join_membership_witness :
  ∃ ring', Join (Handoff toy_pair "a") "a" = Some ring' ∧
           nodes ring' !! "a"%string = Some true ∧ Size ring' = 2.
Proof.
  assert (is_Some (Join (Handoff toy_pair "a") "a")) as [ring' HJ] by runs.
  exists ring'. split; [exact HJ|].
  destruct (Join_membership _ _ _ HJ) as (_&Hx&_&Hs).
  split; [exact Hx|]. rewrite Hs. vm_compute. reflexivity.
Defined.

(** After [Leave(x)] the node [x] is not a member.  When it was one, the
    other members are all kept and the member count drops by one; when it
    was not, the ring is returned as it is. *)
Theorem Leave_membership order ring x ring' :
  range_order (delete x (nodes ring)) order →
  Leave order ring x = Some ring' →
  Has ring' x = false ∧
  (∀ y, y ≠ x → Has ring' y = Has ring y) ∧
  Size ring' = (if Has ring x then Size ring - 1 else Size ring) ∧
  (Has ring x = false → ring' = ring).
Proof.
  intros Ho HL. destruct (nodes ring !! x) as [b|] eqn:Hx.
  - assert (is_Some (nodes ring !! x)) as Hin by (by eexists).
    pose proof (Leave_nodes _ _ _ _ Hin Ho HL) as Hn.
    assert (nodes ring' = (λ _, true) <$> delete x (nodes ring)) as En.
    { apply map_eq. intros y. rewrite Hn, lookup_fmap, lookup_delete.
      destruct (decide (x = y)) as [->|Hne].
      - rewrite decide_False; [done|]. by intros [? _].
      - destruct (nodes ring !! y) as [c|] eqn:Hy; simpl.
        + rewrite decide_True; [done|]. split; [done|by eexists].
        + rewrite decide_False; [done|]. by intros [_ [? ?]]. }
    unfold Has, Size. rewrite En.
    split; [|split; [|split]].
    + rewrite bool_decide_eq_false, lookup_fmap, lookup_delete_eq.
      by intros [? ?].
    + intros y Hy. apply bool_decide_ext.
      rewrite lookup_fmap, lookup_delete_ne by done.
      destruct (nodes ring !! y); simpl; split; intros [? ?]; try done;
        by eexists.
    + rewrite bool_decide_true by exact Hin.
      rewrite map_size_fmap, map_size_delete, Hx.
      pose proof (map_size_non_empty_iff (nodes ring)) as Hsz.
      assert (nodes ring ≠ ∅) as Hne.
      { intros E. by rewrite E, lookup_empty in Hx. }
      apply Hsz in Hne. unfold size in *. lia.
    + rewrite bool_decide_true by exact Hin. done.
  - unfold Leave in HL. rewrite decide_False in HL.
    2:{ rewrite Hx. by intros [? ?]. }
    simplify_eq. unfold Has, Size. rewrite Hx.
    rewrite !bool_decide_false by (by intros [? ?]). done.
Qed.

Lemma Leave_membership_witness :
  ∃ ring', Leave ["k"]%string toy_pair "a" = Some ring' ∧
           Has ring' "a" = false ∧ Has ring' "k" = true ∧ Size ring' = 1.
Proof.
  assert (is_Some (Leave ["k"]%string toy_pair "a")) as [ring' HL] by runs.
  assert (range_order (delete "a"%string (nodes toy_pair)) ["k"%string])
    as Ho by (unfold range_order; vm_compute; reflexivity).
  exists ring'. split; [exact HL|].
  destruct (Leave_membership _ _ _ _ Ho HL) as (Ha&Hk&Hs&_).
  split; [exact Ha|]. split.
  - rewrite (Hk "k"%string) by discriminate. vm_compute. reflexivity.
  - rewrite Hs. vm_compute. reflexivity.
Defined.

(** A second [Join] of the same node returns the ring it is given: joining
    is idempotent, and no token is placed again. *)
Theorem Join_idempotent ring x ring' :
  Join ring x = Some ring' → Join ring' x = Some ring'.
Proof.
  intros H. apply Join_frame in H as (_&Hn&_). unfold Join.
  rewrite decide_True by (rewrite Hn, lookup_insert_eq; by eexists).
  rewrite Hn at 1. rewrite insert_insert_eq, <-Hn. by rewrite set_nodes_id.
Qed.

Lemma Join_idempotent_witness :
  ∃ ring', Join toy_ring "a" = Some ring' ∧ Join ring' "a" = Some ring'.
Proof.
  assert (is_Some (Join toy_ring "a")) as [ring' HJ] by runs.
  exists ring'. split; [exact HJ|]. exact (Join_idempotent _ _ _ HJ).
Defined.

(** [Handoff] changes nothing but the flag of its node, and [Join] of a node
    in handoff mode changes nothing but that flag: on a ring where [x] is
    an active member, [Handoff(x)] followed by [Join(x)] gives the ring
    back, shard vector included. *)
Theorem Join_undoes_Handoff ring x :
  nodes ring !! x = Some true →
  Shards (Handoff ring x) = Shards ring ∧
  nodes (Handoff ring x) !! x = Some false ∧
  Join (Handoff ring x) x = Some ring.
Proof.
  intros Hx. split; [done|]. split; [apply lookup_insert_eq|].
  unfold Join. rewrite decide_True
    by (simpl; rewrite lookup_insert_eq; by eexists).
  f_equal. unfold Handoff, set_nodes. simpl.
  rewrite insert_insert_eq, insert_id by done. by destruct ring.
Qed.

Lemma Join_undoes_Handoff_witness :
  nodes (Handoff toy_pair "k") !! "k"%string = Some false ∧
  Join (Handoff toy_pair "k") "k" = Some toy_pair.
Proof.
  assert (nodes toy_pair !! "k"%string = Some true) as Hk
    by (vm_compute; reflexivity).
  destruct (Join_undoes_Handoff toy_pair "k" Hk) as (_&H1&H2).
  split; [exact H1|exact H2].
Defined.

(** [Handoff] of an identifier that never joined makes it a member in
    handoff mode: it is counted by [Size], reported by [Has], owns no shard,
    and the shard vector is untouched. *)
Theorem Handoff_of_non_member ring x :
  nodes ring !! x = None →
  Has (Handoff ring x) x = true ∧ Size (Handoff ring x) = Size ring + 1 ∧
  nodes (Handoff ring x) !! x = Some false ∧
  Shards (Handoff ring x) = Shards ring ∧
  (∀ y, y ≠ x → nodes (Handoff ring x) !! y = nodes ring !! y).
Proof.
  intros Hx. unfold Has, Size, Handoff. simpl.
  split; [|split; [|split; [|split]]].
  - rewrite bool_decide_eq_true, lookup_insert_eq. by eexists.
  - rewrite map_size_insert, Hx. lia.
  - apply lookup_insert_eq.
  - done.
  - intros y Hy. by rewrite lookup_insert_ne.
Qed.

Lemma Handoff_of_non_member_witness :
  Has toy_pair "z" = false ∧ Has (Handoff toy_pair "z") "z" = true ∧
  Size (Handoff toy_pair "z") = 3.
Proof.
  assert (nodes toy_pair !! "z"%string = None) as Hz
    by (vm_compute; reflexivity).
  destruct (Handoff_of_non_member toy_pair "z" Hz) as (H1&H2&_).
  split; [vm_compute; reflexivity|]. split; [exact H1|].
  rewrite H2. vm_compute. reflexivity.
Defined.

(** ** Routing by key *)

Lemma address_inv ring key s a :
  address ring key = Some (s, a) →
  ∃ shard, shard_of ring a = Some shard ∧ s = int_of shard.
Proof.
  unfold address, addressHash. intros H.
  destruct (at_ _ 0) as [b0|]; [simpl in H|done].
  destruct (addressHash_loop _ _ _ _) as [a0|]; [simpl in H|done].
  destruct (shard_of ring a0) as [shard|] eqn:Hs; [simpl in H|done].
  injection H as <- <-. by exists shard.
Qed.

(** The key variants route by the address of the key: whenever the key can
    be hashed, [LookupKey], [AfterKey] and [BeforeKey] return what [Lookup],
    [After] and [Before] return at [Address(key)]. *)
Theorem key_routing_by_address ring key a :
  wf ring → Address ring key = Some a →
  LookupKey ring key = Lookup ring a ∧
  ∀ n, AfterKey ring n key = After ring n a ∧
       BeforeKey ring n key = Before ring n a.
Proof.
  intros [Hq Hl _] HA. unfold Address in HA.
  destruct (address ring key) as [[s a']|] eqn:Hadr; [|done].
  simpl in HA. injection HA as ->.
  destruct (address_inv _ _ _ _ Hadr) as (shard&Hs&->).
  assert (int_of shard = shard) as Eint.
  { unfold shard_of in Hs. repeat case_decide; try done. simplify_eq.
    pose proof (Z.mod_pos_bound (a / arc ring) (q ring)).
    apply int_of_small. lia. }
  unfold LookupKey, AfterKey, BeforeKey, Lookup, After, Before.
  rewrite Hadr, Hs. simpl. by rewrite Eint.
Qed.

Lemma key_routing_by_address_witness :
  ∃ a, Address toy_pair "k" = Some a ∧
       LookupKey toy_pair "k" = Lookup toy_pair a ∧
       AfterKey toy_pair 2 "k" = After toy_pair 2 a.
Proof.
  assert (Address toy_pair "k" = Some 107) as HA by (vm_compute; reflexivity).
  assert (wf toy_pair) as Hwf.
  { eapply Join_all_wf; [exact Join_toy_pair|].
    apply (New_wf _ _ New_toy). by vm_compute. }
  destruct (key_routing_by_address toy_pair "k" 107 Hwf HA) as [HL HAB].
  exists 107. split; [exact HA|]. split; [exact HL|]. apply (HAB 2).
Defined.

(** ** The replica lists of SuccessorOf *)

Lemma distinctNodes_loop_NoDup k i ring n s last head last' head' :
  distinctNodes_loop k i ring n s last head = Some (last', head') →
  NoDup (node <$> head) → NoDup (node <$> head').
Proof.
  revert i last head. induction k as [|k IH]; intros i last head H Hnd;
    simpl in H; [by simplify_eq|].
  destruct (at_ (hashes ring) _) as [h|]; [simpl in H|done].
  assert (NoDup (node <$> (if contains head (node h) then head
                           else head ++ [h]))) as Hnd'.
  { destruct (contains head (node h)) eqn:Hc; [done|].
    apply contains_false in Hc. rewrite fmap_app. apply NoDup_app.
    split; [done|]. split; [|apply NoDup_singleton].
    intros x Hx [->|Hnil]%elem_of_cons; [done|by apply elem_of_nil in Hnil]. }
  destruct (decide (Z.of_nat (length _) = int_of n)); [by simplify_eq|].
  by eapply IH.
Qed.

Lemma distinctNodes_loop_length k i ring n s last head last' head' :
  distinctNodes_loop k i ring n s last head = Some (last', head') →
  Z.of_nat (length head) < int_of n →
  Z.of_nat (length head') <= int_of n.
Proof.
  revert i last head. induction k as [|k IH]; intros i last head H Hlen;
    simpl in H; [simplify_eq; lia|].
  destruct (at_ (hashes ring) _) as [h|]; [simpl in H|done].
  destruct (decide (Z.of_nat (length _) = int_of n)) as [He|He];
    [simplify_eq; lia|].
  eapply IH; [done|].
  destruct (contains head (node h)); [lia|].
  rewrite length_app in *. cbn [length] in *. lia.
Qed.

Lemma primaryNodes_loop_nodes ring coord hs primary :
  node <$> primaryNodes_loop ring coord hs primary =
  (node <$> primary) ++ filter (λ nd, active ring nd = true) (node <$> hs).
Proof.
  revert primary. induction hs as [|h hs IH]; intros primary; simpl.
  - by rewrite app_nil_r.
  - rewrite IH, filter_cons. destruct (active ring (node h)) eqn:Ha.
    + rewrite decide_True by done. rewrite fmap_app. simpl.
      by rewrite <-app_assoc.
    + by rewrite decide_False by done.
Qed.

Lemma SuccessorOf_active ring n key primary handoff :
  SuccessorOf ring n key = Some (primary, handoff) →
  Forall (λ e, nodes ring !! node e = Some true) (primary ++ handoff).
Proof.
  intros H.
  apply SuccessorOf_inv in H
    as (shard&a&coord&last&head&Ha&Hc&Hd&Hn&Hp&Hho).
  pose proof (primaryNodes_loop_nodes ring coord head []) as Hpn.
  rewrite <-Hp in Hpn. simpl in Hpn.
  assert (Forall (λ e, nodes ring !! node e = Some true) primary) as Hact.
  { apply Forall_fmap with (f := node) (P := λ nd, nodes ring !! nd = Some true).
    rewrite Hpn. apply Forall_forall. intros nd Hin.
    apply list_elem_of_filter in Hin as [Hin _]. by apply active_true. }
  assert (handoff_ok ring coord primary handoff) as [Hall Hndh].
  { destruct Hho as [[_ ->]|[_ Hho]].
    - split; [done|constructor].
    - eapply handoff_loop_ok; [done|]. split; [done|constructor]. }
  apply Forall_app. split; [done|].
  eapply Forall_impl; [done|]. by intros e (_&?&_).
Qed.

(** [SuccessorOf] returns distinct nodes, all of them active members: no
    node occurs twice in the primary and handoff lists taken together, a
    member in handoff mode and an identifier that is no member occur in
    neither, for [n >= 1] the two lists hold at most [n] entries, and the
    handoff list is empty once the primary list has [n]. *)
Theorem SuccessorOf_distinct_replicas ring n key primary handoff :
  SuccessorOf ring n key = Some (primary, handoff) →
  NoDup (node <$> (primary ++ handoff)) ∧
  Forall (λ e, nodes ring !! node e = Some true) (primary ++ handoff) ∧
  (1 <= n → Z.of_nat (length (primary ++ handoff)) <= n) ∧
  (Z.of_nat (length primary) = n → handoff = []).
Proof.
  intros H.
  apply SuccessorOf_inv in H
    as (shard&a&coord&last&head&Ha&Hc&Hd&Hn&Hp&Hho).
  unfold make_ok in Hn.
  assert (n < 0 ∨ int_of n = n) as Hint.
  { destruct (decide (0 <= n)); [right; by apply int_of_small|left; lia]. }
  assert (int_of n = n) as En by (by apply int_of_small).
  pose proof (distinctNodes_loop_NoDup _ _ _ _ _ _ _ _ _ Hd (NoDup_nil_2))
    as Hnd.
  pose proof (primaryNodes_loop_nodes ring coord head []) as Hpn.
  rewrite <-Hp in Hpn. simpl in Hpn.
  assert (NoDup (node <$> primary)) as Hndp.
  { rewrite Hpn. by apply NoDup_filter. }
  assert (Forall (λ e, nodes ring !! node e = Some true) primary) as Hact.
  { apply Forall_fmap with (f := node) (P := λ nd, nodes ring !! nd = Some true).
    rewrite Hpn. apply Forall_forall. intros nd Hin.
    apply list_elem_of_filter in Hin as [Hin _]. by apply active_true. }
  assert (1 <= n → Z.of_nat (length primary) <= n) as Hlenp.
  { intros Hn1.
    apply distinctNodes_loop_length in Hd; [|simpl; lia].
    assert (length primary <= length head)%nat; [|lia].
    rewrite <-(length_fmap node primary), Hpn, <-(length_fmap node head).
    apply length_filter. }
  assert (handoff_ok ring coord primary handoff) as [Hall Hndh].
  { destruct Hho as [[_ ->]|[_ Hho]].
    - split; [done|constructor].
    - eapply handoff_loop_ok; [done|]. split; [done|constructor]. }
  split; [|split; [|split]].
  - rewrite fmap_app. apply NoDup_app. split; [done|]. split; [|done].
    intros nd Hin Hin'. apply list_elem_of_fmap in Hin' as (e&->&He).
    rewrite Forall_forall in Hall. by destruct (Hall e He) as (_&_&Hnot).
  - apply Forall_app. split; [done|].
    eapply Forall_impl; [done|]. by intros e (_&?&_).
  - intros Hn1. rewrite length_app.
    destruct Hho as [[Hfull ->]|[Hnf Hho]]; [simpl; lia|].
    rewrite En in *. specialize (Hlenp Hn1).
    rewrite iwrap_small in Hho by lia.
    eapply handoff_loop_length in Hho; [lia|lia|simpl; lia].
  - intros Hfull. destruct Hho as [[_ ->]|[Hnf Hho]]; [done|].
    rewrite En in Hnf. lia.
Qed.

Lemma SuccessorOf_distinct_replicas_witness :
  ∃ primary handoff,
    SuccessorOf (Handoff toy_pair "a") 2 "k" = Some (primary, handoff) ∧
    NoDup (node <$> (primary ++ handoff)) ∧
    "a"%string ∉ node <$> (primary ++ handoff).
Proof.
  assert (is_Some (SuccessorOf (Handoff toy_pair "a") 2 "k"))
    as [[primary handoff] HS] by (vm_compute; eexists; reflexivity).
  exists primary, handoff. split; [exact HS|].
  destruct (SuccessorOf_distinct_replicas _ _ _ _ _ HS) as (Hnd&Hact&_).
  split; [exact Hnd|].
  intros Hin. apply list_elem_of_fmap in Hin as (e&He&Hin).
  rewrite Forall_forall in Hact. specialize (Hact e Hin).
  rewrite <-He in Hact. revert Hact. vm_compute. discriminate.
Defined.

(** A node put in handoff mode is returned by no later [SuccessorOf], in
    either list, until it joins again; and on a ring without an active
    member [SuccessorOf] returns two empty lists. *)
Theorem Handoff_excludes_node ring x n key primary handoff :
  SuccessorOf (Handoff ring x) n key = Some (primary, handoff) →
  (x ∉ node <$> (primary ++ handoff)) ∧
  ((∀ y, y ≠ x → nodes ring !! y ≠ Some true) → primary = [] ∧ handoff = []).
Proof.
  intros HS. pose proof (SuccessorOf_active _ _ _ _ _ HS) as Hact.
  rewrite Forall_forall in Hact.
  split.
  - intros Hin. apply list_elem_of_fmap in Hin as (e&He&Hin).
    specialize (Hact e Hin). rewrite <-He in Hact. simpl in Hact.
    by rewrite lookup_insert_eq in Hact.
  - intros Hnone.
    assert (primary ++ handoff = []) as Hnil.
    { destruct (primary ++ handoff) as [|e l] eqn:E; [done|].
      exfalso. assert (e ∈ e :: l) as Hin by (by left).
      specialize (Hact e Hin). simpl in Hact.
      destruct (decide (node e = x)) as [Ex|Ex].
      - rewrite Ex, lookup_insert_eq in Hact. done.
      - rewrite lookup_insert_ne in Hact by done. by apply (Hnone (node e)). }
    by apply app_eq_nil in Hnil.
Qed.

Lemma Handoff_excludes_node_witness :
  ∃ primary handoff,
    SuccessorOf (Handoff toy_pair "k") 2 "k" = Some (primary, handoff) ∧
    "k"%string ∉ node <$> (primary ++ handoff).
Proof.
  assert (is_Some (SuccessorOf (Handoff toy_pair "k") 2 "k"))
    as [[primary handoff] HS] by (vm_compute; eexists; reflexivity).
  exists primary, handoff. split; [exact HS|].
  exact (proj1 (Handoff_excludes_node _ _ _ _ _ _ HS)).
Defined.

(** ** Invariants of the shard entries *)

(** A property of shard entries that the tokens of a join establish on the
    entries they claim is kept by [Join_tokens]. *)
Lemma Join_tokens_Forall (Q : Hash → Prop) n rk nd d ring ring' :
  (∀ main r a, rk <= r < rk + Z.of_nat n → Q main →
     Q {| hash := hash main; addr := a; rank := r; node := nd |}) →
  Forall Q (hashes ring) →
  Join_tokens n rk nd d ring = Some ring' → Forall Q (hashes ring').
Proof.
  revert rk d ring. induction n as [|n IH]; intros rk d ring HQ Hall H;
    simpl in H; [by simplify_eq|].
  destruct (addressHash ring _) as [[shard a]|]; [simpl in H|done].
  destruct (at_ (hashes ring) shard) as [main|] eqn:Hm; [simpl in H|done].
  assert (Q main) as Hmain.
  { apply at_Some in Hm as [_ Hm]. rewrite Forall_forall in Hall.
    by eapply Hall, list_elem_of_lookup_2. }
  destruct (claims main rk a).
  - unfold update in H. rewrite Hm in H. simpl in H.
    eapply (IH (rk + 1)); [|
      |exact H].
    + intros main' r a' Hr. apply HQ. lia.
    + simpl. apply Forall_insert; [done|]. apply HQ; [lia|done].
  - simpl in H. eapply (IH (rk + 1)); [| |exact H]; [|done].
    intros main' r a' Hr. apply HQ. lia.
Qed.

Lemma repair_head_Forall (Q : Hash → Prop) n i hs hs' h0 :
  (∀ h src, rank h = -1 → Q h → Q src → Q (with_node h (node src))) →
  at_ hs 0 = Some h0 → rank h0 = -1 →
  Forall Q hs → repair_head n i hs = Some hs' → Forall Q hs'.
Proof.
  intros HQ H0 Hr0 Hall. revert i. induction n as [|n IH]; intros i H;
    simpl in H; [by simplify_eq|].
  destruct (at_ hs i) as [h|] eqn:Hh; [simpl in H|done].
  destruct (decide (rank h ≠ -1)); [|by eapply IH].
  unfold updateNode in H. rewrite H0 in H. simpl in H.
  simplify_eq. apply Forall_insert; [done|].
  apply at_Some in Hh as [_ Hh]. apply at_Some in H0 as [_ H0].
  rewrite Forall_forall in Hall.
  apply (HQ h0 h); [done|..]; by eapply Hall, list_elem_of_lookup_2.
Qed.

Lemma repair_tail_Forall (Q : Hash → Prop) n i hs hs' :
  (∀ h src, rank h = -1 → Q h → Q src → Q (with_node h (node src))) →
  Forall Q hs → repair_tail n i hs = Some hs' → Forall Q hs'.
Proof.
  intros HQ. revert i hs. induction n as [|n IH]; intros i hs Hall H;
    simpl in H; [by simplify_eq|].
  destruct (at_ hs i) as [h|] eqn:Hh; [simpl in H|done].
  destruct (decide (rank h = -1)) as [Hu|Hc]; [|by eapply IH].
  destruct (at_ hs (i - 1)) as [p|] eqn:Hp; [simpl in H|done].
  unfold updateNode in H. rewrite Hh in H. simpl in H.
  eapply IH; [|exact H]. apply Forall_insert; [done|].
  apply at_Some in Hh as [_ Hh]. apply at_Some in Hp as [_ Hp].
  rewrite Forall_forall in Hall.
  apply (HQ h p); [done|..]; by eapply Hall, list_elem_of_lookup_2.
Qed.

(** [repair] only copies the node of one entry into an unclaimed entry. *)
Lemma repair_Forall (Q : Hash → Prop) ring ring' :
  (∀ h src, rank h = -1 → Q h → Q src → Q (with_node h (node src))) →
  Forall Q (hashes ring) → repair ring = Some ring' →
  Forall Q (hashes ring').
Proof.
  intros HQ Hall H. unfold repair in H.
  destruct (at_ (hashes ring) 0) as [h0|] eqn:H0; [simpl in H|done].
  destruct (decide (rank h0 = -1)).
  - destruct (repair_head _ _ _) as [hs1|] eqn:H1; [simpl in H|done].
    destruct (repair_tail _ _ _) as [hs2|] eqn:H2; [simpl in H|done].
    simplify_eq. simpl. eapply repair_tail_Forall; [done| |done].
    by eapply repair_head_Forall.
  - simpl in H.
    destruct (repair_tail _ _ _) as [hs2|] eqn:H2; [simpl in H|done].
    simplify_eq. simpl. by eapply repair_tail_Forall.
Qed.

(** An invariant of the entries through [Join]: [Q ns t] may depend on the
    member set and on the number of tokens. *)
Section entry_invariant.
Variable Q : gmap string bool → Z → Hash → Prop.
Hypothesis Q_mono : ∀ ns x b tk h, Q ns tk h → Q (<[x := b]> ns) tk h.
Hypothesis Q_claim : ∀ ns x tk main r a,
  0 <= r < int_of tk →
  Q (<[x := true]> ns) tk main →
  Q (<[x := true]> ns) tk
    {| hash := hash main; addr := a; rank := r; node := x |}.
Hypothesis Q_repair : ∀ ns tk h src,
  rank h = -1 → Q ns tk h → Q ns tk src → Q ns tk (with_node h (node src)).
Hypothesis Q_empty : ∀ tk a,
  Q ∅ tk {| hash := a; addr := 0; rank := -1; node := "" |}.

Definition entries_ok (ring : Ring) : Prop :=
  Forall (Q (nodes ring) (t ring)) (hashes ring).

Lemma Join_entries_ok ring nd ring' :
  Join ring nd = Some ring' → entries_ok ring → entries_ok ring'.
Proof.
  unfold entries_ok. intros H Hall. unfold Join in H.
  destruct (decide (is_Some (nodes ring !! nd))).
  { simplify_eq. simpl. eapply Forall_impl; [done|]. intros h.
    apply Q_mono. }
  destruct (Join_tokens _ _ _ _ _) as [r1|] eqn:H1; [simpl in H|done].
  destruct (repair r1) as [r2|] eqn:H2; [simpl in H|done]. simplify_eq.
  pose proof (Join_tokens_frame _ _ _ _ _ _ H1) as ((_&_&Et1&_)&En1&_).
  pose proof (repair_frame _ _ H2) as ((_&_&Et2&_)&En2&_).
  simpl. rewrite <-En2, <-En1, <-Et2, <-Et1.
  eapply repair_Forall; [apply Q_repair| |done].
  eapply Join_tokens_Forall; [| |done].
  - intros main r a Hr Hmain. apply Q_claim; [lia|done].
  - eapply Forall_impl; [done|]. intros h. apply Q_mono.
Qed.

Lemma Join_all_entries_ok order ring ring' :
  Join_all order ring = Some ring' → entries_ok ring → entries_ok ring'.
Proof.
  revert ring. induction order as [|nd order IH]; intros ring H Hok;
    simpl in H; [by simplify_eq|].
  destruct (Join ring nd) as [r1|] eqn:H1; [simpl in H|done].
  eapply IH; [done|]. by eapply Join_entries_ok.
Qed.

Lemma ring_empty_entries_ok ring ring' :
  ring_empty ring = Some ring' → entries_ok ring'.
Proof.
  unfold ring_empty. intros H.
  destruct (addresses ring) as [seq|]; [simpl in H|done]. simplify_eq.
  unfold entries_ok. simpl. apply Forall_fmap, Forall_forall.
  intros a _. apply Q_empty.
Qed.

Lemma apply_entries_ok ring o ring' :
  apply ring o = Some ring' → entries_ok ring → entries_ok ring'.
Proof.
  destruct o as [nd|nd order|nd]; simpl; intros H Hok.
  - by eapply Join_entries_ok.
  - unfold Leave in H.
    destruct (decide (is_Some (nodes ring !! nd))); [|by simplify_eq].
    destruct (ring_empty ring) as [r0|] eqn:H0; [simpl in H|done].
    eapply Join_all_entries_ok; [done|]. by eapply ring_empty_entries_ok.
  - simplify_eq. unfold entries_ok. simpl.
    eapply Forall_impl; [done|]. intros h. apply Q_mono.
Qed.

Lemma reachable_entries_ok P opts ring0 ring :
  New opts = Some ring0 → reachable_by P ring0 ring → entries_ok ring.
Proof.
  intros HN. induction 1 as [|r o r' _ IH _ Ha].
  - unfold New in HN. destruct (segment _) as [a|]; [simpl in HN|done].
    by eapply ring_empty_entries_ok.
  - by eapply apply_entries_ok.
Qed.
End entry_invariant.

(** A node identifier appears in the shard vector only if it is a member:
    at every point of the history of a ring built by [New], the node of a
    shard entry is a current member or the empty string, and the node of a
    token-claimed entry ([rank] other than [-1]) is a current member. *)
Theorem shard_owners_are_members opts ring0 ring :
  New opts = Some ring0 → reachable ring0 ring →
  Forall (λ h, (rank h ≠ -1 → is_Some (nodes ring !! node h)) ∧
               (node h = ""%string ∨ is_Some (nodes ring !! node h)))
    (Shards ring).
Proof.
  intros HN Hr.
  apply (reachable_entries_ok
           (λ ns _ h, (rank h ≠ -1 → is_Some (ns !! node h)) ∧
                      (node h = ""%string ∨ is_Some (ns !! node h)))
           ) with (P := permitted) (opts := opts) (ring0 := ring0);
    try done.
  - intros ns x b tk h [H1 H2].
    assert (∀ y, is_Some (ns !! y) → is_Some (<[x := b]> ns !! y)) as Hm.
    { intros y Hy. destruct (decide (x = y)) as [->|Hne].
      - rewrite lookup_insert_eq. by eexists.
      - by rewrite lookup_insert_ne. }
    split; [intros Hc; by apply Hm, H1|].
    destruct H2 as [?|?]; [by left|right; by apply Hm].
  - intros ns x tk main r a Hr' _. simpl.
    rewrite lookup_insert_eq. split; [by eexists|right; by eexists].
  - intros ns tk h src Hu [_ _] [_ H2]. simpl. split; [done|exact H2].
  - intros tk a. simpl. split; [done|by left].
Qed.

(** The rank of a shard entry is [-1] or the rank of a token, from [0] to
    [int(t) - 1]; an entry of rank [-1] was claimed by no token and has
    [addr] equal to [0], whoever its node is: [repair] leaves the marker. *)
Theorem shard_ranks_in_range opts ring0 ring :
  New opts = Some ring0 → reachable ring0 ring →
  Forall (λ h, (rank h = -1 ∧ addr h = 0) ∨ (0 <= rank h < int_of (t ring)))
    (Shards ring).
Proof.
  intros HN Hr.
  apply (reachable_entries_ok
           (λ _ tk h, (rank h = -1 ∧ addr h = 0) ∨
                      (0 <= rank h < int_of tk)))
    with (P := permitted) (opts := opts) (ring0 := ring0); try done.
  - intros ns x tk main r a Hr' _. simpl. by right.
  - intros tk a. simpl. by left.
Qed.

Lemma shard_owners_are_members_witness :
  Forall (λ h, node h = ""%string ∨ is_Some (nodes toy_pair !! node h))
    (Shards toy_pair).
Proof.
  assert (is_Some (Join toy_ring "a")) as [r1 H1] by runs.
  assert (is_Some (Join r1 "k")) as [r2 H2].
  { pose proof Join_toy_pair as HJ. simpl in HJ. rewrite H1 in HJ.
    simpl in HJ. destruct (Join r1 "k") as [r2|]; [by eexists|done]. }
  assert (r2 = toy_pair) as ->.
  { pose proof Join_toy_pair as HJ. simpl in HJ. rewrite H1 in HJ.
    simpl in HJ. rewrite H2 in HJ. simpl in HJ. congruence. }
  assert (reachable toy_ring toy_pair) as Hr.
  { eapply (reach_step _ _ r1 (OJoin "k")); [|exact I|exact H2].
    eapply (reach_step _ _ toy_ring (OJoin "a")); [|exact I|exact H1].
    constructor. }
  pose proof (shard_owners_are_members _ _ _ New_toy Hr) as Hall.
  eapply Forall_impl; [exact Hall|]. by intros h [_ ?].
Defined.

Lemma toy_pair_reachable : reachable toy_ring toy_pair.
Proof.
  assert (is_Some (Join toy_ring "a")) as [r1 H1] by runs.
  pose proof Join_toy_pair as HJ. simpl in HJ. rewrite H1 in HJ.
  simpl in HJ.
  destruct (Join r1 "k") as [r2|] eqn:H2; [simpl in HJ|done].
  assert (r2 = toy_pair) as -> by congruence.
  eapply (reach_step _ _ r1 (OJoin "k")); [|exact I|exact H2].
  eapply (reach_step _ _ toy_ring (OJoin "a")); [|exact I|exact H1].
  constructor.
Qed.

Lemma shard_ranks_in_range_witness :
  Forall (λ h, (rank h = -1 ∧ addr h = 0) ∨ (0 <= rank h < 2))
    (Shards toy_pair).
Proof.
  pose proof (shard_ranks_in_range _ _ _ New_toy toy_pair_reachable) as Hall.
  assert (int_of (t toy_pair) = 2) as Ht by (vm_compute; reflexivity).
  rewrite Ht in Hall. exact Hall.
Defined.

(** ** Cloning a configuration *)

(** [New(WithRing(r))] is the ring [r] as it was constructed: it has the
    configuration and the shard addresses of [r], no member and no claimed
    shard, wherever [r] is in its history. *)
Theorem WithRing_clones_configuration opts ring0 ring :
  New opts = Some ring0 → 0 <= q ring0 → reachable ring0 ring →
  New [WithRing ring] = Some ring0.
Proof.
  intros HN Hq Hr.
  destruct (New_wf _ _ HN Hq) as [Hwf _].
  destruct (reachable_wf _ _ _ Hr Hwf) as [_ (Em&Eq&Et&Eh&_)].
  unfold New in HN. fold (config opts) in HN.
  destruct (segment (config opts)) as [a|] eqn:Hs; [simpl in HN|done].
  unfold ring_empty in HN.
  destruct (addresses _) as [seq|] eqn:Ha; [simpl in HN|done].
  simplify_eq. simpl in Em, Eq, Et, Eh.
  unfold New, Options, segment, highest in *. simpl.
  rewrite <-Em, <-Eq.
  destruct (decide (q (config opts) = 0)); [done|]. simplify_eq. simpl.
  unfold ring_empty, addresses, addressShard in *. simpl in *.
  rewrite <-Eq.
  destruct (decide (make_ok (q (config opts)))); [|done]. simplify_eq.
  simpl. unfold set_hashes, set_nodes, set_arc. simpl.
  by rewrite <-Em, <-Eq, <-Et, <-Eh.
Qed.

Lemma WithRing_clones_configuration_witness :
  New [WithRing toy_pair] = Some toy_ring.
Proof.
  apply (WithRing_clones_configuration _ _ _ New_toy);
    [by vm_compute|exact toy_pair_reachable].
Defined.

(** ** The outcome of a sequence of joins *)

(** A token of a joining node: the shard and the address its digest falls
    in, its rank, and the node. *)
Record Token := mkToken {
  tk_shard : Z;
  tk_addr : Z;
  tk_rank : Z;
  tk_node : string
}.

(** The tokens the loop of [Join] draws for [nd] from rank [rk] on: each
    digest is the hash of the node and of the digest before. *)
Fixpoint tokens (n : nat) (rk : Z) (nd : string) (d : list byte) (ring : Ring)
  : list Token :=
  match n with
  | O => []
  | S n' =>
      let d' := ring_hash ring nd d in
      match addressHash ring d' with
      | Some (shard, a) => mkToken shard a rk nd :: tokens n' (rk + 1) nd d' ring
      | None => []
      end
  end.

Definition tokens_of (ring : Ring) (nd : string) : list Token :=
  tokens (Z.to_nat (int_of (t ring))) 0 nd [] ring.

(** What a token makes of the entry of its shard: the [switch] of [Join]. *)
Definition take_shard (main : Hash) (tok : Token) : Hash :=
  if claims main (tk_rank tok) (tk_addr tok)
  then {| hash := hash main; addr := tk_addr tok; rank := tk_rank tok;
          node := tk_node tok |}
  else main.

(** One turn of the loop of [Join] on the shard vector. *)
Definition place (hs : Hashes) (tok : Token) : Hashes :=
  match at_ hs (tk_shard tok) with
  | Some main =>
      if claims main (tk_rank tok) (tk_addr tok)
      then <[Z.to_nat (tk_shard tok) :=
               {| hash := hash main; addr := tk_addr tok; rank := tk_rank tok;
                  node := tk_node tok |}]> hs
      else hs
  | None => hs
  end.

Lemma addressHash_config r1 r2 d :
  same_config r1 r2 → addressHash r1 d = addressHash r2 d.
Proof.
  intros (Em&Eq&_&_&Ea). unfold addressHash, shard_of.
  by rewrite Em, Eq, Ea.
Qed.

Lemma tokens_config n rk nd d r1 r2 :
  same_config r1 r2 → tokens n rk nd d r1 = tokens n rk nd d r2.
Proof.
  intros Hc. revert rk d. induction n as [|n IH]; intros rk d; simpl; [done|].
  pose proof Hc as (_&_&_&Eh&_).
  unfold ring_hash. rewrite Eh, (addressHash_config r1 r2) by done.
  destruct (addressHash r2 _) as [[shard a]|]; [|done]. by rewrite IH.
Qed.

Lemma tokens_of_config r1 r2 nd :
  same_config r1 r2 → tokens_of r1 nd = tokens_of r2 nd.
Proof.
  intros Hc. unfold tokens_of. pose proof Hc as (_&_&Et&_).
  rewrite Et. by apply tokens_config.
Qed.

(** The loop of [Join] is the fold of [place] over the tokens. *)
Lemma Join_tokens_place n rk nd d ring ring' :
  Join_tokens n rk nd d ring = Some ring' →
  ring' = set_hashes (foldl place (hashes ring) (tokens n rk nd d ring)) ring.
Proof.
  revert rk d ring. induction n as [|n IH]; intros rk d ring H; simpl in H.
  - injection H as <-. by destruct ring.
  - simpl. destruct (addressHash ring _) as [[shard a]|]; [simpl in H|done].
    destruct (at_ (hashes ring) shard) as [main|] eqn:Hm; [simpl in H|done].
    simpl. unfold place at 2. simpl. rewrite Hm.
    destruct (claims main rk a).
    + unfold update in H. rewrite Hm in H. simpl in H.
      apply IH in H. rewrite H. simpl.
      by rewrite (tokens_config _ _ _ _ (set_hashes _ ring) ring).
    + simpl in H. apply IH in H. rewrite H. simpl.
      by rewrite (tokens_config _ _ _ _ (set_hashes _ ring) ring).
Qed.

Lemma tokens_rank n rk nd d ring :
  Forall (λ tok, rk <= tk_rank tok) (tokens n rk nd d ring).
Proof.
  revert rk d. induction n as [|n IH]; intros rk d; simpl; [constructor|].
  destruct (addressHash ring _) as [[shard a]|]; [|constructor].
  constructor; [simpl; lia|].
  eapply Forall_impl; [apply IH|]. simpl. intros. lia.
Qed.

(** The entry of shard [i] after a turn of the loop. *)
Lemma place_lookup hs tok (i : nat) :
  place hs tok !! i =
  (λ e, if decide (tk_shard tok = Z.of_nat i) then take_shard e tok else e)
    <$> hs !! i.
Proof.
  unfold place.
  destruct (at_ hs (tk_shard tok)) as [main|] eqn:Hm.
  - apply at_Some in Hm as [Hge Hm].
    destruct (decide (tk_shard tok = Z.of_nat i)) as [E|E].
    + rewrite E, Nat2Z.id in *. rewrite Hm. simpl. unfold take_shard.
      destruct (claims main _ _).
      * apply list_lookup_insert_eq. by eapply lookup_lt_Some.
      * done.
    + destruct (claims main _ _).
      * rewrite list_lookup_insert_ne by lia. by destruct (hs !! i).
      * by destruct (hs !! i).
  - destruct (decide (tk_shard tok = Z.of_nat i)) as [E|E];
      [|by destruct (hs !! i)].
    rewrite E, at_nat in Hm. by rewrite Hm.
Qed.

Lemma place_all_lookup hs T (i : nat) :
  foldl place hs T !! i =
  (λ e, foldl take_shard e (filter (λ tok, tk_shard tok = Z.of_nat i) T))
    <$> hs !! i.
Proof.
  revert hs. induction T as [|tok T IH]; intros hs; simpl.
  - by destruct (hs !! i).
  - rewrite IH, place_lookup, filter_cons.
    destruct (hs !! i) as [e|]; [simpl|done].
    by destruct (decide (tk_shard tok = Z.of_nat i)).
Qed.

(** *** What the tokens decide *)

(** Two entries agree on what the tokens decide: the address, the rank and,
    for a claimed entry, the owner. [repair] changes nothing else. *)
Definition core_eq (h1 h2 : Hash) : Prop :=
  hash h1 = hash h2 ∧ addr h1 = addr h2 ∧ rank h1 = rank h2 ∧
  (rank h1 ≠ -1 → node h1 = node h2).

Lemma core_eq_refl h : core_eq h h.
Proof. by repeat split. Qed.

Lemma core_eq_trans h1 h2 h3 : core_eq h1 h2 → core_eq h2 h3 → core_eq h1 h3.
Proof.
  intros (?&?&Hr&Hn) (?&?&?&Hn'). repeat split; try congruence.
  intros Hc. rewrite Hn by done. apply Hn'. by rewrite <-Hr.
Qed.

Lemma core_eq_claimed h1 h2 : core_eq h1 h2 → rank h1 ≠ -1 → h1 = h2.
Proof.
  destruct h1, h2. intros (?&?&?&Hn) Hc. simpl in *.
  rewrite (Hn Hc). congruence.
Qed.

Lemma cores_eq_refl hs : Forall2 core_eq hs hs.
Proof. apply Forall_Forall2_diag, Forall_forall. intros. apply core_eq_refl. Qed.

Lemma cores_eq_trans hs1 hs2 hs3 :
  Forall2 core_eq hs1 hs2 → Forall2 core_eq hs2 hs3 → Forall2 core_eq hs1 hs3.
Proof.
  intros H1 H2. apply Forall2_same_length_lookup.
  apply Forall2_same_length_lookup in H1 as [L1 H1].
  apply Forall2_same_length_lookup in H2 as [L2 H2].
  split; [congruence|]. intros i x z Hx Hz.
  destruct (lookup_lt_is_Some_2 hs2 i) as [y Hy].
  { rewrite <-L1. by eapply lookup_lt_Some. }
  eapply core_eq_trans; [by eapply H1|by eapply H2].
Qed.

Lemma claims_core m1 m2 r a : core_eq m1 m2 → claims m1 r a = claims m2 r a.
Proof. intros (_&Ea&Er&_). unfold claims. by rewrite Ea, Er. Qed.

Lemma place_core hs1 hs2 tok :
  Forall2 core_eq hs1 hs2 → Forall2 core_eq (place hs1 tok) (place hs2 tok).
Proof.
  intros H. unfold place, at_. destruct (decide (0 <= tk_shard tok)); [|done].
  destruct (hs1 !! Z.to_nat (tk_shard tok)) as [m1|] eqn:E1.
  - destruct (Forall2_lookup_l _ _ _ _ _ H E1) as (m2&E2&Hc). rewrite E2.
    rewrite (claims_core _ _ _ _ Hc). destruct (claims m2 _ _); [|done].
    apply Forall2_insert; [done|]. destruct Hc as (?&_). by repeat split.
  - apply lookup_ge_None in E1. rewrite (Forall2_length _ _ _ H) in E1.
    apply lookup_ge_None in E1. by rewrite E1.
Qed.

Lemma place_all_core hs1 hs2 T :
  Forall2 core_eq hs1 hs2 →
  Forall2 core_eq (foldl place hs1 T) (foldl place hs2 T).
Proof.
  revert hs1 hs2. induction T as [|tok T IH]; intros hs1 hs2 H; simpl; [done|].
  by apply IH, place_core.
Qed.

Lemma first_claimed_core l1 l2 :
  Forall2 core_eq l1 l2 → first_claimed l1 = first_claimed l2.
Proof.
  induction 1 as [|x y l1 l2 Hc _ IH]; simpl; [done|].
  pose proof Hc as (_&_&Er&_). rewrite <-Er.
  destruct (decide (rank x ≠ -1)); [|done].
  by rewrite (core_eq_claimed _ _ Hc).
Qed.

Lemma Forall2_rev {A B} (P : A → B → Prop) l k :
  Forall2 P l k → Forall2 P (rev l) (rev k).
Proof.
  induction 1; simpl; [constructor|]. apply Forall2_app; [done|].
  by constructor.
Qed.

Lemma nearest_claimed_core hs1 hs2 i :
  Forall2 core_eq hs1 hs2 → nearest_claimed hs1 i = nearest_claimed hs2 i.
Proof.
  intros H. unfold nearest_claimed. apply first_claimed_core.
  apply Forall2_app; apply Forall2_rev;
    [by apply Forall2_take|by apply Forall2_drop].
Qed.

Lemma nearest_claimed_is_Some hs (i : nat) h :
  hs !! i = Some h → rank h = -1 → Exists claimed hs →
  is_Some (nearest_claimed hs i).
Proof.
  intros Hi Hu Hex.
  destruct (nearest_claimed hs i) as [c|] eqn:Hn; [by eexists|].
  exfalso. apply first_claimed_None in Hn.
  apply Forall_app in Hn as [Hc1 Hc2]. apply Forall_rev in Hc1, Hc2.
  rewrite !rev_involutive in *.
  apply Exists_exists in Hex as (x&Hx&Hxc). unfold claimed in Hxc.
  rewrite <-(take_drop i hs) in Hx.
  apply elem_of_app in Hx as [Hx|Hx].
  { rewrite Forall_forall in Hc1. by apply Hc1 in Hx. }
  rewrite (drop_S _ h i) in Hx by done.
  apply elem_of_cons in Hx as [->|Hx]; [lia|].
  rewrite Forall_forall in Hc2. by apply Hc2 in Hx.
Qed.

(** The declarative rule reads only what the tokens decided. *)
Lemma repair_rule_core hs1 hs2 :
  Forall2 core_eq hs1 hs2 → Exists claimed hs1 →
  repair_rule hs1 = repair_rule hs2.
Proof.
  intros H Hex. apply list_eq. intros i.
  destruct (hs1 !! i) as [h1|] eqn:E1.
  - destruct (Forall2_lookup_l _ _ _ _ _ H E1) as (h2&E2&Hc).
    rewrite (repair_rule_lookup _ _ _ E1), (repair_rule_lookup _ _ _ E2).
    f_equal. pose proof Hc as (Eh&Ea&Er&_). rewrite <-Er.
    destruct (decide (rank h1 = -1)) as [Hu|Hcl].
    + rewrite <-(nearest_claimed_core hs1 hs2) by done.
      destruct (nearest_claimed_is_Some hs1 i h1) as [c ->]; [done..|].
      unfold with_node. by rewrite Eh, Ea, Er.
    + by apply core_eq_claimed.
  - pose proof E1 as E2. apply lookup_ge_None in E1, E2.
    rewrite (Forall2_length _ _ _ H) in E2.
    rewrite <-(repair_rule_length hs1) in E1.
    rewrite <-(repair_rule_length hs2) in E2.
    apply lookup_ge_None in E1, E2. by rewrite E1, E2.
Qed.

Lemma repair_rule_core_eq hs : Forall2 core_eq (repair_rule hs) hs.
Proof.
  apply Forall2_same_length_lookup. split; [apply repair_rule_length|].
  intros i x y Hx Hy. rewrite (repair_rule_lookup _ _ _ Hy) in Hx.
  injection Hx as <-.
  destruct (decide (rank y = -1)) as [Hu|Hc]; [|apply core_eq_refl].
  destruct (nearest_claimed hs i); [|apply core_eq_refl].
  repeat split. simpl. intros Hc. by destruct Hc.
Qed.

Lemma repair_hashes ring ring' :
  wf ring → Exists claimed (hashes ring) → repair ring = Some ring' →
  ring' = set_hashes (repair_rule (hashes ring)) ring.
Proof.
  intros [Hq Hl _] Hex H.
  destruct (lookup_lt_is_Some_2 (hashes ring) 0) as [h0 H0]; [lia|].
  unfold repair in H. rewrite (at_nat _ 0%nat), H0 in H. simpl mbind in H.
  rewrite (repair_head_rule ring h0) in H by done. simpl mbind in H.
  rewrite (int_of_small (q ring)) in H by lia.
  pose proof (repair_tail_rule (Z.to_nat (q ring - 1)) 1 (hashes ring) Hex)
    as Ht.
  change (Z.of_nat 1) with 1 in Ht. rewrite Ht in H by lia.
  simpl in H. by injection H as <-.
Qed.

(** *** The race for a shard *)

(** An entry is unclaimed, or holds a token of address other than zero. *)
Definition normal (h : Hash) : Prop :=
  (rank h = -1 ∧ addr h = 0) ∨ (0 <= rank h ∧ addr h ≠ 0).

Definition valid (tok : Token) : Prop := 0 <= tk_rank tok ∧ tk_addr tok ≠ 0.

Definition key (tok : Token) : Z * Z := (tk_rank tok, tk_addr tok).

(** On such entries the [switch] of [Join] is an order: the lower rank wins,
    and at equal rank the higher address. *)
Lemma claims_spec e r a :
  normal e → 0 <= r → a ≠ 0 →
  claims e r a = true ↔ rank e = -1 ∨ r < rank e ∨ (r = rank e ∧ addr e < a).
Proof.
  unfold claims, normal. intros Hn Hr Ha.
  repeat (case_decide); split; intros; try done; lia.
Qed.

Lemma take_shard_normal e tok : normal e → valid tok → normal (take_shard e tok).
Proof.
  intros Hn [Hr Ha]. unfold take_shard.
  destruct (claims e _ _); [|done]. right. simpl. lia.
Qed.

Lemma take_shard_comm e t1 t2 :
  normal e → valid t1 → valid t2 → key t1 ≠ key t2 →
  take_shard (take_shard e t1) t2 = take_shard (take_shard e t2) t1.
Proof.
  intros Hn [Hr1 Ha1] [Hr2 Ha2] Hk.
  assert (tk_rank t1 ≠ tk_rank t2 ∨ tk_addr t1 ≠ tk_addr t2) as Hk'.
  { destruct (decide (tk_rank t1 = tk_rank t2)); [|by left].
    destruct (decide (tk_addr t1 = tk_addr t2)); [|by right].
    exfalso. apply Hk. unfold key. congruence. }
  assert (∀ e' r a, normal e' → 0 <= r → a ≠ 0 →
            claims e' r a = false ↔
            ¬ (rank e' = -1 ∨ r < rank e' ∨ (r = rank e' ∧ addr e' < a)))
    as Hfalse.
  { intros e' r a ???. rewrite <-claims_spec by done.
    by destruct (claims e' r a). }
  unfold take_shard.
  destruct (claims e (tk_rank t1) (tk_addr t1)) eqn:C1;
    destruct (claims e (tk_rank t2) (tk_addr t2)) eqn:C2;
    rewrite ?C1, ?C2;
    repeat match goal with
    | |- context [claims ?x ?r ?a] =>
        let C := fresh "C" in destruct (claims x r a) eqn:C
    end;
    repeat match goal with
    | C : claims ?x _ _ = true |- _ =>
        apply claims_spec in C; [|first [done|right; simpl; lia]|done|done]
    | C : claims ?x _ _ = false |- _ =>
        apply Hfalse in C; [|first [done|right; simpl; lia]|done|done]
    end;
    simpl in *; try done; try (exfalso; unfold normal in Hn; lia).
Qed.

Lemma take_shard_all_normal T e :
  normal e → Forall valid T → normal (foldl take_shard e T).
Proof.
  revert e. induction T as [|tok T IH]; intros e Hn Hv; simpl; [done|].
  apply Forall_cons in Hv as [Hv1 Hv]. by apply IH; [apply take_shard_normal|].
Qed.

(** The winner of the race for a shard does not depend on the order in which
    the tokens arrive, when no two of them have the same rank and address. *)
Lemma take_shard_perm T1 T2 e :
  T1 ≡ₚ T2 → normal e → Forall valid T1 → NoDup (key <$> T1) →
  foldl take_shard e T1 = foldl take_shard e T2.
Proof.
  intros HP. revert e.
  induction HP as [|x l l' HP IH|x y l|l l' l'' HP1 IH1 HP2 IH2];
    intros e Hn Hv Hnd; simpl.
  - done.
  - apply Forall_cons in Hv as [Hv1 Hv]. rewrite fmap_cons in Hnd.
    apply NoDup_cons in Hnd as [_ Hnd].
    by apply IH; [apply take_shard_normal|..].
  - apply Forall_cons in Hv as [Hvy Hv]. apply Forall_cons in Hv as [Hvx Hv].
    rewrite !fmap_cons in Hnd. apply NoDup_cons in Hnd as [Hyx _].
    rewrite (take_shard_comm e y x); [done..|].
    intros E. apply Hyx. rewrite E. by left.
  - rewrite IH1 by done. apply IH2; [done|by rewrite <-HP1|].
    by rewrite <-HP1.
Qed.

Lemma place_all_perm hs T1 T2 :
  T1 ≡ₚ T2 → Forall normal hs → Forall valid T1 → NoDup (key <$> T1) →
  foldl place hs T1 = foldl place hs T2.
Proof.
  intros HP Hn Hv Hnd. apply list_eq. intros i. rewrite !place_all_lookup.
  destruct (hs !! i) as [e|] eqn:E; [simpl|done]. f_equal.
  apply take_shard_perm.
  - by apply filter_Permutation.
  - rewrite Forall_forall in Hn. by eapply Hn, list_elem_of_lookup_2.
  - apply Forall_forall. intros tok [_ Hin]%list_elem_of_filter.
    rewrite Forall_forall in Hv. by apply Hv.
  - assert (key <$> filter (λ tok, tk_shard tok = Z.of_nat i) T1
            `sublist_of` key <$> T1) as Hsub
      by apply fmap_sublist, sublist_filter.
    by eapply sublist_NoDup.
Qed.

(** *** The topology after a sequence of joins *)

Lemma bind_tokens_config r1 r2 (l : list string) :
  same_config r1 r2 → l ≫= tokens_of r1 = l ≫= tokens_of r2.
Proof.
  intros Hc. induction l as [|x l IH]; [done|].
  by rewrite !bind_cons, IH, (tokens_of_config r1 r2).
Qed.

(** The join of a new node: the race of its tokens, then the rule. *)
Lemma Join_hashes ring x ring' :
  wf ring → 0 < int_of (t ring) → nodes ring !! x = None →
  Join ring x = Some ring' →
  hashes ring' = repair_rule (foldl place (hashes ring) (tokens_of ring x)) ∧
  Exists claimed (foldl place (hashes ring) (tokens_of ring x)).
Proof.
  intros Hwf Ht Hx H. unfold Join in H.
  destruct (decide (is_Some (nodes ring !! x))) as [[? Hs]|_]; [congruence|].
  destruct (Join_tokens _ _ _ _ _) as [r1|] eqn:H1; [simpl in H|done].
  destruct (repair r1) as [r2|] eqn:H2; [simpl in H|done].
  injection H as <-.
  assert (Exists claimed (hashes r1)) as Hex.
  { destruct (Z.to_nat (int_of (t ring))) as [|n] eqn:En; [lia|].
    by eapply Join_tokens_Exists_claimed. }
  assert (wf r1) as Hwf1 by (eapply wf_frame; [by eapply Join_tokens_frame|done]).
  apply repair_hashes in H2; [|done..].
  apply Join_tokens_place in H1. fold (tokens_of ring x) in H1.
  rewrite H2. simpl. rewrite H1 in Hex |- *. simpl in *. done.
Qed.

(** After the joins of distinct new nodes, the shard vector is the rule
    applied to the outcome of the race of all their tokens: the repairs in
    between leave no trace. *)
Lemma Join_all_topology l ring hs0 r :
  l ≠ [] → wf ring → 0 < int_of (t ring) → NoDup l →
  (∀ x, x ∈ l → nodes ring !! x = None) →
  Forall2 core_eq (hashes ring) hs0 →
  Join_all l ring = Some r →
  hashes r = repair_rule (foldl place hs0 (l ≫= tokens_of ring)).
Proof.
  revert ring hs0. induction l as [|x l IH]; intros ring hs0 Hne Hwf Ht Hnd
    Hfresh Hc H; [done|].
  simpl in H. destruct (Join ring x) as [r1|] eqn:H1; [simpl in H|done].
  apply NoDup_cons in Hnd as [Hxl Hnd].
  destruct (Join_hashes ring x r1) as [Hh1 Hex1];
    [done|done|apply Hfresh; by left|done|].
  pose proof (place_all_core _ _ (tokens_of ring x) Hc) as Hc1.
  rewrite bind_cons, foldl_app.
  destruct l as [|y l].
  - simpl in H. injection H as <-. rewrite Hh1. by apply repair_rule_core.
  - pose proof (Join_frame _ _ _ H1) as (Hcfg&Hn1&_).
    rewrite (bind_tokens_config ring r1) by done.
    apply IH; [done|by eapply Join_wf| |done| |  |done].
    + destruct Hcfg as (_&_&<-&_). done.
    + intros z Hz. rewrite Hn1, lookup_insert_ne; [apply Hfresh; by right|].
      intros ->. done.
    + rewrite Hh1. eapply cores_eq_trans; [apply repair_rule_core_eq|done].
Qed.

(** No token of the nodes of [l] has address zero, and no two of them have
    both the same rank and the same address. *)
Definition tie_free (ring : Ring) (l : list string) : Prop :=
  Forall (λ tok, tk_addr tok ≠ 0) (l ≫= tokens_of ring) ∧
  NoDup (key <$> (l ≫= tokens_of ring)).

Lemma tokens_of_valid ring (l : list string) :
  Forall (λ tok, tk_addr tok ≠ 0) (l ≫= tokens_of ring) →
  Forall valid (l ≫= tokens_of ring).
Proof.
  intros Ha.
  assert (Forall (λ tok, 0 <= tk_rank tok) (l ≫= tokens_of ring)) as Hr.
  { apply Forall_forall. intros tok Hin.
    apply list_elem_of_bind in Hin as (x&Hin&_).
    pose proof (tokens_rank (Z.to_nat (int_of (t ring))) 0 x [] ring) as Hall.
    rewrite Forall_forall in Hall. by apply Hall. }
  rewrite Forall_forall in Ha, Hr. apply Forall_forall.
  intros tok Hin. split; [by apply Hr|by apply Ha].
Qed.

Lemma Ring_eq r1 r2 :
  same_config r1 r2 → hashes r1 = hashes r2 → nodes r1 = nodes r2 → r1 = r2.
Proof.
  destruct r1, r2. intros (?&?&?&?&?) ??. simpl in *. congruence.
Qed.

(** The joins of distinct nodes to a ring without members or claimed shards
    give the same ring in every order, when the tokens are free of ties. *)
Lemma Join_all_perm ring l1 l2 :
  wf ring → arc ring ≠ 0 → hasher_ok ring → 0 < int_of (t ring) →
  nodes ring = ∅ →
  Forall (λ h, rank h = -1 ∧ node h = ""%string ∧ addr h = 0) (hashes ring) →
  NoDup l1 → l1 ≡ₚ l2 → tie_free ring l1 →
  ∃ r, Join_all l1 ring = Some r ∧ Join_all l2 ring = Some r.
Proof.
  intros Hwf Ha Hh Ht Hn Hblank Hnd HP [Haddr Hkeys].
  destruct (Join_all_total l1 ring) as [r1 H1]; [done..|].
  destruct (Join_all_total l2 ring) as [r2 H2]; [done..|].
  exists r1. split; [done|]. rewrite H2. f_equal.
  destruct l1 as [|x l1].
  { apply Permutation_nil_l in HP. subst l2. simpl in *. congruence. }
  assert (l2 ≠ []) as Hne2.
  { intros ->. by apply Permutation_nil_r in HP. }
  assert (∀ l : list string, (∀ z, z ∈ l → nodes ring !! z = None)) as Hfresh.
  { intros l z _. by rewrite Hn, lookup_empty. }
  pose proof (Join_all_topology (x :: l1) ring (hashes ring) r1 ltac:(done)
                Hwf Ht Hnd (Hfresh _) (cores_eq_refl _) H1) as E1.
  assert (NoDup l2) as Hnd2 by (by rewrite <-HP).
  pose proof (Join_all_topology l2 ring (hashes ring) r2 Hne2 Hwf Ht Hnd2
                (Hfresh _) (cores_eq_refl _) H2) as E2.
  destruct (Join_all_frame _ _ _ H1) as (Hc1&Hn1&_).
  destruct (Join_all_frame _ _ _ H2) as (Hc2&Hn2&_).
  apply Ring_eq.
  - etrans; [symmetry; exact Hc2|exact Hc1].
  - rewrite E1, E2. f_equal. symmetry. apply place_all_perm; [|  |  |done].
    + by apply bind_Permutation.
    + eapply Forall_impl; [exact Hblank|]. intros h (?&_&?). by left.
    + by apply tokens_of_valid.
  - rewrite Hn1, Hn2. apply map_eq. intros y.
    rewrite !foldl_insert_true_lookup.
    destruct (decide (y ∈ x :: l1)) as [Hin|Hin];
      destruct (decide (y ∈ l2)) as [Hin2|Hin2]; try done.
    + by rewrite <-HP in Hin2.
    + by rewrite <-HP in Hin2.
Qed.

Lemma ring_empty_reachable opts ring0 ring :
  New opts = Some ring0 → 0 <= q ring0 → reachable ring0 ring →
  ring_empty ring = Some ring0.
Proof.
  intros HN Hq Hr.
  destruct (New_wf _ _ HN Hq) as [Hwf _].
  destruct (reachable_wf _ _ _ Hr Hwf) as [_ (Em&Eq&Et&Eh&Ea)].
  unfold New in HN. fold (config opts) in HN.
  destruct (segment (config opts)) as [a|] eqn:Hs; [simpl in HN|done].
  unfold ring_empty in HN.
  destruct (addresses _) as [seq|] eqn:Had; [simpl in HN|done].
  injection HN as <-. simpl in Em, Eq, Et, Eh, Ea.
  unfold ring_empty, addresses, addressShard in *. simpl in *.
  rewrite <-Eq, <-Ea.
  destruct (decide (make_ok (q (config opts)))); [|done].
  injection Had as <-.
  simpl. unfold set_hashes, set_nodes. simpl.
  by rewrite <-Em, <-Eq, <-Et, <-Eh, <-Ea.
Qed.

Lemma Join_all_reachable l ring0 ring r :
  reachable ring0 ring → Join_all l ring = Some r → reachable ring0 r.
Proof.
  revert ring. induction l as [|x l IH]; intros ring Hr H; simpl in H.
  - by injection H as <-.
  - destruct (Join ring x) as [r1|] eqn:H1; [simpl in H|done].
    eapply IH; [|done]. by eapply (reach_step _ _ ring (OJoin x)).
Qed.

(** The topology does not depend on the order in which nodes join, when
    their tokens are free of ties: for a ring built by [New] on which
    [Join] cannot panic, the joins of distinct nodes whose tokens have
    addresses other than zero, no two of them with both the same rank and
    the same address, succeed and give the same ring (shard owners, ranks,
    addresses and members) in every order. *)
Theorem Join_order_independent opts ring0 l1 l2 :
  New opts = Some ring0 → 0 <= q ring0 → arc ring0 ≠ 0 → hasher_ok ring0 →
  0 < int_of (t ring0) →
  NoDup l1 → l1 ≡ₚ l2 → tie_free ring0 l1 →
  ∃ r, Join_all l1 ring0 = Some r ∧ Join_all l2 ring0 = Some r.
Proof.
  intros HN Hq Ha Hh Ht Hnd HP Htie.
  destruct (New_wf _ _ HN Hq) as [Hwf Hn].
  apply Join_all_perm; try done. by eapply New_fresh.
Qed.

(** [Leave(x)] of a member rebuilds the topology from nothing: its result
    is that of joining the remaining members, in the order in which the map
    is ranged over, to the ring as [New] built it. *)
Theorem Leave_rebuilds_topology opts ring0 ring order x :
  New opts = Some ring0 → 0 <= q ring0 → reachable ring0 ring →
  is_Some (nodes ring !! x) →
  Leave order ring x = Join_all order ring0.
Proof.
  intros HN Hq Hr Hx. unfold Leave. rewrite decide_True by done.
  by rewrite (ring_empty_reachable _ _ _ HN Hq Hr).
Qed.

(** The ring after [Leave(x)] does not depend on the order in which Go
    ranges over the map of the remaining members, when their tokens are
    free of ties. *)
Theorem Leave_order_independent opts ring0 ring order1 order2 x :
  New opts = Some ring0 → 0 <= q ring0 → arc ring0 ≠ 0 → hasher_ok ring0 →
  0 < int_of (t ring0) → reachable ring0 ring →
  range_order (delete x (nodes ring)) order1 →
  range_order (delete x (nodes ring)) order2 →
  tie_free ring0 order1 →
  ∃ r, Leave order1 ring x = Some r ∧ Leave order2 ring x = Some r.
Proof.
  intros HN Hq Ha Hh Ht Hr Ho1 Ho2 Htie. unfold Leave.
  destruct (decide (is_Some (nodes ring !! x))); [|by eexists].
  rewrite (ring_empty_reachable _ _ _ HN Hq Hr). simpl.
  destruct (New_wf _ _ HN Hq) as [Hwf Hn].
  apply Join_all_perm; try done.
  - by eapply New_fresh.
  - unfold range_order in Ho1. rewrite Ho1. apply NoDup_fst_map_to_list.
  - unfold range_order in Ho1, Ho2. by rewrite Ho1, Ho2.
Qed.

(** A ring as [toy_ring] whose hasher appends a byte to what it is given,
    so that no digest is empty. *)
Definition pad_ring : Ring :=
  default zero_Ring
    (New [WithM8; WithQ 4; WithT 2; WithHash (λ d, d ++ [x07])]).

Lemma New_pad :
  New [WithM8; WithQ 4; WithT 2; WithHash (λ d, d ++ [x07])] = Some pad_ring.
Proof. apply default_Some. runs. Qed.

Lemma pad_ring_ok :
  0 <= q pad_ring ∧ arc pad_ring ≠ 0 ∧ hasher_ok pad_ring ∧
  0 < int_of (t pad_ring).
Proof.
  split; [by vm_compute|]. split; [by vm_compute|].
  split; [|by vm_compute].
  intros d. change (hasher pad_ring d) with (d ++ [x07]).
  change (m pad_ring) with 8. rewrite length_app. simpl.
  change (8 / 8) with 1. lia.
Qed.

Lemma pad_ring_tie_free l :
  bool_decide (Forall (λ tok, tk_addr tok ≠ 0) (l ≫= tokens_of pad_ring))
    = true →
  bool_decide (NoDup (key <$> (l ≫= tokens_of pad_ring))) = true →
  tie_free pad_ring l.
Proof.
  intros H1 H2. split; by eapply bool_decide_eq_true_1.
Qed.

(** The pad ring after [Join("0")], [Join("a")] and [Join("k")]. *)
Definition pad_trio : Ring :=
  default zero_Ring (Join_all ["0"; "a"; "k"]%string pad_ring).

Lemma Join_pad_trio : Join_all ["0"; "a"; "k"]%string pad_ring = Some pad_trio.
Proof. apply default_Some. runs. Qed.

Lemma Join_order_independent_witness :
  ∃ r, Join_all ["0"; "a"; "k"]%string pad_ring = Some r ∧
       Join_all ["k"; "0"; "a"]%string pad_ring = Some r.
Proof.
  destruct pad_ring_ok as (Hq&Ha&Hh&Ht).
  apply (Join_order_independent _ _ _ _ New_pad Hq Ha Hh Ht).
  - apply (bool_decide_eq_true_1 _). vm_compute. reflexivity.
  - solve_Permutation.
  - apply pad_ring_tie_free; vm_compute; reflexivity.
Defined.

Lemma Leave_rebuilds_topology_witness :
  Leave ["a"; "k"]%string pad_trio "0" =
  Join_all ["a"; "k"]%string pad_ring.
Proof.
  destruct pad_ring_ok as (Hq&_).
  apply (Leave_rebuilds_topology _ _ _ _ _ New_pad Hq).
  - eapply Join_all_reachable; [constructor|exact Join_pad_trio].
  - vm_compute. eexists. reflexivity.
Defined.

Lemma Leave_order_independent_witness :
  ∃ r, Leave ["a"; "k"]%string pad_trio "0" = Some r ∧
       Leave ["k"; "a"]%string pad_trio "0" = Some r.
Proof.
  destruct pad_ring_ok as (Hq&Ha&Hh&Ht).
  apply (Leave_order_independent _ _ _ _ _ _ New_pad Hq Ha Hh Ht).
  - eapply Join_all_reachable; [constructor|exact Join_pad_trio].
  - unfold range_order. vm_compute. solve_Permutation.
  - unfold range_order. vm_compute. solve_Permutation.
  - apply pad_ring_tie_free; vm_compute; reflexivity.
Defined.

(** ** What a join leaves alone *)

Lemma tokens_node n rk nd d ring :
  Forall (λ tok, tk_node tok = nd) (tokens n rk nd d ring).
Proof.
  revert rk d. induction n as [|n IH]; intros rk d; simpl; [constructor|].
  destruct (addressHash ring _) as [[shard a]|]; [|constructor].
  constructor; [done|apply IH].
Qed.

Lemma take_shard_all_owner T h x :
  Forall (λ tok, tk_node tok = x ∧ 0 <= tk_rank tok) T → rank h ≠ -1 →
  hash (foldl take_shard h T) = hash h ∧
  rank (foldl take_shard h T) ≠ -1 ∧
  (foldl take_shard h T = h ∨ node (foldl take_shard h T) = x).
Proof.
  revert h. induction T as [|tok T IH]; intros h HT Hc; simpl.
  - split; [done|]. split; [done|by left].
  - apply Forall_cons in HT as [[Hx Hr] HT].
    assert (hash (take_shard h tok) = hash h ∧ rank (take_shard h tok) ≠ -1 ∧
            (take_shard h tok = h ∨ node (take_shard h tok) = x))
      as (Eh1&Er1&Eo1).
    { unfold take_shard. destruct (claims h _ _); simpl.
      - split; [done|]. split; [lia|by right].
      - split; [done|]. split; [done|by left]. }
    destruct (IH (take_shard h tok) HT Er1) as (Eh&Er&Eo).
    split; [congruence|]. split; [done|].
    destruct Eo as [Eo|Eo]; [|by right].
    rewrite Eo. destruct Eo1 as [Eo1|Eo1]; [by left|by right].
Qed.

(** A join takes shards for the joining node only: a shard that was claimed
    before [Join(x)] is claimed after it, and its entry is what it was,
    owner, rank and address, unless a token of [x] took it. *)
Theorem Join_keeps_other_owners ring x ring' (i : nat) h :
  wf ring → Join ring x = Some ring' →
  hashes ring !! i = Some h → rank h ≠ -1 →
  ∃ h', hashes ring' !! i = Some h' ∧ hash h' = hash h ∧ rank h' ≠ -1 ∧
        (h' = h ∨ node h' = x).
Proof.
  intros Hwf H Hi Hc. unfold Join in H.
  destruct (decide (is_Some (nodes ring !! x))).
  { injection H as <-. exists h. simpl. by repeat split; [..|left]. }
  destruct (Join_tokens _ _ _ _ _) as [r1|] eqn:H1; [simpl in H|done].
  destruct (repair r1) as [r2|] eqn:H2; [simpl in H|done].
  injection H as <-. simpl.
  assert (wf r1) as Hwf1 by (eapply wf_frame; [by eapply Join_tokens_frame|done]).
  apply Join_tokens_place in H1. fold (tokens_of ring x) in H1.
  set (e := foldl take_shard h
              (filter (λ tok, tk_shard tok = Z.of_nat i) (tokens_of ring x))).
  assert (hashes r1 !! i = Some e) as Hi1.
  { rewrite H1. simpl. by rewrite place_all_lookup, Hi. }
  destruct (take_shard_all_owner
              (filter (λ tok, tk_shard tok = Z.of_nat i) (tokens_of ring x))
              h x) as (Eh&Er&Eo); [|done|].
  { apply Forall_forall. intros tok [_ Hin]%list_elem_of_filter.
    pose proof (tokens_node (Z.to_nat (int_of (t ring))) 0 x [] ring) as Hn.
    pose proof (tokens_rank (Z.to_nat (int_of (t ring))) 0 x [] ring) as Hr.
    rewrite Forall_forall in Hn, Hr. split; [by apply Hn|by apply Hr]. }
  fold e in Eh, Er, Eo.
  apply repair_hashes in H2; [|done|].
  - exists e. rewrite H2. simpl. rewrite (repair_rule_lookup _ _ _ Hi1).
    rewrite decide_False by done. done.
  - apply Exists_exists. exists e. split; [by eapply list_elem_of_lookup_2|done].
Qed.

Lemma Join_keeps_other_owners_witness :
  ∃ r h', Join toy_pair "0" = Some r ∧ hashes r !! 1%nat = Some h' ∧
          node h' = "k"%string.
Proof.
  assert (is_Some (Join toy_pair "0")) as [r HJ] by runs.
  assert (wf toy_pair) as Hwf.
  { eapply Join_all_wf; [exact Join_toy_pair|].
    apply (New_wf _ _ New_toy). by vm_compute. }
  assert (is_Some (hashes toy_pair !! 1%nat)) as [h Hh]
    by (vm_compute; eexists; reflexivity).
  assert (rank h = 0 ∧ node h = "k"%string) as [Hr Hk].
  { revert Hh. vm_compute. intros [= <-]. by split. }
  destruct (Join_keeps_other_owners toy_pair "0" r 1 h Hwf HJ Hh)
    as (h'&Hi&_&_&Ho); [lia|].
  exists r, h'. split; [exact HJ|]. split; [exact Hi|].
  destruct Ho as [->|Ho]; [exact Hk|].
  exfalso. revert HJ Hi Ho. clear. intros HJ Hi Ho.
  assert (node <$> (Join toy_pair "0" ≫= λ r, hashes r !! 1%nat)
          = Some "k"%string) as E by (vm_compute; reflexivity).
  rewrite HJ in E. simpl in E. rewrite Hi in E. simpl in E. congruence.
Defined.

(** ** The topology as a function of the member set *)

Lemma reachable_by_proper ring0 ring :
  reachable_by proper ring0 ring → reachable ring0 ring.
Proof.
  induction 1 as [|r o r' _ IH [Hp _] Ha]; [constructor|].
  by eapply (reach_step _ _ r o).
Qed.

Lemma keys_elem_of (ns : gmap string bool) y :
  y ∈ (map_to_list ns).*1 ↔ is_Some (ns !! y).
Proof. apply (range_order_elem_of ns (map_to_list ns).*1 y). by unfold range_order. Qed.

Lemma keys_insert_member (ns : gmap string bool) x b :
  is_Some (ns !! x) → (map_to_list (<[x := b]> ns)).*1 ≡ₚ (map_to_list ns).*1.
Proof.
  intros Hx. apply NoDup_Permutation; [apply NoDup_fst_map_to_list..|].
  intros y. rewrite !keys_elem_of. destruct (decide (x = y)) as [->|Hne].
  - rewrite lookup_insert_eq. split; [done|by eexists].
  - by rewrite lookup_insert_ne.
Qed.

Lemma keys_foldl_insert (l : list string) :
  NoDup l →
  (map_to_list (foldl (λ ns nd, <[nd := true]> ns) (∅ : gmap string bool) l)).*1
    ≡ₚ l.
Proof.
  intros Hnd. apply NoDup_Permutation; [apply NoDup_fst_map_to_list|done|].
  intros y. rewrite keys_elem_of, foldl_insert_true_lookup, lookup_empty.
  destruct (decide (y ∈ l)); split; done.
Qed.

Lemma Join_all_app l k ring :
  Join_all (l ++ k) ring = Join_all l ring ≫= Join_all k.
Proof.
  revert ring. induction l as [|x l IH]; intros ring; simpl; [done|].
  destruct (Join ring x) as [r1|]; simpl; [apply IH|done].
Qed.

(** The shard vector of a ring is that of the joins of its members, in some
    order, to the ring as [New] built it. *)
Definition canonical (ring0 ring : Ring) : Prop :=
  ∃ l r, NoDup l ∧ l ≡ₚ (map_to_list (nodes ring)).*1 ∧
         Join_all l ring0 = Some r ∧ hashes ring = hashes r.

Section canonical.
Variables (opts : list Option) (ring0 : Ring).
Hypothesis HN : New opts = Some ring0.
Hypothesis Hq : 0 <= q ring0.
Hypothesis Ha : arc ring0 ≠ 0.
Hypothesis Hh : hasher_ok ring0.
Hypothesis Ht : 0 < int_of (t ring0).

Lemma canonical_Join ring x ring' :
  wf ring → same_config ring0 ring → canonical ring0 ring →
  Join ring x = Some ring' → canonical ring0 ring'.
Proof.
  intros Hwf Hcfg (l&r&Hnd&HP&HJ&Eh) H.
  destruct (Join_frame _ _ _ H) as (_&Hn'&_).
  destruct (decide (is_Some (nodes ring !! x))) as [Hx|Hx].
  { exists l, r. split; [done|]. split; [|split; [done|]].
    - rewrite Hn'. by rewrite keys_insert_member.
    - unfold Join in H. rewrite decide_True in H by done.
      by injection H as <-. }
  assert (nodes ring !! x = None) as Hx'.
  { destruct (nodes ring !! x) eqn:E; [|done]. exfalso. apply Hx. by eexists. }
  destruct (New_wf _ _ HN Hq) as [Hwf0 Hn0].
  destruct (Join_all_frame _ _ _ HJ) as (Hcr&Hnr&_).
  pose proof (Join_all_wf _ _ _ HJ Hwf0) as Hwfr.
  assert (x ∉ l) as Hxl.
  { rewrite HP, keys_elem_of. done. }
  assert (nodes r !! x = None) as Hxr.
  { rewrite Hnr, foldl_insert_true_lookup, Hn0, lookup_empty.
    by rewrite decide_False. }
  pose proof Hcfg as (_&_&Et&_). pose proof Hcr as (_&_&Etr&Ehr&Ear).
  destruct (Join_total r x) as [r' Hr']; [done|congruence| |].
  { unfold hasher_ok. by rewrite <-Ehr, <-(proj1 Hcr). }
  exists (l ++ [x]), r'. split; [|split; [|split]].
  - apply NoDup_app. split; [done|]. split; [|apply NoDup_singleton].
    intros y Hy [->|Hnil]%elem_of_cons; [done|by apply elem_of_nil in Hnil].
  - rewrite Hn'. rewrite map_to_list_insert by done. rewrite fmap_cons.
    simpl. rewrite <-HP. symmetry. apply Permutation_cons_append.
  - rewrite Join_all_app, HJ. simpl. by rewrite Hr'.
  - destruct (Join_hashes ring x ring') as [E1 _]; [done|by rewrite <-Et|done..|].
    destruct (Join_hashes r x r') as [E2 _]; [done|by rewrite <-Etr|done..|].
    rewrite E1, E2, Eh. f_equal. f_equal. apply tokens_of_config.
    etrans; [symmetry; exact Hcfg|exact Hcr].
Qed.

Lemma canonical_apply ring o ring' :
  wf ring → same_config ring0 ring → reachable ring0 ring →
  canonical ring0 ring → proper ring o →
  apply ring o = Some ring' → canonical ring0 ring'.
Proof.
  intros Hwf Hcfg Hr Hcan [Hperm Hprop] H.
  destruct o as [x|x order|x]; simpl in *.
  - by eapply canonical_Join.
  - unfold Leave in H.
    destruct (decide (is_Some (nodes ring !! x))); [|by injection H as <-].
    rewrite (ring_empty_reachable _ _ _ HN Hq Hr) in H. simpl in H.
    assert (NoDup order) as Hnd.
    { unfold range_order in Hperm. rewrite Hperm.
      apply NoDup_fst_map_to_list. }
    exists order, ring'. split; [done|]. split; [|done].
    destruct (Join_all_frame _ _ _ H) as (_&->&_).
    destruct (New_wf _ _ HN Hq) as [_ ->]. by rewrite keys_foldl_insert.
  - injection H as <-. destruct Hcan as (l&r&Hnd&HP&HJ&Eh).
    exists l, r. split; [done|]. split; [|done]. simpl.
    by rewrite keys_insert_member.
Qed.

Lemma reachable_canonical ring :
  reachable_by proper ring0 ring → canonical ring0 ring.
Proof.
  destruct (New_wf _ _ HN Hq) as [Hwf0 Hn0].
  induction 1 as [|r o r' Hr IH Hp Hap].
  - exists [], ring0. split; [constructor|]. split; [|done].
    by rewrite Hn0, map_to_list_empty.
  - apply reachable_by_proper in Hr.
    destruct (reachable_wf _ _ _ Hr Hwf0) as [Hwf Hcfg].
    by eapply canonical_apply.
Qed.
End canonical.

(** The shard vector depends on the member set alone, when the tokens of
    the members are free of ties: after any history in which [Handoff] is
    applied to members only, the shards of the ring are those obtained by
    joining its members, in any order, to a newly built ring. How the
    members came, who left in between and who is in handoff mode leave no
    trace in the topology. *)
Theorem topology_determined_by_members opts ring0 ring l :
  New opts = Some ring0 → 0 <= q ring0 → arc ring0 ≠ 0 → hasher_ok ring0 →
  0 < int_of (t ring0) →
  reachable_by proper ring0 ring →
  range_order (nodes ring) l → tie_free ring0 l →
  ∃ r, Join_all l ring0 = Some r ∧ Shards ring = Shards r.
Proof.
  intros HN Hq Ha Hh Ht Hr Hl Htie.
  destruct (reachable_canonical opts ring0 HN Hq Ha Hh Ht ring Hr)
    as (l0&r0&Hnd0&HP0&HJ0&Eh).
  destruct (New_wf _ _ HN Hq) as [Hwf0 Hn0].
  unfold range_order in Hl.
  destruct (Join_all_perm ring0 l l0) as (r&H1&H2); try done.
  - by eapply New_fresh.
  - rewrite Hl. apply NoDup_fst_map_to_list.
  - by rewrite Hl, HP0.
  - exists r. split; [done|]. unfold Shards. congruence.
Qed.

(** [pad_trio] after [Handoff("a")] and [Leave("0")]. *)
Definition pad_duo : Ring :=
  default zero_Ring (Leave ["k"; "a"]%string (Handoff pad_trio "a") "0").

Lemma Leave_pad_duo :
  Leave ["k"; "a"]%string (Handoff pad_trio "a") "0" = Some pad_duo.
Proof. apply default_Some. runs. Qed.

Lemma Join_all_reachable_by_proper l ring0 ring r :
  reachable_by proper ring0 ring → Forall (λ x, x ≠ ""%string) l →
  Join_all l ring = Some r → reachable_by proper ring0 r.
Proof.
  revert ring. induction l as [|x l IH]; intros ring Hr Hl H; simpl in H.
  - by injection H as <-.
  - destruct (Join ring x) as [r1|] eqn:H1; [simpl in H|done].
    apply Forall_cons in Hl as [Hx Hl].
    eapply IH; [|done|done]. by eapply (reach_step _ _ ring (OJoin x)).
Qed.

Lemma pad_duo_reachable : reachable_by proper pad_ring pad_duo.
Proof.
  eapply (reach_step _ _ (Handoff pad_trio "a") (OLeave "0" ["k"; "a"]%string)).
  - eapply (reach_step _ _ pad_trio (OHandoff "a")).
    + eapply Join_all_reachable_by_proper;
        [constructor| |exact Join_pad_trio].
      repeat constructor; discriminate.
    + split; [exact I|]. vm_compute. eexists. reflexivity.
    + reflexivity.
  - split; [|exact I]. unfold permitted, range_order. vm_compute.
    solve_Permutation.
  - exact Leave_pad_duo.
Qed.

Lemma topology_determined_by_members_witness :
  ∃ r, Join_all ["a"; "k"]%string pad_ring = Some r ∧
       Shards pad_duo = Shards r.
Proof.
  destruct pad_ring_ok as (Hq&Ha&Hh&Ht).
  apply (topology_determined_by_members _ _ _ _ New_pad Hq Ha Hh Ht
           pad_duo_reachable).
  - unfold range_order. vm_compute. solve_Permutation.
  - apply pad_ring_tie_free; vm_compute; reflexivity.
Defined.

(** ** Repairing twice *)

Lemma set_hashes_id ring : set_hashes (hashes ring) ring = ring.
Proof. by destruct ring. Qed.

(** [repair] is idempotent on a ring with a claimed shard: a second
    [repair] finds nothing to change. *)
Theorem repair_idempotent ring ring' :
  wf ring → Exists claimed (hashes ring) → repair ring = Some ring' →
  repair ring' = Some ring'.
Proof.
  intros Hwf Hex H.
  assert (wf ring') as Hwf' by (eapply wf_frame; [by eapply repair_frame|done]).
  apply repair_hashes in H; [|done..].
  assert (Exists claimed (hashes ring')) as Hex'.
  { rewrite H. simpl. apply Exists_exists in Hex as (c&Hc&Hcc).
    apply list_elem_of_lookup in Hc as [i Hi].
    apply Exists_exists. exists c. split; [|done].
    apply list_elem_of_lookup. exists i.
    rewrite (repair_rule_lookup _ _ _ Hi). by rewrite decide_False. }
  destruct (repair_total ring' Hwf') as [r2 H2]. rewrite H2. f_equal.
  apply repair_hashes in H2; [|done..]. rewrite H2.
  rewrite <-(set_hashes_id ring') at 3. f_equal.
  rewrite H at 2. simpl. rewrite H. simpl.
  apply repair_rule_core; [apply repair_rule_core_eq|].
  by rewrite H in Hex'.
Qed.

Lemma repair_idempotent_witness :
  ∃ ring', repair patchy_ring = Some ring' ∧ repair ring' = Some ring'.
Proof.
  assert (wf patchy_ring) as Hwf.
  { split.
    - simpl. lia.
    - reflexivity.
    - intros i h. destruct i as [|[|[|[|i]]]]; simpl; intros [= <-];
        reflexivity. }
  assert (Exists claimed (hashes patchy_ring)) as Hex.
  { apply Exists_cons_tl, Exists_cons_hd. unfold claimed. simpl. lia. }
  destruct (repair_total patchy_ring Hwf) as [ring' H].
  exists ring'. split; [exact H|].
  exact (repair_idempotent patchy_ring ring' Hwf Hex H).
Defined.

(** ** The address of a key *)

Lemma lor_lt_pow2 a b n :
  0 <= a < 2 ^ n → 0 <= b < 2 ^ n → 0 <= Z.lor a b < 2 ^ n.
Proof.
  intros [Ha0 Ha] [Hb0 Hb].
  assert (0 <= Z.lor a b) as H0 by (by apply Z.lor_nonneg).
  split; [done|].
  destruct (decide (a = 0)) as [->|Hane]; [by rewrite Z.lor_0_l|].
  destruct (decide (b = 0)) as [->|Hbne]; [by rewrite Z.lor_0_r|].
  destruct (decide (Z.lor a b = 0)) as [->|Hne]; [lia|].
  apply Z.log2_lt_pow2; [lia|]. rewrite Z.log2_lor by done.
  apply Z.log2_lt_pow2 in Ha; [|lia]. apply Z.log2_lt_pow2 in Hb; [|lia].
  lia.
Qed.

Lemma byteZ_range b : 0 <= byteZ b < 2 ^ 8.
Proof. unfold byteZ. pose proof (Byte.to_N_bounded b). lia. Qed.

(** The loop of [addressHash] assembles the first bytes of the digest, the
    least significant first, and stays below [2^(8 * bytes)]. *)
Lemma addressHash_loop_bound (n : nat) (i : Z) digest a r :
  addressHash_loop n i digest a = Some r →
  0 <= i → 8 * (i + Z.of_nat n) <= 64 → 0 <= a < 2 ^ (8 * i) →
  0 <= r < 2 ^ (8 * (i + Z.of_nat n)).
Proof.
  revert i a. induction n as [|n IH]; intros i a H Hi Hn Ha; simpl in H.
  - injection H as <-. by rewrite Z.add_0_r.
  - destruct (at_ digest i) as [b|]; [simpl in H|done].
    apply IH in H; [|lia|lia|].
    + replace (i + 1 + Z.of_nat n) with (i + Z.of_nat (S n)) in H by lia. done.
    + pose proof (byteZ_range b) as Hb.
      rewrite (u64_id (8 * i)) by (unfold uint64; lia).
      rewrite Z.shiftl_mul_pow2 by lia.
      assert (0 < 2 ^ (8 * i)) as Hp by (apply Z.pow_pos_nonneg; lia).
      assert (2 ^ (8 * (i + 1)) = 2 ^ 8 * 2 ^ (8 * i)) as Hpow.
      { rewrite <-Z.pow_add_r by lia. f_equal. lia. }
      assert (2 ^ (8 * (i + 1)) <= 2 ^ 64) as Hle
        by (apply Z.pow_le_mono_r; lia).
      rewrite u64_id by (unfold uint64; nia).
      apply lor_lt_pow2; [|nia].
      split; [lia|]. rewrite Hpow. nia.
Qed.

(** The address of a key lies within the ring, and within the arc of the
    shard it is routed to: on a ring built by [New] with [m] a multiple of
    8 from 8 to 64, a key that can be hashed has an address in
    [[0, 2^m - 1]], its shard is [address / arc] (the reduction modulo [q]
    changes nothing), and the address belongs to
    [[shard * arc, (shard + 1) * arc - 1]].  [LookupKey] returns the entry
    of that shard, whose canonical address, when [(shard + 1) * arc] does
    not exceed [2^64], is the end of the arc: the first canonical address
    at or after the address of the key. *)
Theorem address_within_arc opts ring0 ring key shard a (k : Z) :
  New opts = Some ring0 → uint64 (q (config opts)) → reachable ring0 ring →
  arc ring0 ≠ 0 → 1 <= k <= 8 → m ring0 = 8 * k →
  address ring key = Some (shard, a) →
  0 <= a <= 2 ^ m ring - 1 ∧ highest ring = 2 ^ m ring - 1 ∧
  shard = a / arc ring ∧ 0 <= shard < q ring ∧
  shard * arc ring <= a <= (shard + 1) * arc ring - 1 ∧
  ∃ h, LookupKey ring key = Some h ∧
       Shards ring !! Z.to_nat shard = Some h ∧
       ((shard + 1) * arc ring <= 2 ^ 64 →
        hash h = (shard + 1) * arc ring - 1 ∧ a <= hash h < a + arc ring).
Proof.
  intros HN Hq Hr Harc Hk Hm Haddr. pose proof Haddr as Haddr0.
  destruct (New_config _ _ HN) as (Em&Eq&_&_&Earc).
  destruct (New_wf _ _ HN) as [Hwf0 _]; [rewrite Eq; by destruct Hq|].
  destruct (reachable_wf _ _ _ Hr Hwf0) as [Hwf (Em'&Eq'&_&_&Ea')].
  pose proof Hwf as [Hqr _ _].
  assert (highest ring = 2 ^ m ring - 1) as HH.
  { unfold highest. rewrite <-Em', Hm, Z.shiftl_1_l.
    destruct (decide (k = 8)) as [->|Hk8].
    - by vm_compute.
    - assert (2 ^ (8 * k) <= 2 ^ 56) by (apply Z.pow_le_mono_r; lia).
      assert (0 < 2 ^ (8 * k)) by (apply Z.pow_pos_nonneg; lia).
      rewrite (u64_id (2 ^ (8 * k))) by (unfold uint64; lia).
      apply u64_id. unfold uint64. lia. }
  assert (highest (config opts) = highest ring) as EH.
  { unfold highest. by rewrite <-Em', Em. }
  assert (0 < 2 ^ m ring <= 2 ^ 64) as Hpm.
  { rewrite <-Em', Hm. split; [apply Z.pow_pos_nonneg; lia|].
    apply Z.pow_le_mono_r; lia. }
  assert (arc ring = highest ring / q ring + 1) as Earc'.
  { rewrite <-Ea', Earc, EH, <-Eq, Eq'.
    assert (0 <= highest ring / q ring) by (apply Z.div_pos; lia).
    assert (highest ring / q ring <= highest ring)
      by (apply Z.div_le_upper_bound; [lia|nia]).
    destruct (decide (highest ring / q ring + 1 = 2 ^ 64)) as [E|E].
    - exfalso. apply Harc. rewrite Earc, EH, <-Eq, Eq', E. reflexivity.
    - apply u64_id. unfold uint64. lia. }
  unfold address, addressHash in Haddr.
  destruct (at_ _ 0) as [b0|]; [simpl in Haddr|done].
  destruct (addressHash_loop _ _ _ _) as [a'|] eqn:Hloop; [simpl in Haddr|done].
  destruct (shard_of ring a') as [s|] eqn:Hs; [simpl in Haddr|done].
  injection Haddr as <- <-.
  apply addressHash_loop_bound in Hloop;
    [|lia|rewrite <-Em', Hm; replace (8 * k / 8) with k by (by rewrite Z.mul_comm, Z.div_mul); lia
     |pose proof (byteZ_range b0); simpl; lia].
  replace (8 * (1 + Z.of_nat (Z.to_nat (m ring / 8 - 1)))) with (m ring)
    in Hloop.
  2:{ rewrite <-Em', Hm.
      replace (8 * k / 8) with k by (by rewrite Z.mul_comm, Z.div_mul). lia. }
  assert (0 < arc ring) as Hapos.
  { rewrite Earc'. assert (0 <= highest ring / q ring)
      by (apply Z.div_pos; lia). lia. }
  assert (highest ring < q ring * arc ring) as Hcover.
  { rewrite Earc'. pose proof (Z.mul_succ_div_gt (highest ring) (q ring)).
    lia. }
  assert (0 <= a' / arc ring < q ring) as Hdiv.
  { split; [apply Z.div_pos; lia|].
    apply Z.div_lt_upper_bound; [lia|]. lia. }
  unfold shard_of in Hs.
  destruct (decide (arc ring = 0)); [done|].
  destruct (decide (q ring = 0)); [done|]. injection Hs as <-.
  rewrite Z.mod_small in Haddr0 |- * by done.
  rewrite int_of_small in Haddr0 |- * by lia.
  pose proof (Z.mul_div_le a' (arc ring) Hapos) as Hlo.
  pose proof (Z.mul_succ_div_gt a' (arc ring) Hapos) as Hhi.
  split; [lia|]. split; [done|]. split; [done|]. split; [done|].
  split; [lia|].
  pose proof Hwf as [_ Hlen Hhash].
  destruct (at_is_Some (hashes ring) (a' / arc ring)) as [h Hh]; [lia|].
  exists h. split; [unfold LookupKey; by rewrite Haddr0|].
  pose proof Hh as Hh'. apply at_Some in Hh' as [_ Hh'].
  split; [done|]. intros Hle.
  assert (hash h = (a' / arc ring + 1) * arc ring - 1) as E.
  { rewrite (Hhash _ _ Hh'). unfold addressShard.
    rewrite Z2Nat.id by lia.
    rewrite (u64_id (a' / arc ring + 1)) by (unfold uint64; lia).
    destruct (decide ((a' / arc ring + 1) * arc ring = 2 ^ 64)) as [->|Hne].
    - reflexivity.
    - rewrite (u64_id ((a' / arc ring + 1) * arc ring))
        by (unfold uint64; nia).
      apply u64_id. unfold uint64. nia. }
  rewrite E. lia.
Qed.

Lemma address_within_arc_witness :
  ∃ shard a, address toy_pair "k" = Some (shard, a) ∧
             shard = a / arc toy_pair ∧ 0 <= shard < q toy_pair.
Proof.
  assert (is_Some (address toy_pair "k")) as [[shard a] HA]
    by (vm_compute; eexists; reflexivity).
  exists shard, a. split; [exact HA|].
  assert (q (config [WithM8; WithQ 4; WithT 2; WithHash (λ d, rev d)]) = 4)
    as Hq4 by reflexivity.
  assert (uint64 (q (config [WithM8; WithQ 4; WithT 2; WithHash (λ d, rev d)])))
    as Hq by (rewrite Hq4; unfold uint64; lia).
  assert (arc toy_ring ≠ 0) as Harc by (vm_compute; discriminate).
  assert (m toy_ring = 8 * 1) as Hm by (vm_compute; reflexivity).
  assert (1 <= 1 <= 8) as Hk by lia.
  pose proof (address_within_arc _ toy_ring toy_pair "k" shard a 1 New_toy
                Hq toy_pair_reachable Harc Hk Hm HA) as (_&_&Hs&Hqs&_).
  split; [exact Hs|exact Hqs].
Defined.

(** ** How many replicas SuccessorOf finds *)

Lemma contains_true hs nd : contains hs nd = true ↔ nd ∈ node <$> hs.
Proof.
  destruct (contains hs nd) eqn:E.
  - split; [intros _|done].
    destruct (decide (nd ∈ node <$> hs)) as [|Hn]; [done|].
    apply contains_false in Hn. congruence.
  - apply contains_false in E. split; [done|]. intros. by exfalso.
Qed.

Lemma walk_index_mod ring (s i : Z) :
  wf ring → q ring <= 2 ^ 62 → 0 <= s < q ring → 0 <= i <= q ring →
  Z.rem (iwrap (s + i)) (int_of (q ring)) = (s + i) mod q ring.
Proof.
  intros [Hq _ _] Hq62 Hs Hi.
  rewrite (int_of_small (q ring)) by lia. rewrite iwrap_small by lia.
  apply Z.rem_mod_nonneg; lia.
Qed.

Lemma walk_reaches (qq a j0 : Z) :
  0 <= a < qq → 0 <= j0 < qq →
  (a + (j0 - a) mod qq) mod qq = j0 ∧ 0 <= (j0 - a) mod qq < qq ∧
  (j0 ≠ a → (j0 - a) mod qq ≠ 0).
Proof.
  intros Ha Hj. split; [|split].
  - rewrite Z.add_mod_idemp_r by lia.
    replace (a + (j0 - a)) with j0 by lia. apply Z.mod_small. lia.
  - apply Z.mod_pos_bound. lia.
  - intros Hne E. destruct (decide (a <= j0)).
    + rewrite Z.mod_small in E by lia. lia.
    + replace (j0 - a) with (j0 - a + qq + (-1) * qq) in E by lia.
      rewrite Z_mod_plus_full in E. rewrite Z.mod_small in E by lia. lia.
Qed.

(** The walk of [distinctNodes]: the node of the shard it stopped at is
    among the nodes it returns, and so is the node of every shard it visited
    unless it stopped for having found [n]. *)
Lemma distinctNodes_loop_cover k i ring n s last head last' head' :
  wf ring → q ring <= 2 ^ 62 → 0 <= s < q ring → 0 <= i →
  i + Z.of_nat k <= q ring →
  distinctNodes_loop k i ring n s last head = Some (last', head') →
  (∀ x, x ∈ node <$> head → x ∈ node <$> head') ∧
  (k ≠ 0%nat →
   ∃ h, at_ (hashes ring) last' = Some h ∧ node h ∈ node <$> head') ∧
  (Z.of_nat (length head') = int_of n ∨
   ∀ j h, i <= j < i + Z.of_nat k →
          at_ (hashes ring) ((s + j) mod q ring) = Some h →
          node h ∈ node <$> head').
Proof.
  intros Hwf Hq62 Hs. revert i last head.
  induction k as [|k IH]; intros i last head Hi Hik H; simpl in H.
  - injection H as <- <-. split; [done|]. split; [done|].
    right. intros j h Hj. lia.
  - rewrite walk_index_mod in H by (try done; lia).
    destruct (at_ (hashes ring) ((s + i) mod q ring)) as [h|] eqn:Hh;
      [simpl in H|done].
    set (head1 := if contains head (node h) then head else head ++ [h]) in *.
    assert (∀ x, x ∈ node <$> head → x ∈ node <$> head1) as Hmono1.
    { intros x Hx. unfold head1. destruct (contains head (node h)); [done|].
      rewrite fmap_app. apply elem_of_app. by left. }
    assert (node h ∈ node <$> head1) as Hin1.
    { unfold head1. destruct (contains head (node h)) eqn:Hc.
      - by apply contains_true.
      - rewrite fmap_app. apply elem_of_app. right. by left. }
    destruct (decide (Z.of_nat (length head1) = int_of n)) as [He|He].
    + injection H as <- <-. split; [done|]. split; [|by left].
      intros _. by exists h.
    + destruct k as [|k].
      { simpl in H. injection H as <- <-. split; [done|]. split.
        - intros _. by exists h.
        - right. intros j h' Hj Hh'. assert (j = i) as -> by lia.
          rewrite Hh in Hh'. by injection Hh' as <-. }
      apply IH in H as (Hmono&HA&HB); [|lia|lia].
      split; [by intros x Hx; apply Hmono, Hmono1|]. split.
      * intros _. by apply HA.
      * destruct HB as [HB|HB]; [by left|]. right. intros j h' Hj Hh'.
        destruct (decide (j = i)) as [->|Hne].
        -- rewrite Hh in Hh'. injection Hh' as <-. by apply Hmono.
        -- apply (HB j); [lia|done].
Qed.

(** The walk of the handoff loop: unless it stopped for having found [hn]
    entries, every active node of a shard it visited is in the handoff list
    or in the primary list. *)
Lemma handoff_loop_cover k i ring coord last primary hn handoff handoff' :
  wf ring → q ring <= 2 ^ 62 → 0 <= last < q ring → 0 <= i →
  i + Z.of_nat k <= q ring →
  handoff_loop k i ring coord last primary hn handoff = Some handoff' →
  (∀ x, x ∈ node <$> handoff → x ∈ node <$> handoff') ∧
  (Z.of_nat (length handoff') = hn ∨
   ∀ j h, i <= j < i + Z.of_nat k →
          at_ (hashes ring) ((last + j) mod q ring) = Some h →
          active ring (node h) = true →
          node h ∈ node <$> handoff' ∨ node h ∈ node <$> primary).
Proof.
  intros Hwf Hq62 Hs. revert i handoff.
  induction k as [|k IH]; intros i handoff Hi Hik H; simpl in H.
  - injection H as <-. split; [done|]. right. intros j h Hj. lia.
  - rewrite walk_index_mod in H by (try done; lia).
    destruct (at_ (hashes ring) ((last + i) mod q ring)) as [h|] eqn:Hh;
      [simpl in H|done].
    set (e := {| hash := hash coord; addr := addr h; rank := rank h;
                 node := node h |}) in *.
    set (handoff1 := if active ring (node h) && negb (contains handoff (node h))
                        && negb (contains primary (node h))
                     then handoff ++ [e] else handoff) in *.
    assert (∀ x, x ∈ node <$> handoff → x ∈ node <$> handoff1) as Hmono1.
    { intros x Hx. unfold handoff1. destruct (_ && _ && _); [|done].
      rewrite fmap_app. apply elem_of_app. by left. }
    assert (active ring (node h) = true →
            node h ∈ node <$> handoff1 ∨ node h ∈ node <$> primary) as Hin1.
    { intros Ha. unfold handoff1. rewrite Ha.
      destruct (contains handoff (node h)) eqn:Hc1; simpl.
      { left. by apply contains_true. }
      destruct (contains primary (node h)) eqn:Hc2; simpl.
      { right. by apply contains_true. }
      left. rewrite fmap_app. apply elem_of_app. right. by left. }
    destruct (decide (Z.of_nat (length handoff1) = hn)) as [He|He].
    + injection H as <-. split; [done|by left].
    + apply IH in H as (Hmono&HB); [|lia|lia].
      split; [by intros x Hx; apply Hmono, Hmono1|].
      destruct HB as [HB|HB]; [by left|]. right. intros j h' Hj Hh' Ha.
      destruct (decide (j = i)) as [->|Hne].
      * rewrite Hh in Hh'. injection Hh' as <-.
        destruct (Hin1 Ha) as [Hin|Hin]; [left; by apply Hmono|by right].
      * apply (HB j); [lia|done|done].
Qed.

Lemma distinctNodes_loop_size k i ring n s last head last' head' :
  distinctNodes_loop k i ring n s last head = Some (last', head') →
  (length head' <= length head + k)%nat.
Proof.
  revert i last head. induction k as [|k IH]; intros i last head H;
    simpl in H; [injection H as <- <-; lia|].
  destruct (at_ (hashes ring) _) as [h|]; [simpl in H|done].
  assert (length (if contains head (node h) then head else head ++ [h])
          <= length head + 1)%nat as Hle.
  { destruct (contains head (node h)); [lia|].
    rewrite length_app. simpl. lia. }
  destruct (decide (_ = _)); [injection H as <- <-; lia|].
  apply IH in H. lia.
Qed.

Lemma iwrap_neg x : - 2 ^ 63 <= x < 0 → iwrap x = x.
Proof.
  intros Hx. unfold iwrap, int_of, u64.
  assert (x mod 2 ^ 64 = x + 2 ^ 64) as ->.
  { symmetry. apply (Z.mod_unique x (2 ^ 64) (-1)); lia. }
  rewrite decide_False by lia. lia.
Qed.

(** [SuccessorOf] returns fewer than [n] replicas only when the ring has
    fewer than [n] active owners: on a well-formed ring of at most [2^62]
    shards, when the two lists together hold fewer than [n] entries, every
    active member that owns a shard is in one of them. For [n = 0] the
    same holds: the request for no replica lists every active owner. *)
Theorem SuccessorOf_complete ring n key primary handoff :
  wf ring → q ring <= 2 ^ 62 → 0 <= n →
  SuccessorOf ring n key = Some (primary, handoff) →
  n = 0 ∨ Z.of_nat (length (primary ++ handoff)) < n →
  ∀ h, h ∈ hashes ring → nodes ring !! node h = Some true →
       node h ∈ node <$> (primary ++ handoff).
Proof.
  intros Hwf Hq62 Hn0 H Hfew h Hin Hact.
  pose proof Hwf as [Hq Hl _].
  apply SuccessorOf_inv in H
    as (shard&a&coord&last&head&Ha&Hc&Hd&Hn&Hp&Hho).
  unfold make_ok in Hn. rewrite (int_of_small n) in * by done.
  rewrite (int_of_small (q ring)) in * by lia.
  assert (0 <= shard < q ring) as Hs.
  { pose proof (at_lt _ _ _ Hc). apply at_Some in Hc as [? _]. lia. }
  pose proof (distinctNodes_loop_last _ _ _ _ _ 0 _ _ _ Hq ltac:(lia) Hd)
    as Hlast.
  pose proof (distinctNodes_loop_size _ _ _ _ _ _ _ _ _ Hd) as Hsize.
  simpl in Hsize.
  apply distinctNodes_loop_cover in Hd as (_&HA&HB); [|done|done|done|lia|lia].
  rewrite (int_of_small n) in HB by done.
  destruct HA as (hl&Hhl&Hlin); [lia|].
  pose proof (primaryNodes_loop_nodes ring coord head []) as Hpn.
  rewrite <-Hp in Hpn. simpl in Hpn.
  assert (∀ h', node h' ∈ node <$> head →
                nodes ring !! node h' = Some true →
                node h' ∈ node <$> primary) as Hprim.
  { intros h' Hh' Ha'. rewrite Hpn. apply list_elem_of_filter.
    split; [by apply active_true|done]. }
  apply list_elem_of_lookup in Hin as [j0 Hj0].
  assert (0 <= Z.of_nat j0 < q ring) as Hj0r.
  { apply lookup_lt_Some in Hj0. lia. }
  rewrite <-at_nat in Hj0.
  rewrite fmap_app, elem_of_app.
  (* the shard the walk of distinctNodes stopped at *)
  destruct (decide (Z.of_nat j0 = last)) as [Elast|Nlast].
  { left. rewrite Elast, Hhl in Hj0. injection Hj0 as ->. by apply Hprim. }
  destruct Hho as [[Hfull ->]|[Hnf Hho]].
  - (* the primary list holds n entries *)
    left. rewrite app_nil_r in Hfew. destruct Hfew as [->|Hlt]; [|lia].
    destruct HB as [HB|HB].
    + destruct head; [|cbn [length] in HB; lia].
      simpl in Hlin. by apply elem_of_nil in Hlin.
    + destruct (walk_reaches (q ring) shard (Z.of_nat j0)) as (E&Hr&_);
        [done..|].
      apply Hprim; [|done].
      apply (HB ((Z.of_nat j0 - shard) mod q ring)); [lia|].
      by rewrite E.
  - apply handoff_loop_cover in Hho as (_&HC); [|done|done|done|lia|lia].
    assert (Z.of_nat (length primary) <= q ring) as Hlenp.
    { assert (length primary <= length head)%nat as Hle.
      { rewrite <-(length_fmap node primary), Hpn, <-(length_fmap node head).
        apply length_filter. }
      lia. }
    destruct HC as [HC|HC].
    + exfalso. rewrite length_app in Hfew.
      destruct Hfew as [->|Hlt].
      * destruct (decide (length primary = 0%nat)) as [E0|E0]; [lia|].
        rewrite iwrap_neg in HC by lia. lia.
      * rewrite iwrap_small in HC by lia. lia.
    + destruct (walk_reaches (q ring) last (Z.of_nat j0)) as (E&Hr&Hne);
        [done..|].
      destruct (HC ((Z.of_nat j0 - last) mod q ring) h) as [Hin|Hin];
        [specialize (Hne Nlast); lia|by rewrite E|by apply active_true
        |by right|by left].
Qed.

Lemma SuccessorOf_complete_witness :
  ∃ primary handoff,
    SuccessorOf pad_trio 3 "k" = Some (primary, handoff) ∧
    "0"%string ∈ node <$> (primary ++ handoff).
Proof.
  assert (is_Some (SuccessorOf pad_trio 3 "k"))
    as [[primary handoff] HS] by (vm_compute; eexists; reflexivity).
  exists primary, handoff. split; [exact HS|].
  assert (wf pad_trio) as Hwf.
  { eapply Join_all_wf; [exact Join_pad_trio|].
    apply (New_wf _ _ New_pad). by vm_compute. }
  assert (q pad_trio <= 2 ^ 62) as Hq62.
  { assert (q pad_trio = 4) as -> by (vm_compute; reflexivity). lia. }
  assert (Z.of_nat (length (primary ++ handoff)) < 3) as Hlen.
  { assert ((λ r, Z.of_nat (length (r.1 ++ r.2)))
              <$> SuccessorOf pad_trio 3 "k" = Some 2) as E
      by (vm_compute; reflexivity).
    rewrite HS in E. simpl in E. injection E as E. lia. }
  assert (is_Some (hashes pad_trio !! 0%nat)) as [h Hh]
    by (vm_compute; eexists; reflexivity).
  assert (node h = "0"%string) as Hnode.
  { revert Hh. vm_compute. by intros [= <-]. }
  assert (nodes pad_trio !! node h = Some true) as Hact.
  { rewrite Hnode. vm_compute. reflexivity. }
  pose proof (SuccessorOf_complete pad_trio 3 "k" primary handoff Hwf Hq62
                ltac:(lia) HS (or_intror Hlen) h
                (list_elem_of_lookup_2 _ _ _ Hh) Hact) as Hin.
  rewrite Hnode in Hin. exact Hin.
Defined.

(** ** The first replica *)

Lemma distinctNodes_loop_prefix k i ring n s last head0 last' head' :
  distinctNodes_loop k i ring n s last head0 = Some (last', head') →
  ∃ tl, head' = head0 ++ tl.
Proof.
  revert i last head0. induction k as [|k IH]; intros i last head0 H;
    simpl in H.
  - injection H as <- <-. exists []. by rewrite app_nil_r.
  - destruct (at_ (hashes ring) _) as [h|]; [simpl in H|done].
    assert (∃ tl, (if contains head0 (node h) then head0 else head0 ++ [h])
                  = head0 ++ tl) as [tl1 E1].
    { destruct (contains head0 (node h)); [exists []; by rewrite app_nil_r|].
      by exists [h]. }
    destruct (decide (_ = _)).
    + injection H as <- <-. by exists tl1.
    + apply IH in H as [tl ->]. rewrite E1. exists (tl1 ++ tl).
      by rewrite app_assoc.
Qed.

Lemma primaryNodes_loop_prefix ring coord hs primary :
  ∃ tl, primaryNodes_loop ring coord hs primary = primary ++ tl.
Proof.
  revert primary. induction hs as [|h hs IH]; intros primary; simpl.
  - exists []. by rewrite app_nil_r.
  - destruct (active ring (node h)); [|apply IH].
    destruct (IH (primary ++ [{| hash := hash coord; addr := addr h;
                                 rank := rank h; node := node h |}]))
      as [tl ->].
    eexists. by rewrite <-app_assoc.
Qed.

(** The owner of the shard a key maps to is its first replica: for
    [n >= 1], when the node of the coordinator shard is an active member,
    the primary list returned by [SuccessorOf] starts with the entry of that
    shard, as it stands in the shard vector. *)
Theorem SuccessorOf_coordinator_first ring n key primary handoff shard a coord :
  wf ring → q ring <= 2 ^ 62 → 1 <= n →
  SuccessorOf ring n key = Some (primary, handoff) →
  address ring key = Some (shard, a) →
  at_ (hashes ring) shard = Some coord →
  nodes ring !! node coord = Some true →
  ∃ rest, primary = coord :: rest.
Proof.
  intros Hwf Hq62 Hn1 H Ha Hc Hact.
  pose proof Hwf as [Hq Hl _].
  apply SuccessorOf_inv in H
    as (shard'&a'&coord'&last&hd&Ha'&Hc'&Hd&Hn&Hp&_).
  rewrite Ha in Ha'. injection Ha' as <- <-.
  rewrite Hc in Hc'. injection Hc' as <-.
  assert (0 <= shard < q ring) as Hs.
  { pose proof (at_lt _ _ _ Hc). apply at_Some in Hc as [? _]. lia. }
  destruct (Z.to_nat (int_of (q ring))) as [|k] eqn:Ek.
  { rewrite int_of_small in Ek by lia. lia. }
  simpl in Hd. rewrite walk_index_mod in Hd by (try done; lia).
  rewrite Z.add_0_r, Z.mod_small in Hd by done.
  rewrite Hc in Hd. simpl in Hd.
  assert (∃ tl, hd = coord :: tl) as [tl ->].
  { destruct (decide (_ = _)).
    - injection Hd as <- <-. by exists [].
    - apply distinctNodes_loop_prefix in Hd as [tl ->]. by exists tl. }
  simpl in Hp. apply active_true in Hact. rewrite Hact in Hp.
  destruct (primaryNodes_loop_prefix ring coord tl
              [{| hash := hash coord; addr := addr coord; rank := rank coord;
                  node := node coord |}]) as [rest E].
  rewrite E in Hp. exists rest. rewrite Hp. simpl. by destruct coord.
Qed.

Lemma SuccessorOf_coordinator_first_witness :
  ∃ primary handoff coord rest,
    SuccessorOf pad_trio 3 "k" = Some (primary, handoff) ∧
    hashes pad_trio !! 1%nat = Some coord ∧ primary = coord :: rest.
Proof.
  assert (is_Some (SuccessorOf pad_trio 3 "k"))
    as [[primary handoff] HS] by (vm_compute; eexists; reflexivity).
  assert (wf pad_trio) as Hwf.
  { eapply Join_all_wf; [exact Join_pad_trio|].
    apply (New_wf _ _ New_pad). by vm_compute. }
  assert (q pad_trio <= 2 ^ 62) as Hq62.
  { assert (q pad_trio = 4) as -> by (vm_compute; reflexivity). lia. }
  assert (address pad_trio "k" = Some (1, 107)) as Ha
    by (vm_compute; reflexivity).
  assert (is_Some (hashes pad_trio !! 1%nat)) as [coord Hc]
    by (vm_compute; eexists; reflexivity).
  assert (node coord = "k"%string) as Hnode.
  { revert Hc. vm_compute. by intros [= <-]. }
  assert (nodes pad_trio !! node coord = Some true) as Hact.
  { rewrite Hnode. vm_compute. reflexivity. }
  pose proof (at_nat (hashes pad_trio) 1) as Hat.
  change (Z.of_nat 1) with 1 in Hat. rewrite Hc in Hat.
  assert (1 <= 3) as Hn by lia.
  destruct (SuccessorOf_coordinator_first pad_trio 3 "k" primary handoff 1 107
              coord Hwf Hq62 Hn HS Ha Hat Hact) as [rest E].
  exists primary, handoff, coord, rest.
  split; [exact HS|]. split; [exact Hc|exact E].
Defined.

(** ** A ring with one member *)

(** A ring with a single member routes everything to it: on a ring built
    by [New] with [0 < t], after any history in which joining identifiers
    are non-empty and [Handoff] is applied to members only, if [x] is the
    only member then [x] is the node of every shard entry, whether [x] is
    active or in handoff mode. *)
Theorem single_member_owns_all opts ring0 ring x b :
  New opts = Some ring0 → uint64 (q ring0) → 0 < t ring0 < 2 ^ 63 →
  reachable_by proper ring0 ring → nodes ring = {[ x := b ]} →
  Forall (λ h, node h = x) (Shards ring).
Proof.
  intros HN Hq Ht Hr Hn.
  destruct (New_wf _ _ HN) as [Hwf0 Hn0]; [by destruct Hq|].
  assert (owned ring0) as Hown0.
  { split.
    - by rewrite Hn0, lookup_empty.
    - eapply Forall_impl; [by eapply New_fresh; [|destruct Hq]|].
      simpl. by intros h (?&_) ?.
    - done. }
  destruct (reachable_owned _ _ Hwf0 Ht Hown0 Hr) as [_ _ Hall].
  unfold Shards. eapply Forall_impl; [apply Hall|].
  - rewrite Hn. apply insert_nonempty.
  - simpl. intros h [v Hv]. rewrite Hn in Hv.
    apply lookup_singleton_Some in Hv as [? _]. done.
Qed.

(** The pad ring after [Join("a")]. *)
Definition pad_solo : Ring :=
  default zero_Ring (Join_all ["a"]%string pad_ring).

Lemma Join_pad_solo : Join_all ["a"]%string pad_ring = Some pad_solo.
Proof. apply default_Some. runs. Qed.

Lemma single_member_owns_all_witness :
  Forall (λ h, node h = "a"%string) (Shards pad_solo).
Proof.
  apply (single_member_owns_all _ pad_ring pad_solo "a" true New_pad).
  - assert (q pad_ring = 4) as -> by (vm_compute; reflexivity).
    unfold uint64. lia.
  - assert (t pad_ring = 2) as -> by (vm_compute; reflexivity). lia.
  - eapply Join_all_reachable_by_proper;
      [constructor| |exact Join_pad_solo].
    repeat constructor; discriminate.
  - destruct (Join_all_frame _ _ _ Join_pad_solo) as (_&Hn&_).
    rewrite Hn. destruct (New_wf _ _ New_pad) as [_ ->]; [by vm_compute|].
    reflexivity.
Defined.

(** ** Ties *)

(** An entry of rank 0 keeps its shard against every token of a higher
    rank, and against a token of rank 0 whose address is not higher. *)
Lemma take_shard_all_keeps e T :
  rank e = 0 → addr e ≠ 0 →
  Forall (λ tok, 1 <= tk_rank tok ∨
                 (tk_rank tok = 0 ∧ tk_addr tok <= addr e)) T →
  foldl take_shard e T = e.
Proof.
  intros Hr Ha. induction 1 as [|tok T Htok _ IH]; simpl; [done|].
  assert (take_shard e tok = e) as ->; [|done].
  unfold take_shard, claims.
  repeat case_decide; try done; lia.
Qed.

Lemma tokens_first n nd ring s a :
  address ring nd = Some (s, a) →
  ∃ T, tokens (S n) 0 nd [] ring = mkToken s a 0 nd :: T ∧
       Forall (λ tok, 1 <= tk_rank tok) T.
Proof.
  intros H. unfold address in H. simpl. rewrite H.
  eexists. split; [done|]. apply tokens_rank.
Qed.

(** On a tie of their first tokens, the node that joins first keeps the
    shard. *)
Lemma Join_first_wins opts ring0 x y s a r :
  New opts = Some ring0 → 0 <= q ring0 → 0 < int_of (t ring0) →
  x ≠ y → a ≠ 0 →
  address ring0 x = Some (s, a) → address ring0 y = Some (s, a) →
  Join_all [x; y] ring0 = Some r →
  node <$> Shards r !! Z.to_nat s = Some x.
Proof.
  intros HN Hq Ht Hxy Ha Hx Hy HJ.
  destruct (New_wf _ _ HN Hq) as [Hwf Hn].
  pose proof (New_fresh _ _ HN Hq) as Hblank.
  pose proof Hwf as [Hq0 Hlen _].
  assert (hashes r = repair_rule
            (foldl place (hashes ring0) ([x; y] ≫= tokens_of ring0))) as E.
  { apply (Join_all_topology [x; y] ring0 (hashes ring0) r); try done.
    - apply NoDup_cons. split; [|apply NoDup_singleton].
      by intros [->|Hnil]%elem_of_cons; [|apply elem_of_nil in Hnil].
    - intros z _. by rewrite Hn, lookup_empty.
    - apply cores_eq_refl. }
  (* the shard of the tie *)
  destruct (address_inv _ _ _ _ Hx) as (shard&Hs&->).
  unfold shard_of in Hs.
  destruct (decide (arc ring0 = 0)) as [|Harc]; [done|].
  destruct (decide (q ring0 = 0)) as [|Hqn]; [done|]. injection Hs as <-.
  pose proof (Z.mod_pos_bound (a / arc ring0) (q ring0) ltac:(lia)) as Hsr.
  rewrite int_of_small in * by lia.
  set (s := (a / arc ring0) mod q ring0) in *.
  destruct (lookup_lt_is_Some_2 (hashes ring0) (Z.to_nat s)) as [e0 He0];
    [lia|].
  assert (rank e0 = -1 ∧ addr e0 = 0) as [Hr0 Ha0].
  { rewrite Forall_forall in Hblank.
    destruct (Hblank e0) as (?&_&?); [by eapply list_elem_of_lookup_2|done]. }
  (* the tokens of the two nodes *)
  rewrite !bind_cons in E.
  assert (([] : list string) ≫= tokens_of ring0 = []) as Enil by reflexivity.
  rewrite Enil, app_nil_r in E. clear Enil.
  unfold tokens_of in E.
  destruct (Z.to_nat (int_of (t ring0))) as [|n] eqn:En; [lia|].
  destruct (tokens_first n x ring0 s a Hx) as (Tx&Ex&Hrx).
  destruct (tokens_first n y ring0 s a Hy) as (Ty&Ey&Hry).
  rewrite Ex, Ey in E.
  set (T := (mkToken s a 0 x :: Tx) ++ mkToken s a 0 y :: Ty) in *.
  assert (foldl place (hashes ring0) T !! Z.to_nat s
          = Some {| hash := hash e0; addr := a; rank := 0; node := x |})
    as Hplace.
  { rewrite place_all_lookup, He0. simpl. f_equal. unfold T.
    rewrite <-app_comm_cons, filter_cons. rewrite decide_True by (simpl; lia). simpl.
    assert (take_shard e0 (mkToken s a 0 x)
            = {| hash := hash e0; addr := a; rank := 0; node := x |}) as ->.
    { unfold take_shard, claims. simpl. by rewrite decide_True. }
    apply take_shard_all_keeps; [done|done|].
    apply Forall_forall. intros tok [_ Hin]%list_elem_of_filter.
    apply elem_of_app in Hin as [Hin|Hin].
    - rewrite Forall_forall in Hrx. left. by apply Hrx.
    - apply elem_of_cons in Hin as [->|Hin]; [right; simpl; lia|].
      rewrite Forall_forall in Hry. left. by apply Hry. }
  unfold Shards. rewrite E, (repair_rule_lookup _ _ _ Hplace).
  by rewrite decide_False.
Qed.

(** The topology depends on the order of the joins when tokens tie: if two
    distinct nodes have the same [Address], other than zero, then on a ring
    built by [New] with [t >= 1] the shard of that address belongs to the
    one that joined first, so that joining the two nodes in the two orders
    gives two different shard vectors. *)
Theorem Join_order_matters_on_tie opts ring0 x y s a r1 r2 :
  New opts = Some ring0 → 0 <= q ring0 → 0 < int_of (t ring0) →
  x ≠ y → a ≠ 0 →
  address ring0 x = Some (s, a) → address ring0 y = Some (s, a) →
  Join_all [x; y] ring0 = Some r1 → Join_all [y; x] ring0 = Some r2 →
  node <$> Shards r1 !! Z.to_nat s = Some x ∧
  node <$> Shards r2 !! Z.to_nat s = Some y ∧
  Shards r1 ≠ Shards r2.
Proof.
  intros HN Hq Ht Hxy Ha Hx Hy H1 H2.
  pose proof (Join_first_wins _ _ x y s a r1 HN Hq Ht Hxy Ha Hx Hy H1) as E1.
  pose proof (Join_first_wins _ _ y x s a r2 HN Hq Ht ltac:(done) Ha Hy Hx H2)
    as E2.
  split; [done|]. split; [done|]. intros E. rewrite E, E2 in E1. congruence.
Qed.

(** The ring [New(WithM8())]: the defaults over an 8-bit address space. *)
Definition byte_ring : Ring := default zero_Ring (New [WithM8]).

Lemma New_byte : New [WithM8] = Some byte_ring.
Proof. apply default_Some. runs. Qed.

Lemma Join_order_matters_on_tie_witness :
  ∃ r1 r2, Join_all ["c"; "ja"]%string byte_ring = Some r1 ∧
           Join_all ["ja"; "c"]%string byte_ring = Some r2 ∧
           Shards r1 ≠ Shards r2.
Proof.
  assert (is_Some (Join_all ["c"; "ja"]%string byte_ring)) as [r1 H1] by runs.
  assert (is_Some (Join_all ["ja"; "c"]%string byte_ring)) as [r2 H2] by runs.
  exists r1, r2. split; [exact H1|]. split; [exact H2|].
  assert (0 <= q byte_ring) as Hq.
  { assert (q byte_ring = 8) as -> by (vm_compute; reflexivity). lia. }
  assert (0 < int_of (t byte_ring)) as Ht.
  { assert (int_of (t byte_ring) = 8) as -> by (vm_compute; reflexivity). lia. }
  assert (address byte_ring "c" = Some (4, 132)) as Hc
    by (vm_compute; reflexivity).
  assert (address byte_ring "ja" = Some (4, 132)) as Hja
    by (vm_compute; reflexivity).
  assert ("c"%string ≠ "ja"%string) as Hne by discriminate.
  assert (132 ≠ 0) as Ha by lia.
  pose proof (Join_order_matters_on_tie _ byte_ring "c" "ja" 4 132 r1 r2
                New_byte Hq Ht Hne Ha Hc Hja H1 H2) as (_&_&Hdiff).
  exact Hdiff.
Defined.
